(** * GridForwardEulerDiffusionSolver3: a shallow embedding

    Embedding of [src/src/jet/grid_forward_euler_diffusion_solver3.cpp].

    Conventions of the model.
    - [double] is modelled by exact rationals [Q]; every equation between
      sample values is stated up to [Qeq] (or componentwise for vectors).
      Rounding, infinities and NaN are outside the model.  Division is
      that of [Q], which is total with x / 0 = 0; the grid spacing is
      meant to be strictly positive, and there it is the division of
      the rationals.
    - [size_t] indices are modelled by [nat].  The source only computes
      [i - 1] under the guard [i > 0] and [i + 1] for [i] below an array
      extent, so no index computation of the source wraps around.
    - Array element accesses are total and checked: an access whose index
      is outside the extent of the array yields [None], and the error
      propagates through the option monad.
    - Grids live in a store addressed by locations, because [solve] takes
      the source by reference and the destination by pointer, and nothing
      in the source prevents both from naming the same object.
    - The parallel loops are run sequentially in the index order of
      [forEachIndex] (k outermost, i innermost).  With a destination
      that is not the source the order is immaterial (lemma
      [solve_loop_any_order]). *)

From Stdlib Require Import QArith Qminmax Lqa ZArith Lia List.
From stdpp Require Import base option list gmap.

Open Scope Q_scope.

(** ** Vectors and sample quantities *)

(** [Vector3D]: three doubles. *)
Record Vector3D := mkVector3D { vx : Q; vy : Q; vz : Q }.

(** [Vector3UZ]: three [size_t] extents. *)
Record Vector3UZ := mkVector3UZ { sx : nat; sy : nat; sz : nat }.

Definition square (x : Q) : Q := x * x.

(** The operations [laplacian<T>] and the update rule need of a sample
    type [T] ([double] or [Vector3D] in the source). *)
Class Quantity (T : Type) := {
  qzero : T;
  qadd : T → T → T;
  qsub : T → T → T;
  qdiv : T → Q → T;
  qscale : Q → T → T;
  qeq : T → T → Prop
}.

Declare Scope quantity_scope.
Delimit Scope quantity_scope with qty.
Infix "⊕" := qadd (at level 50, left associativity) : quantity_scope.
Infix "⊖" := qsub (at level 50, left associativity) : quantity_scope.
Infix "⊘" := qdiv (at level 40, left associativity) : quantity_scope.
Infix "⊙" := qscale (at level 40, left associativity) : quantity_scope.
Infix "≃" := qeq (at level 70, no associativity) : quantity_scope.

#[export] Instance Quantity_double : Quantity Q := {|
  qzero := 0;
  qadd := Qplus;
  qsub := Qminus;
  qdiv := Qdiv;
  qscale := Qmult;
  qeq := Qeq
|}.

Definition vadd (a b : Vector3D) : Vector3D :=
  mkVector3D (vx a + vx b) (vy a + vy b) (vz a + vz b).
Definition vsub (a b : Vector3D) : Vector3D :=
  mkVector3D (vx a - vx b) (vy a - vy b) (vz a - vz b).
Definition vdiv (a : Vector3D) (s : Q) : Vector3D :=
  mkVector3D (vx a / s) (vy a / s) (vz a / s).
Definition vscale (s : Q) (a : Vector3D) : Vector3D :=
  mkVector3D (s * vx a) (s * vy a) (s * vz a).
Definition veq (a b : Vector3D) : Prop :=
  vx a == vx b ∧ vy a == vy b ∧ vz a == vz b.

#[export] Instance Quantity_Vector3D : Quantity Vector3D := {|
  qzero := mkVector3D 0 0 0;
  qadd := vadd;
  qsub := vsub;
  qdiv := vdiv;
  qscale := vscale;
  qeq := veq
|}.

(** ** Three-dimensional arrays with checked accesses *)

(** [Array3<T>] and its views: an extent and the cells below it.  Cells
    outside the extent are never observed through [getAt]. *)
Record Array3 (T : Type) := mkArray3 {
  size3 : Vector3UZ;
  cells : nat → nat → nat → T
}.
Arguments mkArray3 {T} _ _.
Arguments size3 {T} _.
Arguments cells {T} _ _ _ _.

Definition inBounds (s : Vector3UZ) (i j k : nat) : bool :=
  (i <? sx s)%nat && (j <? sy s)%nat && (k <? sz s)%nat.

(** [a(i, j, k)] as a read. *)
Definition getAt {T} (a : Array3 T) (i j k : nat) : option T :=
  if inBounds (size3 a) i j k then Some (cells a i j k) else None.

Definition updCells {T} (f : nat → nat → nat → T) (i j k : nat) (v : T)
  : nat → nat → nat → T :=
  λ i' j' k',
    if (i' =? i)%nat && (j' =? j)%nat && (k' =? k)%nat then v else f i' j' k'.

(** [a(i, j, k) = v]. *)
Definition setAt {T} (a : Array3 T) (i j k : nat) (v : T) : option (Array3 T) :=
  if inBounds (size3 a) i j k
  then Some (mkArray3 (size3 a) (updCells (cells a) i j k v))
  else None.

(** Modelled from the spec: [Array3::resize] is not under src/.  The spec
    only fixes that the marker buffer is resized to the requested extent;
    which values the cells hold afterwards is irrelevant, since
    [buildMarkers] overwrites every cell below the new extent. *)
Definition resize {T} (a : Array3 T) (s : Vector3UZ) : Array3 T :=
  mkArray3 s (cells a).

(** ** Index loops *)

Definition Index3 : Type := nat * nat * nat.

(** The index set of an extent, in the order of [forEachIndex]. *)
Definition indices (s : Vector3UZ) : list Index3 :=
  k ← seq 0 (sz s); j ← seq 0 (sy s); i ← seq 0 (sx s); [(i, j, k)].

Fixpoint forEach {S} (l : list Index3) (f : nat → nat → nat → S → option S)
  (st : S) : option S :=
  match l with
  | [] => Some st
  | (i, j, k) :: l' => st' ← f i j k st; forEach l' f st'
  end.

(** [forEachIndex(size, f)], and the [parallelForEach...Index] members of
    the grids, which differ only in the extent they range over. *)
Definition forEachIndex {S} (s : Vector3UZ)
  (f : nat → nat → nat → S → option S) (st : S) : option S :=
  forEach (indices s) f st.

(** ** Markers *)

Definition kFluid : Z := 0.
Definition kAir : Z := 1.
Definition kBoundary : Z := 2.

(** [ScalarField3]: anything that can be sampled at a position. *)
Definition ScalarField3 : Type := Vector3D → Q.

(** Modelled from the spec: [isInsideSdf] (level_set_utils.h) is not under
    src/.  The spec fixes the sign convention of signed-distance fields:
    a non-positive value means inside. *)
Definition isInsideSdf (phi : Q) : bool := Qle_bool phi 0.

(** The marker [buildMarkers] assigns to a sample position. *)
Definition markerAt (boundarySdf fluidSdf : ScalarField3) (p : Vector3D) : Z :=
  if isInsideSdf (boundarySdf p) then kBoundary
  else if isInsideSdf (fluidSdf p) then kFluid
  else kAir.

(** [buildMarkers], acting on the solver's [_markers] buffer. *)
Definition buildMarkers (size : Vector3UZ) (pos : nat → nat → nat → Vector3D)
  (boundarySdf fluidSdf : ScalarField3) (_markers : Array3 Z)
  : option (Array3 Z) :=
  let _markers := resize _markers size in
  forEachIndex (size3 _markers)
    (λ i j k _markers,
       if isInsideSdf (boundarySdf (pos i j k)) then
         setAt _markers i j k kBoundary
       else if isInsideSdf (fluidSdf (pos i j k)) then
         setAt _markers i j k kFluid
       else
         setAt _markers i j k kAir)
    _markers.

(** ** The marker-aware Laplacian *)

Section Laplacian.
Context {T : Type} `{Quantity T}.
Local Open Scope quantity_scope.

(** One guarded one-sided difference of [laplacian]:
    [if (inGrid && marker(n) == kFluid) d = diff;] with [d] initialised
    to [zero<T>()].  The marker is only read when [inGrid] holds. *)
Definition fluidDifference (inGrid : bool) (m : option Z) (diff : option T)
  : option T :=
  if inGrid then
    mk ← m; if (mk =? kFluid)%Z then diff else Some qzero
  else Some qzero.

(** [laplacian<T>].  The assertion of the source on (i, j, k) is the
    bounds check of the first read. *)
Definition laplacian (data : Array3 T) (marker : Array3 Z)
  (gridSpacing : Vector3D) (i j k : nat) : option T :=
  center ← getAt data i j k;
  let ds := size3 data in
  dleft ← fluidDifference (0 <? i)%nat (getAt marker (i - 1) j k)
            (n ← getAt data (i - 1) j k; Some (center ⊖ n));
  dright ← fluidDifference (i + 1 <? sx ds)%nat (getAt marker (i + 1) j k)
            (n ← getAt data (i + 1) j k; Some (n ⊖ center));
  ddown ← fluidDifference (0 <? j)%nat (getAt marker i (j - 1) k)
            (n ← getAt data i (j - 1) k; Some (center ⊖ n));
  dup ← fluidDifference (j + 1 <? sy ds)%nat (getAt marker i (j + 1) k)
            (n ← getAt data i (j + 1) k; Some (n ⊖ center));
  dback ← fluidDifference (0 <? k)%nat (getAt marker i j (k - 1))
            (n ← getAt data i j (k - 1); Some (center ⊖ n));
  dfront ← fluidDifference (k + 1 <? sz ds)%nat (getAt marker i j (k + 1))
            (n ← getAt data i j (k + 1); Some (n ⊖ center));
  Some ((dright ⊖ dleft) ⊘ square (vx gridSpacing)
        ⊕ (dup ⊖ ddown) ⊘ square (vy gridSpacing)
        ⊕ (dfront ⊖ dback) ⊘ square (vz gridSpacing)).
End Laplacian.

(** ** Grids and the store *)

(** Objects are identified by their location in the store. *)
Definition loc : Type := nat.

(** [ScalarGrid3] and [CollocatedVectorGrid3], as far as [solve] uses
    them: resolution, grid spacing, the position of each data point and
    the data array ([dataView], [operator()]).  The classes themselves
    are not under src/, so their members are the fields of a record. *)
Record Grid (T : Type) := mkGrid {
  resolution : Vector3UZ;
  gridSpacing : Vector3D;
  dataPosition : nat → nat → nat → Vector3D;
  data : Array3 T
}.
Arguments mkGrid {T} _ _ _ _.
Arguments resolution {T} _.
Arguments gridSpacing {T} _.
Arguments dataPosition {T} _ _ _ _.
Arguments data {T} _.

Abbreviation ScalarGrid3 := (Grid Q).
Abbreviation CollocatedVectorGrid3 := (Grid Vector3D).

Definition dataSize {T} (g : Grid T) : Vector3UZ := size3 (data g).

Definition withData {T} (g : Grid T) (a : Array3 T) : Grid T :=
  mkGrid (resolution g) (gridSpacing g) (dataPosition g) a.

(** Modelled from the spec: the grid classes are not under src/.  A
    collocated grid holds one value per cell center, so its data extent
    is its resolution. *)
Definition collocated {T} (g : Grid T) : Prop := dataSize g = resolution g.

(** [FaceCenteredGrid3], as far as [solve] uses it. *)
Record FaceCenteredGrid3 := mkFaceCenteredGrid3 {
  faceResolution : Vector3UZ;
  faceGridSpacing : Vector3D;
  uPosition : nat → nat → nat → Vector3D;
  vPosition : nat → nat → nat → Vector3D;
  wPosition : nat → nat → nat → Vector3D;
  uData : Array3 Q;
  vData : Array3 Q;
  wData : Array3 Q
}.

Definition uSize (g : FaceCenteredGrid3) : Vector3UZ := size3 (uData g).
Definition vSize (g : FaceCenteredGrid3) : Vector3UZ := size3 (vData g).
Definition wSize (g : FaceCenteredGrid3) : Vector3UZ := size3 (wData g).

Definition withU (g : FaceCenteredGrid3) (a : Array3 Q) : FaceCenteredGrid3 :=
  mkFaceCenteredGrid3 (faceResolution g) (faceGridSpacing g)
    (uPosition g) (vPosition g) (wPosition g) a (vData g) (wData g).
Definition withV (g : FaceCenteredGrid3) (a : Array3 Q) : FaceCenteredGrid3 :=
  mkFaceCenteredGrid3 (faceResolution g) (faceGridSpacing g)
    (uPosition g) (vPosition g) (wPosition g) (uData g) a (wData g).
Definition withW (g : FaceCenteredGrid3) (a : Array3 Q) : FaceCenteredGrid3 :=
  mkFaceCenteredGrid3 (faceResolution g) (faceGridSpacing g)
    (uPosition g) (vPosition g) (wPosition g) (uData g) (vData g) a.

(** Modelled from the spec: the class is not under src/.  Each velocity
    component is stored at the face centers of its own axis, so a grid of
    resolution (rx, ry, rz) has one more plane of samples along the axis
    of the component. *)
Definition staggered (g : FaceCenteredGrid3) : Prop :=
  let r := faceResolution g in
  uSize g = mkVector3UZ (S (sx r)) (sy r) (sz r) ∧
  vSize g = mkVector3UZ (sx r) (S (sy r)) (sz r) ∧
  wSize g = mkVector3UZ (sx r) (sy r) (S (sz r)).

(** The memory a call runs in: the grids, by location, and the solver
    object's private [_markers] buffer. *)
Record State (G : Type) := mkState {
  grids : gmap loc G;
  _markers : Array3 Z
}.
Arguments mkState {G} _ _.
Arguments grids {G} _.
Arguments _markers {G} _.

(** Run [buildMarkers] on the solver's buffer. *)
Definition rebuildMarkers {G} (size : Vector3UZ)
  (pos : nat → nat → nat → Vector3D) (boundarySdf fluidSdf : ScalarField3)
  (st : State G) : option (State G) :=
  m ← buildMarkers size pos boundarySdf fluidSdf (_markers st);
  Some (mkState (grids st) m).

(** A view of one data array of a grid object ([dataView], [uView], ...):
    how to read the array off the object and how to put an array back. *)
Record View (G T : Type) := mkView {
  viewOf : G → Array3 T;
  withView : G → Array3 T → G
}.
Arguments mkView {G T} _ _.
Arguments viewOf {G T} _ _.
Arguments withView {G T} _ _ _.

Definition dataView {T} : View (Grid T) T := mkView data withData.
Definition uView : View FaceCenteredGrid3 Q := mkView uData withU.
Definition vView : View FaceCenteredGrid3 Q := mkView vData withV.
Definition wView : View FaceCenteredGrid3 Q := mkView wData withW.

(** The write [view(i, j, k) = x] into the object at [dest]; for a
    collocated grid this is also [dest(i, j, k) = x]. *)
Definition writeView {G T} (view : View G T) (dest : loc) (i j k : nat)
  (x : T) (st : State G) : option (State G) :=
  g ← grids st !! dest;
  a ← setAt (viewOf view g) i j k x;
  Some (mkState (<[dest := withView view g a]> (grids st)) (_markers st)).

(** ** solve, scalar and collocated vector grids *)

Section Solve.
Context {T : Type} `{Quantity T}.
Local Open Scope quantity_scope.

(** The body of the loop of [solve].  [source] and the view [src] refer
    to the grid stored at [source], read when the sample is processed. *)
Definition solveSample (source : loc) (diffusionCoefficient
  timeIntervalInSeconds : Q) (dest : loc) (h : Vector3D) (i j k : nat)
  (st : State (Grid T)) : option (State (Grid T)) :=
  g ← grids st !! source;
  let src := data g in
  m ← getAt (_markers st) i j k;
  if (m =? kFluid)%Z then
    s ← getAt src i j k;
    l ← laplacian src (_markers st) h i j k;
    writeView dataView dest i j k
      (s ⊕ (diffusionCoefficient * timeIntervalInSeconds) ⊙ l) st
  else
    s ← getAt src i j k;
    writeView dataView dest i j k s st.

(** [solve] for [ScalarGrid3] and for [CollocatedVectorGrid3]: the two
    overloads are the same text up to the sample type. *)
Definition solve (source : loc) (diffusionCoefficient
  timeIntervalInSeconds : Q) (dest : loc)
  (boundarySdf fluidSdf : ScalarField3) (st : State (Grid T))
  : option (State (Grid T)) :=
  g ← grids st !! source;
  let h := gridSpacing g in
  let pos := dataPosition g in
  st ← rebuildMarkers (resolution g) pos boundarySdf fluidSdf st;
  forEachIndex (dataSize g)
    (solveSample source diffusionCoefficient timeIntervalInSeconds dest h)
    st.
End Solve.

Definition solve_scalar := @solve Q _.
Definition solve_collocated := @solve Vector3D _.

(** ** solve, face-centered grids *)

(** Modelled from the spec: [laplacian3] (fdm_utils.h) is not under src/.
    It is the standard second-order central difference per axis,
    computed from one-sided differences that contribute zero when the
    neighbor is absent at the grid boundary; it takes no markers. *)
Definition laplacian3 (data : Array3 Q) (gridSpacing : Vector3D)
  (i j k : nat) : option Q :=
  center ← getAt data i j k;
  let ds := size3 data in
  dleft ← (if (0 <? i)%nat
           then n ← getAt data (i - 1) j k; Some (center - n) else Some 0);
  dright ← (if (i + 1 <? sx ds)%nat
            then n ← getAt data (i + 1) j k; Some (n - center) else Some 0);
  ddown ← (if (0 <? j)%nat
           then n ← getAt data i (j - 1) k; Some (center - n) else Some 0);
  dup ← (if (j + 1 <? sy ds)%nat
         then n ← getAt data i (j + 1) k; Some (n - center) else Some 0);
  dback ← (if (0 <? k)%nat
           then n ← getAt data i j (k - 1); Some (center - n) else Some 0);
  dfront ← (if (k + 1 <? sz ds)%nat
            then n ← getAt data i j (k + 1); Some (n - center) else Some 0);
  Some ((dright - dleft) / square (vx gridSpacing)
        + (dup - ddown) / square (vy gridSpacing)
        + (dfront - dback) / square (vz gridSpacing)).

(** The body shared by the three loops of the face-centered [solve]:
    a sample inside the boundary is skipped, any other sample is diffused
    with [laplacian3]. *)
Definition solveFaceSample (view : View FaceCenteredGrid3 Q)
  (pos : nat → nat → nat → Vector3D) (source : loc)
  (diffusionCoefficient timeIntervalInSeconds : Q) (dest : loc)
  (boundarySdf : ScalarField3) (h : Vector3D) (i j k : nat)
  (st : State FaceCenteredGrid3) : option (State FaceCenteredGrid3) :=
  if negb (isInsideSdf (boundarySdf (pos i j k))) then
    g ← grids st !! source;
    s ← getAt (viewOf view g) i j k;
    l ← laplacian3 (viewOf view g) h i j k;
    writeView view dest i j k
      (s + diffusionCoefficient * timeIntervalInSeconds * l) st
  else Some st.

(** Lines 122-130: markers at the u faces, then the loop over the u
    indices. *)
Definition solveU (source : loc) (diffusionCoefficient
  timeIntervalInSeconds : Q) (dest : loc)
  (boundarySdf fluidSdf : ScalarField3) (st : State FaceCenteredGrid3)
  : option (State FaceCenteredGrid3) :=
  g ← grids st !! source;
  st ← rebuildMarkers (uSize g) (uPosition g) boundarySdf fluidSdf st;
  forEachIndex (uSize g)
    (solveFaceSample uView (uPosition g) source diffusionCoefficient
       timeIntervalInSeconds dest boundarySdf (faceGridSpacing g))
    st.

(** Lines 132-140: the same for the v component. *)
Definition solveV (source : loc) (diffusionCoefficient
  timeIntervalInSeconds : Q) (dest : loc)
  (boundarySdf fluidSdf : ScalarField3) (st : State FaceCenteredGrid3)
  : option (State FaceCenteredGrid3) :=
  g ← grids st !! source;
  st ← rebuildMarkers (vSize g) (vPosition g) boundarySdf fluidSdf st;
  forEachIndex (vSize g)
    (solveFaceSample vView (vPosition g) source diffusionCoefficient
       timeIntervalInSeconds dest boundarySdf (faceGridSpacing g))
    st.

(** Lines 142-150: markers at the w faces, then the loop, which the
    source runs with [parallelForEachUIndex], over the w views. *)
Definition solveW (source : loc) (diffusionCoefficient
  timeIntervalInSeconds : Q) (dest : loc)
  (boundarySdf fluidSdf : ScalarField3) (st : State FaceCenteredGrid3)
  : option (State FaceCenteredGrid3) :=
  g ← grids st !! source;
  st ← rebuildMarkers (wSize g) (wPosition g) boundarySdf fluidSdf st;
  forEachIndex (uSize g)
    (solveFaceSample wView (wPosition g) source diffusionCoefficient
       timeIntervalInSeconds dest boundarySdf (faceGridSpacing g))
    st.

(** [solve] for [FaceCenteredGrid3]. *)
Definition solve_face (source : loc) (diffusionCoefficient
  timeIntervalInSeconds : Q) (dest : loc)
  (boundarySdf fluidSdf : ScalarField3) (st : State FaceCenteredGrid3)
  : option (State FaceCenteredGrid3) :=
  st ← solveU source diffusionCoefficient timeIntervalInSeconds dest
         boundarySdf fluidSdf st;
  st ← solveV source diffusionCoefficient timeIntervalInSeconds dest
         boundarySdf fluidSdf st;
  solveW source diffusionCoefficient timeIntervalInSeconds dest
    boundarySdf fluidSdf st.

(** What the model relies on of a view: reading back what was put, and
    putting twice or putting back what was read changes nothing else. *)
Class ViewLaws {G T} (view : View G T) : Prop := {
  view_with : ∀ g a, viewOf view (withView view g a) = a;
  with_with : ∀ g a b, withView view (withView view g a) b = withView view g b;
  with_view : ∀ g, withView view g (viewOf view g) = g
}.

(** The algebra of a sample type that the properties of constant fields
    rest on; [double] (as [Q]) and [Vector3D] satisfy it. *)
Class QuantityLaws (T : Type) `{Quantity T} : Prop := {
  qeq_equivalence : Equivalence qeq;
  qadd_proper : ∀ a a' b b', qeq a a' → qeq b b' → qeq (qadd a b) (qadd a' b');
  qsub_proper : ∀ a a' b b', qeq a a' → qeq b b' → qeq (qsub a b) (qsub a' b');
  qdiv_proper : ∀ a a' h, qeq a a' → qeq (qdiv a h) (qdiv a' h);
  qscale_proper : ∀ s a a', qeq a a' → qeq (qscale s a) (qscale s a');
  qsub_diag : ∀ a, qeq (qsub a a) qzero;
  qdiv_zero : ∀ h, qeq (qdiv qzero h) qzero;
  qadd_zero_r : ∀ a, qeq (qadd a qzero) a;
  qscale_zero : ∀ s, qeq (qscale s qzero) qzero
}.

(** ** Closed forms used in the proofs *)

(** One extent fits in another. *)
Definition fitsIn (s1 s2 : Vector3UZ) : Prop :=
  (sx s1 ≤ sx s2 ∧ sy s1 ≤ sy s2 ∧ sz s1 ≤ sz s2)%nat.

Section ClosedForms.
Context {T : Type} `{Quantity T}.
Local Open Scope quantity_scope.

(** What [fluidDifference] yields when its reads are in bounds. *)
Definition fluidDiffAt (marker : Array3 Z) (inGrid : bool) (i j k : nat)
  (diff : T) : T :=
  if inGrid && (cells marker i j k =? kFluid)%Z then diff else qzero.

(** What [laplacian] returns at an index inside [data], when [marker]
    has the extent of [data] (lemma [laplacian_inside]). *)
Definition laplacianAt (data : Array3 T) (marker : Array3 Z)
  (gridSpacing : Vector3D) (i j k : nat) : T :=
  let center := cells data i j k in
  let ds := size3 data in
  let dleft := fluidDiffAt marker (0 <? i)%nat (i - 1) j k
                 (center ⊖ cells data (i - 1) j k) in
  let dright := fluidDiffAt marker (i + 1 <? sx ds)%nat (i + 1) j k
                  (cells data (i + 1) j k ⊖ center) in
  let ddown := fluidDiffAt marker (0 <? j)%nat i (j - 1) k
                 (center ⊖ cells data i (j - 1) k) in
  let dup := fluidDiffAt marker (j + 1 <? sy ds)%nat i (j + 1) k
               (cells data i (j + 1) k ⊖ center) in
  let dback := fluidDiffAt marker (0 <? k)%nat i j (k - 1)
                 (center ⊖ cells data i j (k - 1)) in
  let dfront := fluidDiffAt marker (k + 1 <? sz ds)%nat i j (k + 1)
                  (cells data i j (k + 1) ⊖ center) in
  (dright ⊖ dleft) ⊘ square (vx gridSpacing)
  ⊕ (dup ⊖ ddown) ⊘ square (vy gridSpacing)
  ⊕ (dfront ⊖ dback) ⊘ square (vz gridSpacing).

(** The effect of [solveSample] at (i, j, k) as a function of the
    source grid and the markers: the value it writes, if its reads
    succeed. *)
Definition sampleUpdate (g : Grid T) (M : Array3 Z)
  (diffusionCoefficient timeIntervalInSeconds : Q) (h : Vector3D)
  (i j k : nat) : option (option T) :=
  m ← getAt M i j k;
  if (m =? kFluid)%Z then
    s ← getAt (data g) i j k;
    l ← laplacian (data g) M h i j k;
    Some (Some (s ⊕ (diffusionCoefficient * timeIntervalInSeconds) ⊙ l))
  else
    s ← getAt (data g) i j k;
    Some (Some s).

(** The value [solve] leaves at a sample of the destination. *)
Definition updatedValue (g : Grid T) (M : Array3 Z)
  (diffusionCoefficient timeIntervalInSeconds : Q) (i j k : nat) : T :=
  if (cells M i j k =? kFluid)%Z then
    cells (data g) i j k
    ⊕ (diffusionCoefficient * timeIntervalInSeconds)
      ⊙ laplacianAt (data g) M (gridSpacing g) i j k
  else cells (data g) i j k.
End ClosedForms.

(** What [laplacian3] returns at an index inside [data] (lemma
    [laplacian3_inside]). *)
Definition laplacian3At (data : Array3 Q) (gridSpacing : Vector3D)
  (i j k : nat) : Q :=
  let center := cells data i j k in
  let ds := size3 data in
  let dleft := if (0 <? i)%nat then center - cells data (i - 1) j k else 0 in
  let dright :=
    if (i + 1 <? sx ds)%nat then cells data (i + 1) j k - center else 0 in
  let ddown := if (0 <? j)%nat then center - cells data i (j - 1) k else 0 in
  let dup :=
    if (j + 1 <? sy ds)%nat then cells data i (j + 1) k - center else 0 in
  let dback := if (0 <? k)%nat then center - cells data i j (k - 1) else 0 in
  let dfront :=
    if (k + 1 <? sz ds)%nat then cells data i j (k + 1) - center else 0 in
  (dright - dleft) / square (vx gridSpacing)
  + (dup - ddown) / square (vy gridSpacing)
  + (dfront - dback) / square (vz gridSpacing).

(** The effect of [solveFaceSample] at (i, j, k) as a function of the
    source grid: skip the sample, or the value it writes if its reads
    succeed. *)
Definition faceUpdate (view : View FaceCenteredGrid3 Q)
  (pos : nat → nat → nat → Vector3D) (g : FaceCenteredGrid3)
  (diffusionCoefficient timeIntervalInSeconds : Q)
  (boundarySdf : ScalarField3) (h : Vector3D) (i j k : nat)
  : option (option Q) :=
  if negb (isInsideSdf (boundarySdf (pos i j k))) then
    s ← getAt (viewOf view g) i j k;
    l ← laplacian3 (viewOf view g) h i j k;
    Some (Some (s + diffusionCoefficient * timeIntervalInSeconds * l))
  else Some None.

(** ** The Laplacian in the words of the specification *)

Inductive Axis := AxisX | AxisY | AxisZ.

Definition spacingAlong (h : Vector3D) (a : Axis) : Q :=
  match a with AxisX => vx h | AxisY => vy h | AxisZ => vz h end.

(** The neighbor one sample up the axis. *)
Definition above (a : Axis) (i j k : nat) : option Index3 :=
  match a with
  | AxisX => Some (i + 1, j, k)%nat
  | AxisY => Some (i, j + 1, k)%nat
  | AxisZ => Some (i, j, k + 1)%nat
  end.

(** The neighbor one sample down the axis; index 0 has none. *)
Definition below (a : Axis) (i j k : nat) : option Index3 :=
  match a with
  | AxisX => match i with O => None | S i' => Some (i', j, k) end
  | AxisY => match j with O => None | S j' => Some (i, j', k) end
  | AxisZ => match k with O => None | S k' => Some (i, j, k') end
  end.

(** What a neighbor contributes: its difference to the center when it
    lies in the grid and is marked Fluid, zero otherwise. *)
Definition neighborDifference (data : Array3 Q) (marker : Array3 Z)
  (center : Q) (n : option Index3) : Q :=
  match n with
  | Some (i, j, k) =>
      match getAt data i j k, getAt marker i j k with
      | Some v, Some m => if (m =? kFluid)%Z then v - center else 0
      | _, _ => 0
      end
  | None => 0
  end.

(** (neighbor_plus - 2 center + neighbor_minus) / spacing^2, each
    neighbor counted only as far as it contributes. *)
Definition axisTerm (data : Array3 Q) (marker : Array3 Z) (h : Vector3D)
  (a : Axis) (i j k : nat) : Q :=
  let center := cells data i j k in
  (neighborDifference data marker center (above a i j k)
   + neighborDifference data marker center (below a i j k))
  / square (spacingAlong h a).

Definition specLaplacian (data : Array3 Q) (marker : Array3 Z) (h : Vector3D)
  (i j k : nat) : Q :=
  axisTerm data marker h AxisX i j k
  + axisTerm data marker h AxisY i j k
  + axisTerm data marker h AxisZ i j k.

(** ** Sums and extrema over the samples *)

Definition sumOver {A} (l : list A) (f : A → Q) : Q :=
  foldr (λ x acc, f x + acc) 0 l.

(** The sum of [f] over the index set of an extent. *)
Definition sum3 (s : Vector3UZ) (f : nat → nat → nat → Q) : Q :=
  sumOver (seq 0 (sz s)) (λ k,
    sumOver (seq 0 (sy s)) (λ j,
      sumOver (seq 0 (sx s)) (λ i, f i j k))).

(** The sum of all samples of an array. *)
Definition total (a : Array3 Q) : Q := sum3 (size3 a) (cells a).

(** The samples of an array, in index order. *)
Definition samples (a : Array3 Q) : list Q :=
  (λ idx : Index3, let '(i, j, k) := idx in cells a i j k)
    <$> indices (size3 a).

Definition minimum (l : list Q) : Q :=
  match l with [] => 0 | x :: l' => foldr Qmin x l' end.
Definition maximum (l : list Q) : Q :=
  match l with [] => 0 | x :: l' => foldr Qmax x l' end.

(** ** Concrete grids and fields *)

(** Sample positions of a grid with origin 0 and unit spacing. *)
Definition unitPosition : nat → nat → nat → Vector3D :=
  λ i j k, mkVector3D (inject_Z (Z.of_nat i)) (inject_Z (Z.of_nat j))
             (inject_Z (Z.of_nat k)).

Definition unitSpacing : Vector3D := mkVector3D 1 1 1.

Definition constantData (s : Vector3UZ) (c : Q) : Array3 Q :=
  mkArray3 s (λ _ _ _, c).

(** The samples 0, 1, 2, ... along x. *)
Definition rampData (s : Vector3UZ) : Array3 Q :=
  mkArray3 s (λ i _ _, inject_Z (Z.of_nat i)).

Definition scalarGrid (a : Array3 Q) : ScalarGrid3 :=
  mkGrid (size3 a) unitSpacing unitPosition a.

Definition noMarkers : Array3 Z := mkArray3 (mkVector3UZ 0 0 0) (λ _ _ _, 0%Z).

(** A store with a source grid at 0 and a destination grid at 1. *)
Definition twoGrids {G} (source dest : G) : State G :=
  mkState (<[1%nat := dest]> (<[0%nat := source]> ∅)) noMarkers.

(** A 2 x 1 x 1 ramp as source, zeros as destination. *)
Definition rampState : State ScalarGrid3 :=
  twoGrids (scalarGrid (rampData (mkVector3UZ 2 1 1)))
           (scalarGrid (constantData (mkVector3UZ 2 1 1) 0)).

Definition constantField (c : Q) : ScalarField3 := λ _, c.

(** Face positions of a unit-spacing grid with origin 0: index plus an
    offset per axis. *)
Definition offsetPosition (ox oy oz : Q) : nat → nat → nat → Vector3D :=
  λ i j k, mkVector3D (inject_Z (Z.of_nat i) + ox) (inject_Z (Z.of_nat j) + oy)
             (inject_Z (Z.of_nat k) + oz).

(** A staggered grid of resolution [r] with the given component values. *)
Definition faceGrid (r : Vector3UZ) (u v w : nat → nat → nat → Q)
  : FaceCenteredGrid3 :=
  mkFaceCenteredGrid3 r unitSpacing
    (offsetPosition 0 (1 # 2) (1 # 2))
    (offsetPosition (1 # 2) 0 (1 # 2))
    (offsetPosition (1 # 2) (1 # 2) 0)
    (mkArray3 (mkVector3UZ (S (sx r)) (sy r) (sz r)) u)
    (mkArray3 (mkVector3UZ (sx r) (S (sy r)) (sz r)) v)
    (mkArray3 (mkVector3UZ (sx r) (sy r) (S (sz r))) w).

Definition ramp : nat → nat → nat → Q := λ i _ _, inject_Z (Z.of_nat i).
Definition constant (c : Q) : nat → nat → nat → Q := λ _ _ _, c.

(** One cell: the u component of the source is 0 on the left face and 1
    on the right face; the destination holds zeros. *)
Definition oneCellSource : FaceCenteredGrid3 :=
  faceGrid (mkVector3UZ 1 1 1) ramp (constant 1) (constant 1).
Definition oneCellDest : FaceCenteredGrid3 :=
  faceGrid (mkVector3UZ 1 1 1) (constant 0) (constant 0) (constant 0).
Definition oneCellState : State FaceCenteredGrid3 :=
  twoGrids oneCellSource oneCellDest.

(** A fluid SDF that is negative left of x = 1/2 and positive right of it. *)
Definition leftHalfFluid : ScalarField3 := λ p, vx p - (1 # 2).

(** A boundary SDF that is negative right of x = 3/4. *)
Definition rightSolid : ScalarField3 := λ p, (3 # 4) - vx p.

(** One cell whose three components are 1 everywhere in the source, with
    zeros in the destination. *)
Definition uniformSource : FaceCenteredGrid3 :=
  faceGrid (mkVector3UZ 1 1 1) (constant 1) (constant 1) (constant 1).
Definition uniformState : State FaceCenteredGrid3 :=
  twoGrids uniformSource oneCellDest.

(** ** Combinations of fields *)

(** The field alpha x + y, sample by sample, on the extent of [x]. *)
Definition axpy (alpha : Q) (x y : Array3 Q) : Array3 Q :=
  mkArray3 (size3 x) (λ i j k, alpha * cells x i j k + cells y i j k).

(** A marker array that marks every sample Fluid. *)
Definition fluidMarkers (s : Vector3UZ) : Array3 Z :=
  mkArray3 s (λ _ _ _, kFluid).

(** The sum of the samples of [a] that [M] marks Fluid. *)
Definition fluidTotal (M : Array3 Z) (a : Array3 Q) : Q :=
  sum3 (size3 a)
    (λ i j k, if (cells M i j k =? kFluid)%Z then cells a i j k else 0).

(** Two marker arrays that no access can tell apart. *)
Definition sameReads (M M' : Array3 Z) : Prop :=
  ∀ i j k, getAt M i j k = getAt M' i j k.

(** A state with its marker buffer replaced. *)
Definition withMarkers {G} (M : Array3 Z) (st : State G) : State G :=
  mkState (grids st) M.

(** ** Components of a vector grid *)

Definition component (a : Axis) (v : Vector3D) : Q :=
  match a with AxisX => vx v | AxisY => vy v | AxisZ => vz v end.

Definition componentData (a : Axis) (data : Array3 Vector3D) : Array3 Q :=
  mkArray3 (size3 data) (λ i j k, component a (cells data i j k)).

(** The scalar grid that holds one component of a vector grid. *)
Definition componentGrid (a : Axis) (g : CollocatedVectorGrid3) : ScalarGrid3 :=
  mkGrid (resolution g) (gridSpacing g) (dataPosition g)
    (componentData a (data g)).

Definition vectorGrid (a : Array3 Vector3D) : CollocatedVectorGrid3 :=
  mkGrid (size3 a) unitSpacing unitPosition a.

(** The vector samples (i, 2 i, 7) along x. *)
Definition vectorRamp (s : Vector3UZ) : Array3 Vector3D :=
  mkArray3 s (λ i _ _, mkVector3D (inject_Z (Z.of_nat i))
                         (2 * inject_Z (Z.of_nat i)) 7).

(** * Properties *)

(** ** Arrays and index sets *)

Lemma inBounds_spec s i j k :
  inBounds s i j k = true ↔ (i < sx s ∧ j < sy s ∧ k < sz s)%nat.
Proof.
  unfold inBounds. rewrite !andb_true_iff, !Nat.ltb_lt. tauto.
Qed.

Lemma getAt_Some {T} (a : Array3 T) i j k :
  inBounds (size3 a) i j k = true → getAt a i j k = Some (cells a i j k).
Proof. intros Hb. unfold getAt. now rewrite Hb. Qed.

Lemma getAt_inv {T} (a : Array3 T) i j k v :
  getAt a i j k = Some v →
  inBounds (size3 a) i j k = true ∧ v = cells a i j k.
Proof.
  unfold getAt. destruct (inBounds (size3 a) i j k); [|discriminate].
  intros [= <-]. split; reflexivity.
Qed.

Lemma getAt_None {T} (a : Array3 T) i j k :
  inBounds (size3 a) i j k = false → getAt a i j k = None.
Proof. intros Hb. unfold getAt. now rewrite Hb. Qed.

Lemma setAt_Some {T} (a : Array3 T) i j k v :
  inBounds (size3 a) i j k = true →
  setAt a i j k v = Some (mkArray3 (size3 a) (updCells (cells a) i j k v)).
Proof. intros Hb. unfold setAt. now rewrite Hb. Qed.

Lemma updCells_eq {T} (f : nat → nat → nat → T) i j k v :
  updCells f i j k v i j k = v.
Proof. unfold updCells. now rewrite !Nat.eqb_refl. Qed.

Lemma updCells_ne {T} (f : nat → nat → nat → T) i j k v i' j' k' :
  (i', j', k') ≠ (i, j, k) → updCells f i j k v i' j' k' = f i' j' k'.
Proof.
  intros Hne. unfold updCells.
  destruct (Nat.eqb_spec i' i), (Nat.eqb_spec j' j), (Nat.eqb_spec k' k);
    simpl; try reflexivity.
  subst. now destruct Hne.
Qed.

Lemma elem_of_indices s i j k :
  (i, j, k) ∈ indices s ↔ inBounds s i j k = true.
Proof.
  rewrite inBounds_spec. unfold indices. split.
  - intros Hin.
    apply list_elem_of_bind in Hin as (k' & Hin & Hk).
    apply list_elem_of_bind in Hin as (j' & Hin & Hj).
    apply list_elem_of_bind in Hin as (i' & Hin & Hi).
    apply list_elem_of_singleton in Hin. injection Hin as -> -> ->.
    apply elem_of_seq in Hk, Hj, Hi. lia.
  - intros (Hi & Hj & Hk).
    apply list_elem_of_bind. exists k. split; [|apply elem_of_seq; lia].
    apply list_elem_of_bind. exists j. split; [|apply elem_of_seq; lia].
    apply list_elem_of_bind. exists i. split; [|apply elem_of_seq; lia].
    now apply list_elem_of_singleton.
Qed.

(** ** Loops *)

Lemma forEach_invariant_from {S} (P : list Index3 → S → Prop)
  (f : nat → nat → nat → S → option S) (l : list Index3) :
  ∀ done st,
    (∀ done i j k st, P done st → (i, j, k) ∈ l →
       ∃ st', f i j k st = Some st' ∧ P (done ++ [(i, j, k)]) st') →
    P done st →
    ∃ st', forEach l f st = Some st' ∧ P (done ++ l) st'.
Proof.
  induction l as [|[[i j] k] l IH]; intros done st Hstep HP.
  - exists st. rewrite app_nil_r. now split.
  - destruct (Hstep done i j k st HP) as (st1 & Hf & HP1); [left|].
    destruct (IH (done ++ [(i, j, k)]) st1) as (st' & Hrun & HP'); [|exact HP1|].
    + intros d i' j' k' s' Hd Hin. apply Hstep; [exact Hd|now right].
    + exists st'. simpl. rewrite Hf. simpl. split; [exact Hrun|].
      now rewrite <- app_assoc in HP'.
Qed.

Lemma forEach_invariant {S} (P : list Index3 → S → Prop)
  (f : nat → nat → nat → S → option S) (l : list Index3) (st : S) :
  (∀ done i j k st, P done st → (i, j, k) ∈ l →
     ∃ st', f i j k st = Some st' ∧ P (done ++ [(i, j, k)]) st') →
  P [] st →
  ∃ st', forEach l f st = Some st' ∧ P l st'.
Proof.
  intros Hstep HP.
  exact (forEach_invariant_from P f l [] st Hstep HP).
Qed.

(** ** buildMarkers *)

Lemma buildMarkers_spec size pos boundarySdf fluidSdf m0 :
  ∃ m, buildMarkers size pos boundarySdf fluidSdf m0 = Some m ∧
       size3 m = size ∧
       ∀ i j k, inBounds size i j k = true →
                cells m i j k = markerAt boundarySdf fluidSdf (pos i j k).
Proof.
  unfold buildMarkers, forEachIndex. simpl.
  set (P := λ (done : list Index3) (m : Array3 Z),
         size3 m = size ∧
         ∀ i j k, (i, j, k) ∈ done →
                  cells m i j k = markerAt boundarySdf fluidSdf (pos i j k)).
  destruct (forEach_invariant P
    (λ i j k m,
       if isInsideSdf (boundarySdf (pos i j k)) then setAt m i j k kBoundary
       else if isInsideSdf (fluidSdf (pos i j k)) then setAt m i j k kFluid
       else setAt m i j k kAir)
    (indices size) (resize m0 size)) as (m & Hrun & Hsz & Hcells).
  - intros done i j k m [Hsz Hdone] Hin.
    apply elem_of_indices in Hin.
    exists (mkArray3 (size3 m)
              (updCells (cells m) i j k
                 (markerAt boundarySdf fluidSdf (pos i j k)))).
    split.
    + unfold markerAt.
      destruct (isInsideSdf (boundarySdf (pos i j k)));
        [|destruct (isInsideSdf (fluidSdf (pos i j k)))];
        apply setAt_Some; now rewrite Hsz.
    + split; [exact Hsz|]. simpl. intros i' j' k' Hin'.
      destruct (decide ((i', j', k') = (i, j, k))) as [[= -> -> ->]|Hne].
      * apply updCells_eq.
      * rewrite updCells_ne by exact Hne. apply Hdone.
        apply elem_of_app in Hin' as [Hin'|Hin']; [exact Hin'|].
        apply list_elem_of_singleton in Hin'. contradiction.
  - split; [reflexivity|]. intros i j k Hin. inversion Hin.
  - exists m. split; [exact Hrun|]. split; [exact Hsz|].
    intros i j k Hb. apply Hcells. now apply elem_of_indices.
Qed.

(** ** Loops that write one sample per index through a view *)

#[export] Instance dataView_laws {T} : ViewLaws (@dataView T).
Proof. split; intros; try reflexivity. now destruct g. Qed.

#[export] Instance uView_laws : ViewLaws uView.
Proof. split; intros; try reflexivity. now destruct g. Qed.

#[export] Instance vView_laws : ViewLaws vView.
Proof. split; intros; try reflexivity. now destruct g. Qed.

#[export] Instance wView_laws : ViewLaws wView.
Proof. split; intros; try reflexivity. now destruct g. Qed.

Section ViewLoop.
Context {G T : Type} (view : View G T) `{!ViewLaws view}.
Variables (source dest : loc) (g d : G) (M : Array3 Z).
Variable step : nat → nat → nat → State G → option (State G).

(** [val i j k]: what the step at (i, j, k) does, as a function of the
    source object and the markers only: fail, skip, or write a value. *)
Variable val : nat → nat → nat → option (option T).

Hypothesis step_eq : ∀ i j k st,
  grids st !! source = Some g → _markers st = M →
  step i j k st =
    (ov ← val i j k;
     match ov with
     | Some x => writeView view dest i j k x st
     | None => Some st
     end).
Hypothesis source_not_dest : source ≠ dest.

Lemma viewLoop_from (G0 : gmap loc G) (l : list Index3) :
  G0 !! source = Some g →
  ∀ a,
    (∀ i j k, (i, j, k) ∈ l →
       ∃ ov, val i j k = Some ov ∧
             (is_Some ov → inBounds (size3 a) i j k = true)) →
    ∃ a',
      forEach l step (mkState (<[dest := withView view d a]> G0) M)
        = Some (mkState (<[dest := withView view d a']> G0) M) ∧
      size3 a' = size3 a ∧
      (∀ i j k x, (i, j, k) ∈ l → val i j k = Some (Some x) →
                  cells a' i j k = x) ∧
      (∀ i j k, (i, j, k) ∈ l → val i j k = Some None →
                cells a' i j k = cells a i j k) ∧
      (∀ i j k, (i, j, k) ∉ l → cells a' i j k = cells a i j k).
Proof.
  intros Hsrc.
  induction l as [|[[i j] k] l IH]; intros a Hok.
  - exists a. simpl. repeat split; try reflexivity.
    intros ???? Hin. inversion Hin.
  - destruct (Hok i j k) as (ov & Hval & Hwr); [left|].
    assert (Hstep : step i j k (mkState (<[dest := withView view d a]> G0) M)
              = match ov with
                | Some x => writeView view dest i j k x
                              (mkState (<[dest := withView view d a]> G0) M)
                | None => Some (mkState (<[dest := withView view d a]> G0) M)
                end).
    { rewrite step_eq; [|simpl; now rewrite lookup_insert_ne|reflexivity].
      now rewrite Hval. }
    destruct ov as [x|].
    + (* the step writes x *)
      set (a1 := mkArray3 (size3 a) (updCells (cells a) i j k x)).
      assert (Hw : writeView view dest i j k x
                     (mkState (<[dest := withView view d a]> G0) M)
                   = Some (mkState (<[dest := withView view d a1]> G0) M)).
      { unfold writeView. simpl. rewrite lookup_insert_eq. simpl.
        rewrite view_with. rewrite setAt_Some by (apply Hwr; eauto).
        simpl. now rewrite with_with, insert_insert_eq. }
      destruct (IH a1) as (a' & Hrun & Hsz & Hset & Hskip & Hout).
      { intros i' j' k' Hin. apply Hok. now right. }
      exists a'. simpl. rewrite Hstep, Hw. simpl.
      split; [exact Hrun|]. split; [exact Hsz|].
      split; [|split].
      * intros i' j' k' y Hin Hv.
        destruct (decide ((i', j', k') ∈ l)) as [Hl|Hl]; [now apply Hset|].
        apply elem_of_cons in Hin as [[= -> -> ->]|Hin]; [|contradiction].
        rewrite Hout by exact Hl. simpl. rewrite updCells_eq. congruence.
      * intros i' j' k' Hin Hv.
        assert (Hne : (i', j', k') ≠ (i, j, k)) by (intros [= -> -> ->]; congruence).
        apply elem_of_cons in Hin as [Hin|Hin]; [contradiction|].
        rewrite Hskip by assumption. simpl. now apply updCells_ne.
      * intros i' j' k' Hin. apply not_elem_of_cons in Hin as [Hne Hin].
        rewrite Hout by exact Hin. simpl. now apply updCells_ne.
    + (* the step skips the sample *)
      destruct (IH a) as (a' & Hrun & Hsz & Hset & Hskip & Hout).
      { intros i' j' k' Hin. apply Hok. now right. }
      exists a'. simpl. rewrite Hstep. simpl.
      split; [exact Hrun|]. split; [exact Hsz|].
      split; [|split].
      * intros i' j' k' y Hin Hv.
        assert (Hne : (i', j', k') ≠ (i, j, k)) by (intros [= -> -> ->]; congruence).
        apply elem_of_cons in Hin as [Hin|Hin]; [contradiction|].
        now apply Hset.
      * intros i' j' k' Hin Hv.
        destruct (decide ((i', j', k') ∈ l)) as [Hl|Hl]; [now apply Hskip|].
        now apply Hout.
      * intros i' j' k' Hin. apply not_elem_of_cons in Hin as [Hne Hin].
        now apply Hout.
Qed.

(** The same loop over any list [l] that enumerates the index set of an
    extent [s], in whatever order and with or without repetitions, from
    a state that holds [g] at [source] and [d] at [dest]: the samples
    are independent of each other, which is what lets the source run
    the loop in parallel. *)
Lemma viewLoop_any_order (s : Vector3UZ) (l : list Index3) (st : State G) :
  (∀ i j k, (i, j, k) ∈ l ↔ inBounds s i j k = true) →
  grids st !! source = Some g →
  grids st !! dest = Some d →
  _markers st = M →
  (∀ i j k, inBounds s i j k = true →
     ∃ ov, val i j k = Some ov ∧
           (is_Some ov → inBounds (size3 (viewOf view d)) i j k = true)) →
  ∃ a',
    forEach l step st
      = Some (mkState (<[dest := withView view d a']> (grids st)) M) ∧
    size3 a' = size3 (viewOf view d) ∧
    (∀ i j k x, inBounds s i j k = true → val i j k = Some (Some x) →
                cells a' i j k = x) ∧
    (∀ i j k, inBounds s i j k = true → val i j k = Some None →
              cells a' i j k = cells (viewOf view d) i j k) ∧
    (∀ i j k, inBounds s i j k = false →
              cells a' i j k = cells (viewOf view d) i j k).
Proof.
  intros Hl Hsrc Hdst HM Hok.
  destruct (viewLoop_from (grids st) l Hsrc (viewOf view d))
    as (a' & Hrun & Hsz & Hset & Hskip & Hout).
  { intros i j k Hin. apply Hok. now apply Hl. }
  exists a'.
  rewrite with_view, (insert_id _ _ _ Hdst) in Hrun.
  destruct st as [gs ms]. simpl in *. subst ms.
  split; [exact Hrun|]. split; [exact Hsz|].
  split; [|split].
  - intros i j k x Hb. apply Hset. now apply Hl.
  - intros i j k Hb. apply Hskip. now apply Hl.
  - intros i j k Hb. apply Hout. rewrite Hl. congruence.
Qed.

(** The loop in the index order of [forEachIndex]. *)
Lemma viewLoop (s : Vector3UZ) (st : State G) :
  grids st !! source = Some g →
  grids st !! dest = Some d →
  _markers st = M →
  (∀ i j k, inBounds s i j k = true →
     ∃ ov, val i j k = Some ov ∧
           (is_Some ov → inBounds (size3 (viewOf view d)) i j k = true)) →
  ∃ a',
    forEachIndex s step st
      = Some (mkState (<[dest := withView view d a']> (grids st)) M) ∧
    size3 a' = size3 (viewOf view d) ∧
    (∀ i j k x, inBounds s i j k = true → val i j k = Some (Some x) →
                cells a' i j k = x) ∧
    (∀ i j k, inBounds s i j k = true → val i j k = Some None →
              cells a' i j k = cells (viewOf view d) i j k) ∧
    (∀ i j k, inBounds s i j k = false →
              cells a' i j k = cells (viewOf view d) i j k).
Proof.
  unfold forEachIndex. apply viewLoop_any_order.
  intros i j k. apply elem_of_indices.
Qed.
End ViewLoop.

(** ** laplacian *)

Section LaplacianFacts.
Context {T : Type} `{Quantity T}.
Local Open Scope quantity_scope.

Lemma fluidDifference_inside (marker : Array3 Z) (data : Array3 T)
  (inGrid : bool) (i j k : nat) (f : T → T) :
  (inGrid = true → inBounds (size3 marker) i j k = true ∧
                   inBounds (size3 data) i j k = true) →
  fluidDifference inGrid (getAt marker i j k)
    (n ← getAt data i j k; Some (f n))
  = Some (fluidDiffAt marker inGrid i j k (f (cells data i j k))).
Proof.
  intros Hin. unfold fluidDifference, fluidDiffAt.
  destruct inGrid; [|reflexivity].
  destruct Hin as [Hm Hd]; [reflexivity|].
  rewrite (getAt_Some marker), (getAt_Some data) by assumption. simpl.
  now destruct (cells marker i j k =? kFluid)%Z.
Qed.

Lemma laplacian_inside (data : Array3 T) (marker : Array3 Z)
  (h : Vector3D) (i j k : nat) :
  inBounds (size3 data) i j k = true →
  size3 marker = size3 data →
  laplacian data marker h i j k = Some (laplacianAt data marker h i j k).
Proof.
  intros Hb Hsz. unfold laplacian, laplacianAt.
  rewrite (getAt_Some data i j k) by exact Hb. simpl.
  apply inBounds_spec in Hb as (Hi & Hj & Hk).
  rewrite (fluidDifference_inside marker data _ (i - 1) j k
             (λ n, cells data i j k ⊖ n)); simpl.
  2:{ rewrite Hsz, inBounds_spec, Nat.ltb_lt. lia. }
  rewrite (fluidDifference_inside marker data _ (i + 1) j k
             (λ n, n ⊖ cells data i j k)); simpl.
  2:{ rewrite Hsz, inBounds_spec, Nat.ltb_lt. lia. }
  rewrite (fluidDifference_inside marker data _ i (j - 1) k
             (λ n, cells data i j k ⊖ n)); simpl.
  2:{ rewrite Hsz, inBounds_spec, Nat.ltb_lt. lia. }
  rewrite (fluidDifference_inside marker data _ i (j + 1) k
             (λ n, n ⊖ cells data i j k)); simpl.
  2:{ rewrite Hsz, inBounds_spec, Nat.ltb_lt. lia. }
  rewrite (fluidDifference_inside marker data _ i j (k - 1)
             (λ n, cells data i j k ⊖ n)); simpl.
  2:{ rewrite Hsz, inBounds_spec, Nat.ltb_lt. lia. }
  rewrite (fluidDifference_inside marker data _ i j (k + 1)
             (λ n, n ⊖ cells data i j k)); simpl.
  2:{ rewrite Hsz, inBounds_spec, Nat.ltb_lt. lia. }
  reflexivity.
Qed.

(** ** solve on scalar and collocated vector grids *)

Lemma solveSample_eq source c dt dest h (g : Grid T) (M : Array3 Z)
  i j k (st : State (Grid T)) :
  grids st !! source = Some g → _markers st = M →
  solveSample source c dt dest h i j k st =
    (ov ← sampleUpdate g M c dt h i j k;
     match ov with
     | Some x => writeView dataView dest i j k x st
     | None => Some st
     end).
Proof.
  intros Hsrc HM. unfold solveSample, sampleUpdate.
  rewrite Hsrc, HM. simpl.
  destruct (getAt M i j k) as [m|]; [simpl|reflexivity].
  destruct (m =? kFluid)%Z.
  - destruct (getAt (data g) i j k) as [s|]; [simpl|reflexivity].
    now destruct (laplacian (data g) M h i j k).
  - now destruct (getAt (data g) i j k).
Qed.

Lemma sampleUpdate_inside (g : Grid T) (M : Array3 Z) c dt i j k :
  inBounds (dataSize g) i j k = true →
  size3 M = dataSize g →
  sampleUpdate g M c dt (gridSpacing g) i j k
  = Some (Some (updatedValue g M c dt i j k)).
Proof.
  intros Hb Hsz. unfold sampleUpdate, updatedValue.
  rewrite (getAt_Some M i j k) by now rewrite Hsz. simpl.
  rewrite (getAt_Some (data g) i j k) by exact Hb.
  rewrite laplacian_inside by assumption.
  now destruct (cells M i j k =? kFluid)%Z.
Qed.

(** [solve] with a destination that is not the source object and is
    large enough: it returns, the markers are those of [buildMarkers],
    and every sample in the range of the source holds its updated
    value. *)
Lemma solve_separate (st : State (Grid T)) source dest (g d : Grid T)
  c dt boundarySdf fluidSdf :
  grids st !! source = Some g →
  grids st !! dest = Some d →
  source ≠ dest →
  collocated g →
  fitsIn (dataSize g) (dataSize d) →
  ∃ M a',
    solve source c dt dest boundarySdf fluidSdf st
      = Some (mkState (<[dest := withData d a']> (grids st)) M) ∧
    size3 M = resolution g ∧
    (∀ i j k, inBounds (resolution g) i j k = true →
       cells M i j k = markerAt boundarySdf fluidSdf (dataPosition g i j k)) ∧
    size3 a' = dataSize d ∧
    (∀ i j k, inBounds (dataSize g) i j k = true →
       cells a' i j k = updatedValue g M c dt i j k) ∧
    (∀ i j k, inBounds (dataSize g) i j k = false →
       cells a' i j k = cells (data d) i j k).
Proof.
  intros Hsrc Hdst Hne Hcol Hfit.
  destruct (buildMarkers_spec (resolution g) (dataPosition g)
              boundarySdf fluidSdf (_markers st)) as (M & HbM & HszM & HM).
  unfold solve, rebuildMarkers. rewrite Hsrc. simpl. rewrite HbM. simpl.
  destruct (viewLoop dataView source dest g d M
              (solveSample source c dt dest (gridSpacing g))
              (sampleUpdate g M c dt (gridSpacing g))
              (λ i j k st, solveSample_eq source c dt dest (gridSpacing g)
                             g M i j k st)
              Hne (dataSize g) (mkState (grids st) M))
    as (a' & Hrun & Hsz & Hset & _ & Hout); try assumption; try reflexivity.
  { intros i j k Hb. eexists. split.
    - apply sampleUpdate_inside; [exact Hb|]. now rewrite HszM, Hcol.
    - intros _. apply inBounds_spec in Hb. apply inBounds_spec.
      unfold fitsIn in Hfit. simpl. unfold dataSize in *. lia. }
  exists M, a'. split; [exact Hrun|]. split; [exact HszM|].
  split; [exact HM|]. split; [exact Hsz|]. split; [|exact Hout].
  intros i j k Hb. apply Hset; [exact Hb|].
  apply sampleUpdate_inside; [exact Hb|]. now rewrite HszM, Hcol.
Qed.
(** The loop of [solve] run over the data points in any order leaves the
    same values in the destination as the run in index order. *)
Lemma solve_loop_any_order (st : State (Grid T)) source dest (g d : Grid T)
  c dt (l : list Index3) :
  (∀ i j k, (i, j, k) ∈ l ↔ inBounds (dataSize g) i j k = true) →
  grids st !! source = Some g →
  grids st !! dest = Some d →
  source ≠ dest →
  size3 (_markers st) = dataSize g →
  fitsIn (dataSize g) (dataSize d) →
  ∃ a',
    forEach l (solveSample source c dt dest (gridSpacing g)) st
      = Some (mkState (<[dest := withData d a']> (grids st)) (_markers st)) ∧
    size3 a' = dataSize d ∧
    (∀ i j k, inBounds (dataSize g) i j k = true →
       cells a' i j k = updatedValue g (_markers st) c dt i j k) ∧
    (∀ i j k, inBounds (dataSize g) i j k = false →
       cells a' i j k = cells (data d) i j k).
Proof.
  intros Hl Hsrc Hdst Hne HszM Hfit.
  destruct (viewLoop_any_order dataView source dest g d (_markers st)
              (solveSample source c dt dest (gridSpacing g))
              (sampleUpdate g (_markers st) c dt (gridSpacing g))
              (λ i j k st', solveSample_eq source c dt dest (gridSpacing g)
                              g (_markers st) i j k st')
              Hne (dataSize g) l st Hl Hsrc Hdst eq_refl)
    as (a' & Hrun & Hsz & Hset & _ & Hout).
  { intros i j k Hb. eexists. split.
    - now apply sampleUpdate_inside.
    - intros _. apply inBounds_spec in Hb. apply inBounds_spec.
      unfold fitsIn in Hfit. simpl. unfold dataSize in *. lia. }
  exists a'. split; [exact Hrun|]. split; [exact Hsz|].
  split; [|exact Hout].
  intros i j k Hb. apply Hset; [exact Hb|]. now apply sampleUpdate_inside.
Qed.
End LaplacianFacts.

(** ** The Laplacian of the source against the specification's *)

Lemma fluidDiffAt_above (data : Array3 Q) (marker : Array3 Z) (b : bool)
  (c : Q) (i j k : nat) :
  size3 marker = size3 data →
  b = inBounds (size3 data) i j k →
  fluidDiffAt marker b i j k (cells data i j k - c)
  = neighborDifference data marker c (Some (i, j, k)).
Proof.
  intros Hsz ->. unfold fluidDiffAt, neighborDifference, getAt.
  rewrite Hsz. now destruct (inBounds (size3 data) i j k).
Qed.

Lemma fluidDiffAt_below (data : Array3 Q) (marker : Array3 Z) (b : bool)
  (c : Q) (i j k : nat) :
  size3 marker = size3 data →
  b = inBounds (size3 data) i j k →
  fluidDiffAt marker b i j k (c - cells data i j k)
  == - neighborDifference data marker c (Some (i, j, k)).
Proof.
  intros Hsz ->. unfold fluidDiffAt, neighborDifference, getAt.
  rewrite Hsz. destruct (inBounds (size3 data) i j k); simpl; [|reflexivity].
  destruct (cells marker i j k =? kFluid)%Z; simpl; ring.
Qed.

Lemma axis_combine (dr dl p m h2 : Q) :
  dr = p → dl == - m → (dr - dl) / h2 == (p + m) / h2.
Proof. intros -> Hl. rewrite Hl. unfold Qdiv. ring. Qed.

Lemma laplacianAt_spec (data : Array3 Q) (marker : Array3 Z) (h : Vector3D)
  (i j k : nat) :
  inBounds (size3 data) i j k = true →
  size3 marker = size3 data →
  laplacianAt data marker h i j k == specLaplacian data marker h i j k.
Proof.
  intros Hb Hsz. apply inBounds_spec in Hb as (Hi & Hj & Hk).
  assert (Hlt : ∀ a b : nat, (a < b)%nat → (a <? b)%nat = true)
    by (intros; now apply Nat.ltb_lt).
  unfold laplacianAt, specLaplacian, axisTerm. simpl.
  repeat apply Qplus_comp.
  - apply axis_combine.
    + apply fluidDiffAt_above; [exact Hsz|].
      unfold inBounds. now rewrite (Hlt j), (Hlt k), !andb_true_r.
    + destruct i as [|i']; [reflexivity|].
      simpl. rewrite Nat.sub_0_r.
      apply fluidDiffAt_below; [exact Hsz|].
      unfold inBounds. rewrite (Hlt i'), (Hlt j), (Hlt k) by lia. reflexivity.
  - apply axis_combine.
    + apply fluidDiffAt_above; [exact Hsz|].
      unfold inBounds. now rewrite (Hlt i), (Hlt k), !andb_true_r.
    + destruct j as [|j']; [reflexivity|].
      simpl. rewrite Nat.sub_0_r.
      apply fluidDiffAt_below; [exact Hsz|].
      unfold inBounds. rewrite (Hlt i), (Hlt j'), (Hlt k) by lia. reflexivity.
  - apply axis_combine.
    + apply fluidDiffAt_above; [exact Hsz|].
      unfold inBounds. now rewrite (Hlt i), (Hlt j).
    + destruct k as [|k']; [reflexivity|].
      simpl. rewrite Nat.sub_0_r.
      apply fluidDiffAt_below; [exact Hsz|].
      unfold inBounds. rewrite (Hlt i), (Hlt j), (Hlt k') by lia. reflexivity.
Qed.

(** ** The claims on the scalar overload *)

(** C2. At every index of the marker array [buildMarkers] produces: a
    non-positive boundary SDF at the sample position gives Boundary;
    otherwise a non-positive fluid SDF gives Fluid; otherwise the marker
    is Air.  Boundary has precedence, and a value of exactly zero counts
    as inside. *)
Theorem buildMarkers_classifies size pos (boundarySdf fluidSdf : ScalarField3)
  m0 i j k :
  inBounds size i j k = true →
  ∃ m, buildMarkers size pos boundarySdf fluidSdf m0 = Some m ∧
       size3 m = size ∧
       (boundarySdf (pos i j k) <= 0 → getAt m i j k = Some kBoundary) ∧
       (¬ boundarySdf (pos i j k) <= 0 → fluidSdf (pos i j k) <= 0 →
        getAt m i j k = Some kFluid) ∧
       (¬ boundarySdf (pos i j k) <= 0 → ¬ fluidSdf (pos i j k) <= 0 →
        getAt m i j k = Some kAir).
Proof.
  intros Hb.
  destruct (buildMarkers_spec size pos boundarySdf fluidSdf m0)
    as (m & Hrun & Hsz & Hm).
  exists m. split; [exact Hrun|]. split; [exact Hsz|].
  rewrite getAt_Some by now rewrite Hsz.
  rewrite (Hm i j k Hb). unfold markerAt, isInsideSdf.
  split; [|split].
  - intros Hle. apply Qle_bool_iff in Hle. now rewrite Hle.
  - intros Hnb Hf.
    destruct (Qle_bool (boundarySdf (pos i j k)) 0) eqn:Eb.
    + apply Qle_bool_iff in Eb. contradiction.
    + apply Qle_bool_iff in Hf. now rewrite Hf.
  - intros Hnb Hnf.
    destruct (Qle_bool (boundarySdf (pos i j k)) 0) eqn:Eb.
    + apply Qle_bool_iff in Eb. contradiction.
    + destruct (Qle_bool (fluidSdf (pos i j k)) 0) eqn:Ef; [|reflexivity].
      apply Qle_bool_iff in Ef. contradiction.
Qed.

Lemma buildMarkers_classifies_witness :
  ∃ m, buildMarkers (mkVector3UZ 2 1 1) unitPosition
         (λ p, vx p - 1) (constantField 0) noMarkers = Some m ∧
       size3 m = mkVector3UZ 2 1 1 ∧
       (vx (unitPosition 1 0 0) - 1 <= 0 → getAt m 1 0 0 = Some kBoundary) ∧
       (¬ vx (unitPosition 1 0 0) - 1 <= 0 → constantField 0 (unitPosition 1 0 0) <= 0 →
        getAt m 1 0 0 = Some kFluid) ∧
       (¬ vx (unitPosition 1 0 0) - 1 <= 0 → ¬ constantField 0 (unitPosition 1 0 0) <= 0 →
        getAt m 1 0 0 = Some kAir).
Proof.
  apply (buildMarkers_classifies (mkVector3UZ 2 1 1) unitPosition
           (λ p, vx p - 1) (constantField 0) noMarkers 1 0 0).
  reflexivity.
Defined.

(** C1. Scalar overload: at every sample whose marker is Fluid, the
    destination holds source + diffusionCoefficient * dt * L, with L the
    Laplacian of the specification: per axis, the neighbor differences
    that count only for neighbors inside the grid and marked Fluid,
    divided by the square of the spacing of the axis. *)
Theorem solve_scalar_fluid_sample (st : State ScalarGrid3) source dest
  (g d : ScalarGrid3) diffusionCoefficient dt boundarySdf fluidSdf :
  grids st !! source = Some g →
  grids st !! dest = Some d →
  source ≠ dest →
  collocated g →
  fitsIn (dataSize g) (dataSize d) →
  ∃ st' d',
    solve_scalar source diffusionCoefficient dt dest boundarySdf fluidSdf st
      = Some st' ∧
    grids st' !! dest = Some d' ∧
    ∀ i j k,
      inBounds (dataSize g) i j k = true →
      getAt (_markers st') i j k = Some kFluid →
      ∃ s v,
        getAt (data g) i j k = Some s ∧
        getAt (data d') i j k = Some v ∧
        v == s + diffusionCoefficient * dt
                 * specLaplacian (data g) (_markers st') (gridSpacing g) i j k.
Proof.
  intros Hsrc Hdst Hne Hcol Hfit.
  destruct (solve_separate st source dest g d diffusionCoefficient dt
              boundarySdf fluidSdf Hsrc Hdst Hne Hcol Hfit)
    as (M & a' & Hrun & HszM & HM & Hsz & Hin & Hout).
  eexists _, (withData d a'). split; [exact Hrun|].
  split; [simpl; apply lookup_insert_eq|].
  intros i j k Hb Hfl. simpl in *.
  apply getAt_inv in Hfl as [_ Hfl].
  exists (cells (data g) i j k), (cells a' i j k).
  split; [now apply getAt_Some|]. split.
  - apply getAt_Some. rewrite Hsz.
    apply inBounds_spec in Hb. apply inBounds_spec.
    unfold fitsIn, dataSize in *. lia.
  - rewrite (Hin i j k Hb).
    assert (E : updatedValue g M diffusionCoefficient dt i j k
                = cells (data g) i j k
                  + diffusionCoefficient * dt
                    * laplacianAt (data g) M (gridSpacing g) i j k)
      by (unfold updatedValue; now rewrite <- Hfl).
    rewrite E. apply Qplus_comp; [reflexivity|].
    apply Qmult_comp; [reflexivity|].
    apply laplacianAt_spec; [exact Hb|]. now rewrite HszM, <- Hcol.
Qed.

Lemma solve_scalar_fluid_sample_witness :
  ∃ st' d',
    solve_scalar 0%nat (1 # 10) (49 # 10) 1%nat
      (constantField 1) (constantField (-1)) rampState = Some st' ∧
    grids st' !! 1%nat = Some d' ∧
    ∀ i j k,
      inBounds (mkVector3UZ 2 1 1) i j k = true →
      getAt (_markers st') i j k = Some kFluid →
      ∃ s v,
        getAt (rampData (mkVector3UZ 2 1 1)) i j k = Some s ∧
        getAt (data d') i j k = Some v ∧
        v == s + (1 # 10) * (49 # 10)
                 * specLaplacian (rampData (mkVector3UZ 2 1 1)) (_markers st')
                     unitSpacing i j k.
Proof.
  apply (solve_scalar_fluid_sample rampState 0%nat 1%nat
           (scalarGrid (rampData (mkVector3UZ 2 1 1)))
           (scalarGrid (constantData (mkVector3UZ 2 1 1) 0))
           (1 # 10) (49 # 10) (constantField 1) (constantField (-1))).
  - reflexivity.
  - reflexivity.
  - lia.
  - reflexivity.
  - unfold fitsIn. simpl. lia.
Defined.

(** ** The passes of the face-centered overload *)

Lemma laplacian3_inside (data : Array3 Q) (h : Vector3D) (i j k : nat) :
  inBounds (size3 data) i j k = true →
  laplacian3 data h i j k = Some (laplacian3At data h i j k).
Proof.
  intros Hb. unfold laplacian3, laplacian3At.
  rewrite (getAt_Some data i j k) by exact Hb. simpl.
  apply inBounds_spec in Hb as (Hi & Hj & Hk).
  assert (Hget : ∀ (b : bool) i' j' k' (f : Q → Q),
            (b = true → inBounds (size3 data) i' j' k' = true) →
            (if b then n ← getAt data i' j' k'; Some (f n) else Some 0)
            = Some (if b then f (cells data i' j' k') else 0)).
  { intros [|] i' j' k' f Hin; [|reflexivity].
    now rewrite getAt_Some by now apply Hin. }
  rewrite (Hget _ (i - 1)%nat j k (λ n, cells data i j k - n)); simpl.
  2:{ rewrite inBounds_spec, Nat.ltb_lt. lia. }
  rewrite (Hget _ (i + 1)%nat j k (λ n, n - cells data i j k)); simpl.
  2:{ rewrite inBounds_spec, Nat.ltb_lt. lia. }
  rewrite (Hget _ i (j - 1)%nat k (λ n, cells data i j k - n)); simpl.
  2:{ rewrite inBounds_spec, Nat.ltb_lt. lia. }
  rewrite (Hget _ i (j + 1)%nat k (λ n, n - cells data i j k)); simpl.
  2:{ rewrite inBounds_spec, Nat.ltb_lt. lia. }
  rewrite (Hget _ i j (k - 1)%nat (λ n, cells data i j k - n)); simpl.
  2:{ rewrite inBounds_spec, Nat.ltb_lt. lia. }
  rewrite (Hget _ i j (k + 1)%nat (λ n, n - cells data i j k)); simpl.
  2:{ rewrite inBounds_spec, Nat.ltb_lt. lia. }
  reflexivity.
Qed.

Lemma solveFaceSample_eq view pos source c dt dest boundarySdf h
  (g : FaceCenteredGrid3) (M : Array3 Z) i j k (st : State FaceCenteredGrid3) :
  grids st !! source = Some g → _markers st = M →
  solveFaceSample view pos source c dt dest boundarySdf h i j k st =
    (ov ← faceUpdate view pos g c dt boundarySdf h i j k;
     match ov with
     | Some x => writeView view dest i j k x st
     | None => Some st
     end).
Proof.
  intros Hsrc _. unfold solveFaceSample, faceUpdate.
  destruct (negb (isInsideSdf (boundarySdf (pos i j k)))); [|reflexivity].
  rewrite Hsrc. simpl.
  destruct (getAt (viewOf view g) i j k) as [s|]; [simpl|reflexivity].
  now destruct (laplacian3 (viewOf view g) h i j k).
Qed.

(** One loop of the face-centered overload, over an extent [s] that fits
    in the source and the destination view, with a destination that is
    not the source object. *)
Lemma facePass (view : View FaceCenteredGrid3 Q) `{!ViewLaws view}
  (s : Vector3UZ) pos source dest (g d : FaceCenteredGrid3) c dt
  (boundarySdf : ScalarField3) h (st : State FaceCenteredGrid3) :
  grids st !! source = Some g →
  grids st !! dest = Some d →
  source ≠ dest →
  fitsIn s (size3 (viewOf view g)) →
  fitsIn s (size3 (viewOf view d)) →
  ∃ a',
    forEachIndex s (solveFaceSample view pos source c dt dest boundarySdf h) st
      = Some (mkState (<[dest := withView view d a']> (grids st)) (_markers st)) ∧
    size3 a' = size3 (viewOf view d) ∧
    (∀ i j k, inBounds s i j k = true →
       isInsideSdf (boundarySdf (pos i j k)) = false →
       cells a' i j k = cells (viewOf view g) i j k
                        + c * dt * laplacian3At (viewOf view g) h i j k) ∧
    (∀ i j k, inBounds s i j k = true →
       isInsideSdf (boundarySdf (pos i j k)) = true →
       cells a' i j k = cells (viewOf view d) i j k) ∧
    (∀ i j k, inBounds s i j k = false →
       cells a' i j k = cells (viewOf view d) i j k).
Proof.
  intros Hsrc Hdst Hne Hfg Hfd.
  assert (Hin : ∀ (a : Array3 Q) i j k, fitsIn s (size3 a) →
            inBounds s i j k = true → inBounds (size3 a) i j k = true).
  { intros a i j k Hf Hb. apply inBounds_spec in Hb. apply inBounds_spec.
    unfold fitsIn in Hf. lia. }
  assert (Hval : ∀ i j k, inBounds s i j k = true →
            faceUpdate view pos g c dt boundarySdf h i j k
            = Some (if isInsideSdf (boundarySdf (pos i j k)) then None
                    else Some (cells (viewOf view g) i j k
                               + c * dt * laplacian3At (viewOf view g) h i j k))).
  { intros i j k Hb. unfold faceUpdate.
    destruct (isInsideSdf (boundarySdf (pos i j k))); [reflexivity|]. simpl.
    rewrite getAt_Some by now apply Hin. simpl.
    now rewrite laplacian3_inside by now apply Hin. }
  destruct (viewLoop view source dest g d (_markers st)
              (solveFaceSample view pos source c dt dest boundarySdf h)
              (faceUpdate view pos g c dt boundarySdf h)
              (λ i j k st', solveFaceSample_eq view pos source c dt dest
                              boundarySdf h g (_markers st) i j k st')
              Hne s st Hsrc Hdst eq_refl)
    as (a' & Hrun & Hsz & Hset & Hskip & Hout).
  { intros i j k Hb. eexists. split; [now apply Hval|].
    intros _. now apply Hin. }
  exists a'. split; [exact Hrun|]. split; [exact Hsz|].
  split; [|split; [|exact Hout]].
  - intros i j k Hb Hout'. apply Hset; [exact Hb|].
    rewrite Hval by exact Hb. now rewrite Hout'.
  - intros i j k Hb Hins. apply Hskip; [exact Hb|].
    rewrite Hval by exact Hb. now rewrite Hins.
Qed.

Lemma solveU_separate (st : State FaceCenteredGrid3) source dest
  (g d : FaceCenteredGrid3) c dt boundarySdf fluidSdf :
  grids st !! source = Some g →
  grids st !! dest = Some d →
  source ≠ dest →
  fitsIn (uSize g) (uSize d) →
  ∃ M a',
    solveU source c dt dest boundarySdf fluidSdf st
      = Some (mkState (<[dest := withU d a']> (grids st)) M) ∧
    size3 M = uSize g ∧
    (∀ i j k, inBounds (uSize g) i j k = true →
       cells M i j k = markerAt boundarySdf fluidSdf (uPosition g i j k)) ∧
    size3 a' = uSize d ∧
    (∀ i j k, inBounds (uSize g) i j k = true →
       isInsideSdf (boundarySdf (uPosition g i j k)) = false →
       cells a' i j k = cells (uData g) i j k
                        + c * dt * laplacian3At (uData g) (faceGridSpacing g) i j k) ∧
    (∀ i j k, inBounds (uSize g) i j k = true →
       isInsideSdf (boundarySdf (uPosition g i j k)) = true →
       cells a' i j k = cells (uData d) i j k) ∧
    (∀ i j k, inBounds (uSize g) i j k = false →
       cells a' i j k = cells (uData d) i j k).
Proof.
  intros Hsrc Hdst Hne Hfit.
  destruct (buildMarkers_spec (uSize g) (uPosition g) boundarySdf fluidSdf
              (_markers st)) as (M & HbM & HszM & HM).
  unfold solveU, rebuildMarkers. rewrite Hsrc. simpl. rewrite HbM. simpl.
  destruct (facePass uView (uSize g) (uPosition g) source dest g d c dt
              boundarySdf (faceGridSpacing g) (mkState (grids st) M))
    as (a' & Hrun & Hsz & Hset & Hskip & Hout);
    try assumption; try exact Hfit;
    try (unfold fitsIn, uSize, vSize; simpl; lia).
  exists M, a'. repeat split; assumption.
Qed.

Lemma solveV_separate (st : State FaceCenteredGrid3) source dest
  (g d : FaceCenteredGrid3) c dt boundarySdf fluidSdf :
  grids st !! source = Some g →
  grids st !! dest = Some d →
  source ≠ dest →
  fitsIn (vSize g) (vSize d) →
  ∃ M a',
    solveV source c dt dest boundarySdf fluidSdf st
      = Some (mkState (<[dest := withV d a']> (grids st)) M) ∧
    size3 M = vSize g ∧
    (∀ i j k, inBounds (vSize g) i j k = true →
       cells M i j k = markerAt boundarySdf fluidSdf (vPosition g i j k)) ∧
    size3 a' = vSize d ∧
    (∀ i j k, inBounds (vSize g) i j k = true →
       isInsideSdf (boundarySdf (vPosition g i j k)) = false →
       cells a' i j k = cells (vData g) i j k
                        + c * dt * laplacian3At (vData g) (faceGridSpacing g) i j k) ∧
    (∀ i j k, inBounds (vSize g) i j k = true →
       isInsideSdf (boundarySdf (vPosition g i j k)) = true →
       cells a' i j k = cells (vData d) i j k) ∧
    (∀ i j k, inBounds (vSize g) i j k = false →
       cells a' i j k = cells (vData d) i j k).
Proof.
  intros Hsrc Hdst Hne Hfit.
  destruct (buildMarkers_spec (vSize g) (vPosition g) boundarySdf fluidSdf
              (_markers st)) as (M & HbM & HszM & HM).
  unfold solveV, rebuildMarkers. rewrite Hsrc. simpl. rewrite HbM. simpl.
  destruct (facePass vView (vSize g) (vPosition g) source dest g d c dt
              boundarySdf (faceGridSpacing g) (mkState (grids st) M))
    as (a' & Hrun & Hsz & Hset & Hskip & Hout);
    try assumption; try exact Hfit;
    try (unfold fitsIn, uSize, vSize; simpl; lia).
  exists M, a'. repeat split; assumption.
Qed.

(** ** The claims on the face-centered overload *)

Lemma getAt_ext {T} (a b : Array3 T) i j k :
  size3 a = size3 b → cells a i j k = cells b i j k →
  getAt a i j k = getAt b i j k.
Proof. intros Hs Hc. unfold getAt. now rewrite Hs, Hc. Qed.

(** C3, as amended.  In the face-centered overload the u pass and then
    the v pass each return and update only their own component, over
    that component's own index set: a sample whose position is inside
    the boundary SDF keeps the value the destination had, and every
    other sample receives source + diffusionCoefficient * dt * L, with L
    the plain central-difference Laplacian [laplacian3] of the source
    component, in which the markers play no part. *)
Theorem solve_face_u_v_passes (st : State FaceCenteredGrid3) source dest
  (g d : FaceCenteredGrid3) diffusionCoefficient dt boundarySdf fluidSdf :
  grids st !! source = Some g →
  grids st !! dest = Some d →
  source ≠ dest →
  fitsIn (uSize g) (uSize d) →
  fitsIn (vSize g) (vSize d) →
  ∃ st1 d1 st2 d2,
    solveU source diffusionCoefficient dt dest boundarySdf fluidSdf st
      = Some st1 ∧
    grids st1 !! dest = Some d1 ∧
    solveV source diffusionCoefficient dt dest boundarySdf fluidSdf st1
      = Some st2 ∧
    grids st2 !! dest = Some d2 ∧
    vData d1 = vData d ∧ wData d1 = wData d ∧
    uData d2 = uData d1 ∧ wData d2 = wData d ∧
    (∀ i j k, inBounds (uSize g) i j k = true →
       if isInsideSdf (boundarySdf (uPosition g i j k))
       then getAt (uData d2) i j k = getAt (uData d) i j k
       else ∃ s l,
              getAt (uData g) i j k = Some s ∧
              laplacian3 (uData g) (faceGridSpacing g) i j k = Some l ∧
              getAt (uData d2) i j k
              = Some (s + diffusionCoefficient * dt * l)) ∧
    (∀ i j k, inBounds (vSize g) i j k = true →
       if isInsideSdf (boundarySdf (vPosition g i j k))
       then getAt (vData d2) i j k = getAt (vData d) i j k
       else ∃ s l,
              getAt (vData g) i j k = Some s ∧
              laplacian3 (vData g) (faceGridSpacing g) i j k = Some l ∧
              getAt (vData d2) i j k
              = Some (s + diffusionCoefficient * dt * l)).
Proof.
  intros Hsrc Hdst Hne Hfu Hfv.
  destruct (solveU_separate st source dest g d diffusionCoefficient dt
              boundarySdf fluidSdf Hsrc Hdst Hne Hfu)
    as (M1 & a1 & Hrun1 & _ & _ & Hsz1 & Hset1 & Hskip1 & _).
  set (st1 := mkState (<[dest := withU d a1]> (grids st)) M1) in *.
  assert (Hsrc1 : grids st1 !! source = Some g)
    by (simpl; now rewrite lookup_insert_ne).
  assert (Hdst1 : grids st1 !! dest = Some (withU d a1))
    by (simpl; apply lookup_insert_eq).
  destruct (solveV_separate st1 source dest g (withU d a1)
              diffusionCoefficient dt boundarySdf fluidSdf Hsrc1 Hdst1 Hne Hfv)
    as (M2 & a2 & Hrun2 & _ & _ & Hsz2 & Hset2 & Hskip2 & _).
  exists st1, (withU d a1),
    (mkState (<[dest := withV (withU d a1) a2]> (grids st1)) M2),
    (withV (withU d a1) a2).
  split; [exact Hrun1|]. split; [exact Hdst1|]. split; [exact Hrun2|].
  split; [simpl; apply lookup_insert_eq|].
  repeat (split; [reflexivity|]). simpl. split.
  - intros i j k Hb.
    destruct (isInsideSdf (boundarySdf (uPosition g i j k))) eqn:Hins.
    + apply getAt_ext; [exact Hsz1|]. now apply Hskip1.
    + exists (cells (uData g) i j k),
             (laplacian3At (uData g) (faceGridSpacing g) i j k).
      split; [now apply getAt_Some|]. split; [now apply laplacian3_inside|].
      rewrite <- (Hset1 i j k Hb Hins). apply getAt_Some. rewrite Hsz1.
      apply inBounds_spec in Hb. apply inBounds_spec.
      unfold fitsIn in Hfu. lia.
  - intros i j k Hb.
    destruct (isInsideSdf (boundarySdf (vPosition g i j k))) eqn:Hins.
    + apply getAt_ext; [exact Hsz2|]. now apply Hskip2.
    + exists (cells (vData g) i j k),
             (laplacian3At (vData g) (faceGridSpacing g) i j k).
      split; [now apply getAt_Some|]. split; [now apply laplacian3_inside|].
      rewrite <- (Hset2 i j k Hb Hins). apply getAt_Some. rewrite Hsz2.
      apply inBounds_spec in Hb. apply inBounds_spec.
      unfold fitsIn in Hfv. simpl. unfold vSize in *. simpl in *. lia.
Qed.

Lemma solve_face_u_v_passes_witness :
  ∃ st1 d1 st2 d2,
    solveU 0%nat (1 # 4) 1 1%nat (constantField 1) leftHalfFluid oneCellState
      = Some st1 ∧
    grids st1 !! 1%nat = Some d1 ∧
    solveV 0%nat (1 # 4) 1 1%nat (constantField 1) leftHalfFluid st1
      = Some st2 ∧
    grids st2 !! 1%nat = Some d2 ∧
    vData d1 = vData oneCellDest ∧ wData d1 = wData oneCellDest ∧
    uData d2 = uData d1 ∧ wData d2 = wData oneCellDest ∧
    (∀ i j k, inBounds (uSize oneCellSource) i j k = true →
       if isInsideSdf (constantField 1 (uPosition oneCellSource i j k))
       then getAt (uData d2) i j k = getAt (uData oneCellDest) i j k
       else ∃ s l,
              getAt (uData oneCellSource) i j k = Some s ∧
              laplacian3 (uData oneCellSource)
                (faceGridSpacing oneCellSource) i j k = Some l ∧
              getAt (uData d2) i j k = Some (s + (1 # 4) * 1 * l)) ∧
    (∀ i j k, inBounds (vSize oneCellSource) i j k = true →
       if isInsideSdf (constantField 1 (vPosition oneCellSource i j k))
       then getAt (vData d2) i j k = getAt (vData oneCellDest) i j k
       else ∃ s l,
              getAt (vData oneCellSource) i j k = Some s ∧
              laplacian3 (vData oneCellSource)
                (faceGridSpacing oneCellSource) i j k = Some l ∧
              getAt (vData d2) i j k = Some (s + (1 # 4) * 1 * l)).
Proof.
  apply (solve_face_u_v_passes oneCellState 0%nat 1%nat oneCellSource
           oneCellDest (1 # 4) 1 (constantField 1) leftHalfFluid).
  - reflexivity.
  - reflexivity.
  - lia.
  - unfold fitsIn. simpl. lia.
  - unfold fitsIn. simpl. lia.
Defined.

(** C3 as stated fails: the u pass diffuses a Fluid sample against its
    Air neighbor.  One cell, u = 0 on the left face (Fluid) and 1 on the
    right face (Air), no boundary: a Laplacian of Fluid-to-Fluid
    differences is zero at the left face and would leave it at 0, but
    the pass writes 1/4 there. *)
Lemma solve_face_diffuses_across_markers :
  ∃ st1 d1 v,
    solveU 0%nat (1 # 4) 1 1%nat (constantField 1) leftHalfFluid oneCellState
      = Some st1 ∧
    grids st1 !! 1%nat = Some d1 ∧
    getAt (_markers st1) 0 0 0 = Some kFluid ∧
    getAt (_markers st1) 1 0 0 = Some kAir ∧
    getAt (uData d1) 0 0 0 = Some v ∧
    v == 1 # 4 ∧
    ¬ v == cells (uData oneCellSource) 0 0 0
           + (1 # 4) * 1
             * specLaplacian (uData oneCellSource) (_markers st1)
                 unitSpacing 0 0 0.
Proof.
  eexists _, _, _.
  split; [vm_compute; reflexivity|].
  split; [vm_compute; reflexivity|].
  split; [vm_compute; reflexivity|].
  split; [vm_compute; reflexivity|].
  split; [vm_compute; reflexivity|].
  split; [vm_compute; reflexivity|].
  intros Heq. vm_compute in Heq. discriminate Heq.
Qed.

(** ** Samples that are not Fluid *)

Lemma markerAt_boundary boundarySdf fluidSdf p :
  markerAt boundarySdf fluidSdf p = kBoundary →
  isInsideSdf (boundarySdf p) = true.
Proof.
  unfold markerAt. destruct (isInsideSdf (boundarySdf p)); [reflexivity|].
  destruct (isInsideSdf (fluidSdf p)); discriminate.
Qed.

Lemma markerAt_not_boundary boundarySdf fluidSdf p :
  markerAt boundarySdf fluidSdf p ≠ kBoundary →
  isInsideSdf (boundarySdf p) = false.
Proof.
  unfold markerAt. destruct (isInsideSdf (boundarySdf p)); [|reflexivity].
  intros Hne. now destruct Hne.
Qed.

(** Scalar and collocated vector overloads: a sample whose marker is not
    Fluid receives the source value. *)
Lemma solve_nonfluid_sample {T} `{Quantity T} (st : State (Grid T))
  source dest (g d : Grid T) c dt boundarySdf fluidSdf :
  grids st !! source = Some g →
  grids st !! dest = Some d →
  source ≠ dest →
  collocated g →
  fitsIn (dataSize g) (dataSize d) →
  ∃ st' d',
    solve source c dt dest boundarySdf fluidSdf st = Some st' ∧
    grids st' !! dest = Some d' ∧
    ∀ i j k,
      inBounds (dataSize g) i j k = true →
      getAt (_markers st') i j k = Some kAir ∨
      getAt (_markers st') i j k = Some kBoundary →
      ∃ s, getAt (data g) i j k = Some s ∧ getAt (data d') i j k = Some s.
Proof.
  intros Hsrc Hdst Hne Hcol Hfit.
  destruct (solve_separate st source dest g d c dt boundarySdf fluidSdf
              Hsrc Hdst Hne Hcol Hfit)
    as (M & a' & Hrun & HszM & HM & Hsz & Hin & Hout).
  eexists _, (withData d a'). split; [exact Hrun|].
  split; [simpl; apply lookup_insert_eq|].
  intros i j k Hb Hm. simpl in *.
  exists (cells (data g) i j k). split; [now apply getAt_Some|].
  assert (Hnf : (cells M i j k =? kFluid)%Z = false).
  { destruct Hm as [Hm|Hm]; apply getAt_inv in Hm as [_ Hm];
      rewrite <- Hm; reflexivity. }
  rewrite getAt_Some.
  - f_equal. rewrite (Hin i j k Hb). unfold updatedValue. now rewrite Hnf.
  - rewrite Hsz. apply inBounds_spec in Hb. apply inBounds_spec.
    unfold fitsIn, dataSize in *. lia.
Qed.

(** Face-centered passes, read off the markers of the pass: a Boundary
    sample keeps the value of the destination, an Air sample is
    diffused. *)
Lemma face_marked_samples (M : Array3 Z) (src dst a' : Array3 Q)
  (pos : nat → nat → nat → Vector3D) (boundarySdf fluidSdf : ScalarField3)
  (c dt : Q) (h : Vector3D) :
  size3 M = size3 src →
  (∀ i j k, inBounds (size3 src) i j k = true →
     cells M i j k = markerAt boundarySdf fluidSdf (pos i j k)) →
  size3 a' = size3 dst →
  fitsIn (size3 src) (size3 dst) →
  (∀ i j k, inBounds (size3 src) i j k = true →
     isInsideSdf (boundarySdf (pos i j k)) = false →
     cells a' i j k = cells src i j k + c * dt * laplacian3At src h i j k) →
  (∀ i j k, inBounds (size3 src) i j k = true →
     isInsideSdf (boundarySdf (pos i j k)) = true →
     cells a' i j k = cells dst i j k) →
  ∀ i j k, inBounds (size3 src) i j k = true →
    (getAt M i j k = Some kBoundary → getAt a' i j k = getAt dst i j k) ∧
    (getAt M i j k = Some kAir →
     ∃ s l, getAt src i j k = Some s ∧ laplacian3 src h i j k = Some l ∧
            getAt a' i j k = Some (s + c * dt * l)).
Proof.
  intros HszM HM Hsz Hfit Hset Hskip i j k Hb. split.
  - intros Hm. apply getAt_inv in Hm as [_ Hm].
    apply getAt_ext; [exact Hsz|]. apply Hskip; [exact Hb|].
    apply (markerAt_boundary boundarySdf fluidSdf). now rewrite <- HM.
  - intros Hm. apply getAt_inv in Hm as [_ Hm].
    exists (cells src i j k), (laplacian3At src h i j k).
    split; [now apply getAt_Some|]. split; [now apply laplacian3_inside|].
    rewrite <- Hset; [|exact Hb|].
    + apply getAt_Some. rewrite Hsz.
      apply inBounds_spec in Hb. apply inBounds_spec.
      unfold fitsIn in Hfit. lia.
    + apply (markerAt_not_boundary boundarySdf fluidSdf).
      rewrite <- HM by exact Hb. now rewrite <- Hm.
Qed.

(** C4, as amended.  In the scalar and the collocated vector overload,
    every sample whose marker is Air or Boundary has the source value in
    the destination.  In the face-centered overload (u pass, then v
    pass) a sample marked Boundary is left as the destination had it,
    and a sample marked Air is diffused like any sample outside the
    boundary: it receives source + diffusionCoefficient * dt * L. *)
Theorem nonfluid_samples :
  (∀ (st : State ScalarGrid3) source dest (g d : ScalarGrid3)
     diffusionCoefficient dt boundarySdf fluidSdf,
     grids st !! source = Some g →
     grids st !! dest = Some d →
     source ≠ dest →
     collocated g →
     fitsIn (dataSize g) (dataSize d) →
     ∃ st' d',
       solve_scalar source diffusionCoefficient dt dest boundarySdf fluidSdf st
         = Some st' ∧
       grids st' !! dest = Some d' ∧
       ∀ i j k,
         inBounds (dataSize g) i j k = true →
         getAt (_markers st') i j k = Some kAir ∨
         getAt (_markers st') i j k = Some kBoundary →
         ∃ s, getAt (data g) i j k = Some s ∧ getAt (data d') i j k = Some s) ∧
  (∀ (st : State CollocatedVectorGrid3) source dest
     (g d : CollocatedVectorGrid3)
     diffusionCoefficient dt boundarySdf fluidSdf,
     grids st !! source = Some g →
     grids st !! dest = Some d →
     source ≠ dest →
     collocated g →
     fitsIn (dataSize g) (dataSize d) →
     ∃ st' d',
       solve_collocated source diffusionCoefficient dt dest boundarySdf
         fluidSdf st = Some st' ∧
       grids st' !! dest = Some d' ∧
       ∀ i j k,
         inBounds (dataSize g) i j k = true →
         getAt (_markers st') i j k = Some kAir ∨
         getAt (_markers st') i j k = Some kBoundary →
         ∃ s, getAt (data g) i j k = Some s ∧ getAt (data d') i j k = Some s) ∧
  (∀ (st : State FaceCenteredGrid3) source dest (g d : FaceCenteredGrid3)
     diffusionCoefficient dt boundarySdf fluidSdf,
     grids st !! source = Some g →
     grids st !! dest = Some d →
     source ≠ dest →
     fitsIn (uSize g) (uSize d) →
     fitsIn (vSize g) (vSize d) →
     ∃ st1 d1 st2 d2,
       solveU source diffusionCoefficient dt dest boundarySdf fluidSdf st
         = Some st1 ∧
       grids st1 !! dest = Some d1 ∧
       solveV source diffusionCoefficient dt dest boundarySdf fluidSdf st1
         = Some st2 ∧
       grids st2 !! dest = Some d2 ∧
       (∀ i j k, inBounds (uSize g) i j k = true →
          (getAt (_markers st1) i j k = Some kBoundary →
           getAt (uData d1) i j k = getAt (uData d) i j k) ∧
          (getAt (_markers st1) i j k = Some kAir →
           ∃ s l, getAt (uData g) i j k = Some s ∧
                  laplacian3 (uData g) (faceGridSpacing g) i j k = Some l ∧
                  getAt (uData d1) i j k
                  = Some (s + diffusionCoefficient * dt * l))) ∧
       (∀ i j k, inBounds (vSize g) i j k = true →
          (getAt (_markers st2) i j k = Some kBoundary →
           getAt (vData d2) i j k = getAt (vData d) i j k) ∧
          (getAt (_markers st2) i j k = Some kAir →
           ∃ s l, getAt (vData g) i j k = Some s ∧
                  laplacian3 (vData g) (faceGridSpacing g) i j k = Some l ∧
                  getAt (vData d2) i j k
                  = Some (s + diffusionCoefficient * dt * l)))).
Proof.
  split; [|split].
  - intros st source dest g d c dt boundarySdf fluidSdf.
    apply (solve_nonfluid_sample (T := Q) st source dest g d).
  - intros st source dest g d c dt boundarySdf fluidSdf.
    apply (solve_nonfluid_sample (T := Vector3D) st source dest g d).
  - intros st source dest g d c dt boundarySdf fluidSdf
      Hsrc Hdst Hne Hfu Hfv.
    destruct (solveU_separate st source dest g d c dt
                boundarySdf fluidSdf Hsrc Hdst Hne Hfu)
      as (M1 & a1 & Hrun1 & HszM1 & HM1 & Hsz1 & Hset1 & Hskip1 & _).
    set (st1 := mkState (<[dest := withU d a1]> (grids st)) M1) in *.
    assert (Hsrc1 : grids st1 !! source = Some g)
      by (simpl; now rewrite lookup_insert_ne).
    assert (Hdst1 : grids st1 !! dest = Some (withU d a1))
      by (simpl; apply lookup_insert_eq).
    destruct (solveV_separate st1 source dest g (withU d a1) c dt
                boundarySdf fluidSdf Hsrc1 Hdst1 Hne Hfv)
      as (M2 & a2 & Hrun2 & HszM2 & HM2 & Hsz2 & Hset2 & Hskip2 & _).
    exists st1, (withU d a1),
      (mkState (<[dest := withV (withU d a1) a2]> (grids st1)) M2),
      (withV (withU d a1) a2).
    split; [exact Hrun1|]. split; [exact Hdst1|]. split; [exact Hrun2|].
    split; [simpl; apply lookup_insert_eq|]. split.
    + apply (face_marked_samples M1 (uData g) (uData d) a1 (uPosition g)
               boundarySdf fluidSdf c dt (faceGridSpacing g));
        assumption.
    + apply (face_marked_samples M2 (vData g) (vData d) a2 (vPosition g)
               boundarySdf fluidSdf c dt (faceGridSpacing g));
        assumption.
Qed.

Lemma nonfluid_samples_witness :
  (∃ st' d',
     solve_scalar 0%nat (1 # 4) 1 1%nat (constantField 1) leftHalfFluid
       rampState = Some st' ∧
     grids st' !! 1%nat = Some d' ∧
     ∀ i j k,
       inBounds (mkVector3UZ 2 1 1) i j k = true →
       getAt (_markers st') i j k = Some kAir ∨
       getAt (_markers st') i j k = Some kBoundary →
       ∃ s, getAt (rampData (mkVector3UZ 2 1 1)) i j k = Some s ∧
            getAt (data d') i j k = Some s) ∧
  (∃ st1 d1 st2 d2,
     solveU 0%nat (1 # 4) 1 1%nat rightSolid leftHalfFluid oneCellState
       = Some st1 ∧
     grids st1 !! 1%nat = Some d1 ∧
     solveV 0%nat (1 # 4) 1 1%nat rightSolid leftHalfFluid st1 = Some st2 ∧
     grids st2 !! 1%nat = Some d2 ∧
     (∀ i j k, inBounds (uSize oneCellSource) i j k = true →
        (getAt (_markers st1) i j k = Some kBoundary →
         getAt (uData d1) i j k = getAt (uData oneCellDest) i j k) ∧
        (getAt (_markers st1) i j k = Some kAir →
         ∃ s l, getAt (uData oneCellSource) i j k = Some s ∧
                laplacian3 (uData oneCellSource)
                  (faceGridSpacing oneCellSource) i j k = Some l ∧
                getAt (uData d1) i j k = Some (s + (1 # 4) * 1 * l))) ∧
     (∀ i j k, inBounds (vSize oneCellSource) i j k = true →
        (getAt (_markers st2) i j k = Some kBoundary →
         getAt (vData d2) i j k = getAt (vData oneCellDest) i j k) ∧
        (getAt (_markers st2) i j k = Some kAir →
         ∃ s l, getAt (vData oneCellSource) i j k = Some s ∧
                laplacian3 (vData oneCellSource)
                  (faceGridSpacing oneCellSource) i j k = Some l ∧
                getAt (vData d2) i j k = Some (s + (1 # 4) * 1 * l)))).
Proof.
  split.
  - apply (proj1 nonfluid_samples rampState 0%nat 1%nat
             (scalarGrid (rampData (mkVector3UZ 2 1 1)))
             (scalarGrid (constantData (mkVector3UZ 2 1 1) 0))
             (1 # 4) 1 (constantField 1) leftHalfFluid).
    + reflexivity.
    + reflexivity.
    + lia.
    + reflexivity.
    + unfold fitsIn. simpl. lia.
  - apply (proj2 (proj2 nonfluid_samples) oneCellState 0%nat 1%nat
             oneCellSource oneCellDest (1 # 4) 1 rightSolid leftHalfFluid).
    + reflexivity.
    + reflexivity.
    + lia.
    + unfold fitsIn. simpl. lia.
    + unfold fitsIn. simpl. lia.
Defined.

(** C4 as stated fails in the face-centered overload.  With no boundary
    and fluid on the left half only, the right u face of one cell is
    Air, holds 1 in the source and 3/4 in the destination after the u
    pass.  With the boundary everywhere, the same face is Boundary and
    the destination keeps its 0 instead of the source value 1. *)
Lemma solve_face_changes_nonfluid_samples :
  (∃ st1 d1 v,
     solveU 0%nat (1 # 4) 1 1%nat (constantField 1) leftHalfFluid oneCellState
       = Some st1 ∧
     grids st1 !! 1%nat = Some d1 ∧
     getAt (_markers st1) 1 0 0 = Some kAir ∧
     getAt (uData oneCellSource) 1 0 0 = Some 1 ∧
     getAt (uData d1) 1 0 0 = Some v ∧
     v == 3 # 4 ∧ ¬ v == 1) ∧
  (∃ st1 d1 v,
     solveU 0%nat (1 # 4) 1 1%nat (constantField (-1)) leftHalfFluid
       oneCellState = Some st1 ∧
     grids st1 !! 1%nat = Some d1 ∧
     getAt (_markers st1) 1 0 0 = Some kBoundary ∧
     getAt (uData oneCellSource) 1 0 0 = Some 1 ∧
     getAt (uData d1) 1 0 0 = Some v ∧
     v == 0 ∧ ¬ v == 1).
Proof.
  split.
  - eexists _, _, _.
    split; [vm_compute; reflexivity|].
    split; [vm_compute; reflexivity|].
    split; [vm_compute; reflexivity|].
    split; [vm_compute; reflexivity|].
    split; [vm_compute; reflexivity|].
    split; [vm_compute; reflexivity|].
    intros Heq. vm_compute in Heq. discriminate Heq.
  - eexists _, _, _.
    split; [vm_compute; reflexivity|].
    split; [vm_compute; reflexivity|].
    split; [vm_compute; reflexivity|].
    split; [vm_compute; reflexivity|].
    split; [vm_compute; reflexivity|].
    split; [vm_compute; reflexivity|].
    intros Heq. vm_compute in Heq. discriminate Heq.
Qed.

(** ** Constant fields *)

#[export] Instance QuantityLaws_double : QuantityLaws Q.
Proof.
  split; simpl.
  - apply Q_Setoid.
  - intros a a' b b' Ha Hb. now rewrite Ha, Hb.
  - intros a a' b b' Ha Hb. now rewrite Ha, Hb.
  - intros a a' h Ha. now rewrite Ha.
  - intros s a a' Ha. now rewrite Ha.
  - intros a. ring.
  - intros h. unfold Qdiv. ring.
  - intros a. ring.
  - intros s. ring.
Qed.

#[export] Instance QuantityLaws_Vector3D : QuantityLaws Vector3D.
Proof.
  split; simpl; unfold veq, vadd, vsub, vdiv, vscale; simpl.
  - split.
    + intros a. repeat split; reflexivity.
    + intros a b (Hx & Hy & Hz). repeat split; now symmetry.
    + intros a b c (Hx & Hy & Hz) (Hx' & Hy' & Hz').
      repeat split; etransitivity; eassumption.
  - intros a a' b b' (Hx & Hy & Hz) (Hx' & Hy' & Hz').
    now rewrite Hx, Hy, Hz, Hx', Hy', Hz'.
  - intros a a' b b' (Hx & Hy & Hz) (Hx' & Hy' & Hz').
    now rewrite Hx, Hy, Hz, Hx', Hy', Hz'.
  - intros a a' h (Hx & Hy & Hz). now rewrite Hx, Hy, Hz.
  - intros s a a' (Hx & Hy & Hz). now rewrite Hx, Hy, Hz.
  - intros a. repeat split; ring.
  - intros h. unfold Qdiv. repeat split; ring.
  - intros a. repeat split; ring.
  - intros s. repeat split; ring.
Qed.

Section ConstantField.
Context {T : Type} `{QuantityLaws T}.
Local Open Scope quantity_scope.

Local Instance qeq_equiv : Equivalence (qeq (T := T)) := qeq_equivalence.

Lemma fluidDiffAt_constant (marker : Array3 Z) (b : bool) i j k (x y c0 : T) :
  (b = true → x ≃ c0 ∧ y ≃ c0) →
  fluidDiffAt marker b i j k (x ⊖ y) ≃ qzero.
Proof.
  intros Hxy. unfold fluidDiffAt.
  destruct b; simpl; [|reflexivity].
  destruct (cells marker i j k =? kFluid)%Z; [|reflexivity].
  destruct Hxy as [Hx Hy]; [reflexivity|].
  rewrite (qsub_proper x c0 y c0 Hx Hy). apply qsub_diag.
Qed.

Lemma axis_zero (dp dm : T) (h2 : Q) :
  dp ≃ qzero → dm ≃ qzero → (dp ⊖ dm) ⊘ h2 ≃ qzero.
Proof.
  intros Hp Hm.
  rewrite (qdiv_proper _ _ h2 (qsub_proper _ _ _ _ Hp Hm)).
  rewrite (qdiv_proper _ _ h2 (qsub_diag qzero)).
  apply qdiv_zero.
Qed.

Lemma sum_zero (a b c : T) :
  a ≃ qzero → b ≃ qzero → c ≃ qzero → a ⊕ b ⊕ c ≃ qzero.
Proof.
  intros Ha Hb Hc.
  rewrite (qadd_proper _ _ _ _ (qadd_proper _ _ _ _ Ha Hb) Hc).
  rewrite (qadd_proper _ _ _ _ (qadd_zero_r qzero) (reflexivity qzero)).
  apply qadd_zero_r.
Qed.

(** The marker-aware Laplacian of a constant field is zero, whatever
    the markers. *)
Lemma laplacianAt_constant (data : Array3 T) (marker : Array3 Z)
  (h : Vector3D) (c0 : T) (i j k : nat) :
  inBounds (size3 data) i j k = true →
  (∀ i j k, inBounds (size3 data) i j k = true → cells data i j k ≃ c0) →
  laplacianAt data marker h i j k ≃ qzero.
Proof.
  intros Hb Hconst. pose proof (Hconst i j k Hb) as Hc.
  apply inBounds_spec in Hb as (Hi & Hj & Hk).
  unfold laplacianAt. cbv zeta.
  apply sum_zero; apply axis_zero;
    apply fluidDiffAt_constant with (c0 := c0);
    intros Hbt; apply Nat.ltb_lt in Hbt;
    (split; [try exact Hc|try exact Hc]);
    apply Hconst, inBounds_spec; lia.
Qed.

(** Scalar and collocated vector overloads on a constant source. *)
Lemma solve_constant (st : State (Grid T)) source dest (g d : Grid T)
  c dt boundarySdf fluidSdf (c0 : T) :
  grids st !! source = Some g →
  grids st !! dest = Some d →
  source ≠ dest →
  collocated g →
  fitsIn (dataSize g) (dataSize d) →
  (∀ i j k, inBounds (dataSize g) i j k = true → cells (data g) i j k ≃ c0) →
  ∃ st' d',
    solve source c dt dest boundarySdf fluidSdf st = Some st' ∧
    grids st' !! dest = Some d' ∧
    ∀ i j k,
      inBounds (dataSize g) i j k = true →
      ∃ s v, getAt (data g) i j k = Some s ∧
             getAt (data d') i j k = Some v ∧
             v ≃ s ∧ v ≃ c0.
Proof.
  intros Hsrc Hdst Hne Hcol Hfit Hconst.
  destruct (solve_separate st source dest g d c dt boundarySdf fluidSdf
              Hsrc Hdst Hne Hcol Hfit)
    as (M & a' & Hrun & HszM & HM & Hsz & Hin & Hout).
  eexists _, (withData d a'). split; [exact Hrun|].
  split; [simpl; apply lookup_insert_eq|].
  intros i j k Hb. simpl.
  exists (cells (data g) i j k), (cells a' i j k).
  split; [now apply getAt_Some|]. split.
  { apply getAt_Some. rewrite Hsz.
    apply inBounds_spec in Hb. apply inBounds_spec.
    unfold fitsIn, dataSize in *. lia. }
  assert (Hv : cells a' i j k ≃ cells (data g) i j k).
  { rewrite (Hin i j k Hb). unfold updatedValue.
    destruct (cells M i j k =? kFluid)%Z; [|reflexivity].
    rewrite (qadd_proper _ _ _ _ (reflexivity _)
               (qscale_proper (c * dt) _ _
                  (laplacianAt_constant (data g) M (gridSpacing g) c0
                     i j k Hb Hconst))).
    rewrite (qadd_proper _ _ _ _ (reflexivity _) (qscale_zero (c * dt))).
    apply qadd_zero_r. }
  split; [exact Hv|]. rewrite Hv. now apply Hconst.
Qed.

Lemma difference_constant (b : bool) (x y c0 : Q) :
(b = true → x == c0 ∧ y == c0) → (if b then x - y else 0) == 0.
Proof.
destruct b; [|reflexivity]. intros [Hx Hy]; [reflexivity|].
rewrite Hx, Hy. ring.
Qed.

(** The plain Laplacian of a constant component is zero. *)
Lemma laplacian3At_constant (data : Array3 Q) (h : Vector3D) (c0 : Q)
(i j k : nat) :
inBounds (size3 data) i j k = true →
(∀ i j k, inBounds (size3 data) i j k = true → cells data i j k == c0) →
laplacian3At data h i j k == 0.
Proof.
intros Hb Hconst. pose proof (Hconst i j k Hb) as Hc.
apply inBounds_spec in Hb as (Hi & Hj & Hk).
unfold laplacian3At. cbv zeta.
rewrite !(difference_constant _ _ _ c0); [unfold Qdiv; ring|..];
  intros Hbt; apply Nat.ltb_lt in Hbt;
  (split; [try exact Hc|try exact Hc]);
  apply Hconst, inBounds_spec; lia.
Qed.

(** A face-centered pass on a constant component, in terms of the arrays
  the pass relates. *)
Lemma face_constant_samples (src dst a' : Array3 Q)
(pos : nat → nat → nat → Vector3D) (boundarySdf : ScalarField3)
(c dt c0 : Q) (h : Vector3D) :
size3 a' = size3 dst →
fitsIn (size3 src) (size3 dst) →
(∀ i j k, inBounds (size3 src) i j k = true → cells src i j k == c0) →
(∀ i j k, inBounds (size3 src) i j k = true →
   isInsideSdf (boundarySdf (pos i j k)) = false →
   cells a' i j k = cells src i j k + c * dt * laplacian3At src h i j k) →
(∀ i j k, inBounds (size3 src) i j k = true →
   isInsideSdf (boundarySdf (pos i j k)) = true →
   cells a' i j k = cells dst i j k) →
∀ i j k, inBounds (size3 src) i j k = true →
  if isInsideSdf (boundarySdf (pos i j k))
  then getAt a' i j k = getAt dst i j k
  else ∃ s v, getAt src i j k = Some s ∧ getAt a' i j k = Some v ∧
              v == s ∧ v == c0.
Proof.
intros Hsz Hfit Hconst Hset Hskip i j k Hb.
destruct (isInsideSdf (boundarySdf (pos i j k))) eqn:Hins.
- apply getAt_ext; [exact Hsz|]. now apply Hskip.
- exists (cells src i j k), (cells a' i j k).
  split; [now apply getAt_Some|]. split.
  { apply getAt_Some. rewrite Hsz.
    apply inBounds_spec in Hb. apply inBounds_spec.
    unfold fitsIn in Hfit. lia. }
  assert (Hv : cells a' i j k == cells src i j k).
  { rewrite (Hset i j k Hb Hins).
    rewrite (laplacian3At_constant src h c0 i j k Hb Hconst). ring. }
  split; [exact Hv|]. rewrite Hv. now apply Hconst.
Qed.
End ConstantField.

(** C8, as amended.  On a spatially constant source, for any
    diffusionCoefficient, dt and SDFs: the scalar and the collocated
    vector overload leave the source value in the destination at every
    sample; the u and v passes of the face-centered overload do so at
    every sample outside the boundary SDF, and leave a sample inside the
    boundary SDF as the destination had it. *)
Theorem constant_field_unchanged :
  (∀ (st : State ScalarGrid3) source dest (g d : ScalarGrid3)
     diffusionCoefficient dt boundarySdf fluidSdf (c0 : Q),
     grids st !! source = Some g →
     grids st !! dest = Some d →
     source ≠ dest →
     collocated g →
     fitsIn (dataSize g) (dataSize d) →
     (∀ i j k, inBounds (dataSize g) i j k = true →
               cells (data g) i j k == c0) →
     ∃ st' d',
       solve_scalar source diffusionCoefficient dt dest boundarySdf fluidSdf st
         = Some st' ∧
       grids st' !! dest = Some d' ∧
       ∀ i j k,
         inBounds (dataSize g) i j k = true →
         ∃ s v, getAt (data g) i j k = Some s ∧
                getAt (data d') i j k = Some v ∧
                v == s ∧ v == c0) ∧
  (∀ (st : State CollocatedVectorGrid3) source dest
     (g d : CollocatedVectorGrid3)
     diffusionCoefficient dt boundarySdf fluidSdf (c0 : Vector3D),
     grids st !! source = Some g →
     grids st !! dest = Some d →
     source ≠ dest →
     collocated g →
     fitsIn (dataSize g) (dataSize d) →
     (∀ i j k, inBounds (dataSize g) i j k = true →
               veq (cells (data g) i j k) c0) →
     ∃ st' d',
       solve_collocated source diffusionCoefficient dt dest boundarySdf
         fluidSdf st = Some st' ∧
       grids st' !! dest = Some d' ∧
       ∀ i j k,
         inBounds (dataSize g) i j k = true →
         ∃ s v, getAt (data g) i j k = Some s ∧
                getAt (data d') i j k = Some v ∧
                veq v s ∧ veq v c0) ∧
  (∀ (st : State FaceCenteredGrid3) source dest (g d : FaceCenteredGrid3)
     diffusionCoefficient dt boundarySdf fluidSdf (cu cv : Q),
     grids st !! source = Some g →
     grids st !! dest = Some d →
     source ≠ dest →
     fitsIn (uSize g) (uSize d) →
     fitsIn (vSize g) (vSize d) →
     (∀ i j k, inBounds (uSize g) i j k = true → cells (uData g) i j k == cu) →
     (∀ i j k, inBounds (vSize g) i j k = true → cells (vData g) i j k == cv) →
     ∃ st1 d1 st2 d2,
       solveU source diffusionCoefficient dt dest boundarySdf fluidSdf st
         = Some st1 ∧
       grids st1 !! dest = Some d1 ∧
       solveV source diffusionCoefficient dt dest boundarySdf fluidSdf st1
         = Some st2 ∧
       grids st2 !! dest = Some d2 ∧
       (∀ i j k, inBounds (uSize g) i j k = true →
          if isInsideSdf (boundarySdf (uPosition g i j k))
          then getAt (uData d2) i j k = getAt (uData d) i j k
          else ∃ s v, getAt (uData g) i j k = Some s ∧
                      getAt (uData d2) i j k = Some v ∧
                      v == s ∧ v == cu) ∧
       (∀ i j k, inBounds (vSize g) i j k = true →
          if isInsideSdf (boundarySdf (vPosition g i j k))
          then getAt (vData d2) i j k = getAt (vData d) i j k
          else ∃ s v, getAt (vData g) i j k = Some s ∧
                      getAt (vData d2) i j k = Some v ∧
                      v == s ∧ v == cv)).
Proof.
  split; [|split].
  - intros st source dest g d c dt boundarySdf fluidSdf c0.
    exact (@solve_constant Q Quantity_double QuantityLaws_double
             st source dest g d c dt boundarySdf fluidSdf c0).
  - intros st source dest g d c dt boundarySdf fluidSdf c0.
    exact (@solve_constant Vector3D Quantity_Vector3D QuantityLaws_Vector3D
             st source dest g d c dt boundarySdf fluidSdf c0).
  - intros st source dest g d c dt boundarySdf fluidSdf cu cv
      Hsrc Hdst Hne Hfu Hfv Hcu Hcv.
    destruct (solveU_separate st source dest g d c dt
                boundarySdf fluidSdf Hsrc Hdst Hne Hfu)
      as (M1 & a1 & Hrun1 & _ & _ & Hsz1 & Hset1 & Hskip1 & _).
    set (st1 := mkState (<[dest := withU d a1]> (grids st)) M1) in *.
    assert (Hsrc1 : grids st1 !! source = Some g)
      by (simpl; now rewrite lookup_insert_ne).
    assert (Hdst1 : grids st1 !! dest = Some (withU d a1))
      by (simpl; apply lookup_insert_eq).
    destruct (solveV_separate st1 source dest g (withU d a1) c dt
                boundarySdf fluidSdf Hsrc1 Hdst1 Hne Hfv)
      as (M2 & a2 & Hrun2 & _ & _ & Hsz2 & Hset2 & Hskip2 & _).
    exists st1, (withU d a1),
      (mkState (<[dest := withV (withU d a1) a2]> (grids st1)) M2),
      (withV (withU d a1) a2).
    split; [exact Hrun1|]. split; [exact Hdst1|]. split; [exact Hrun2|].
    split; [simpl; apply lookup_insert_eq|]. split.
    + apply (face_constant_samples (uData g) (uData d) a1 (uPosition g)
               boundarySdf c dt cu (faceGridSpacing g)); assumption.
    + apply (face_constant_samples (vData g) (vData d) a2 (vPosition g)
               boundarySdf c dt cv (faceGridSpacing g)); assumption.
Qed.

Lemma constant_field_unchanged_witness :
  (∃ st' d',
     solve_scalar 0%nat (1 # 4) 1 1%nat (constantField 1) leftHalfFluid
       (twoGrids (scalarGrid (constantData (mkVector3UZ 2 1 1) 7))
                 (scalarGrid (constantData (mkVector3UZ 2 1 1) 0)))
       = Some st' ∧
     grids st' !! 1%nat = Some d' ∧
     ∀ i j k,
       inBounds (mkVector3UZ 2 1 1) i j k = true →
       ∃ s v, getAt (constantData (mkVector3UZ 2 1 1) 7) i j k = Some s ∧
              getAt (data d') i j k = Some v ∧
              v == s ∧ v == 7) ∧
  (∃ st1 d1 st2 d2,
     solveU 0%nat (1 # 4) 1 1%nat rightSolid leftHalfFluid uniformState
       = Some st1 ∧
     grids st1 !! 1%nat = Some d1 ∧
     solveV 0%nat (1 # 4) 1 1%nat rightSolid leftHalfFluid st1 = Some st2 ∧
     grids st2 !! 1%nat = Some d2 ∧
     (∀ i j k, inBounds (uSize uniformSource) i j k = true →
        if isInsideSdf (rightSolid (uPosition uniformSource i j k))
        then getAt (uData d2) i j k = getAt (uData oneCellDest) i j k
        else ∃ s v, getAt (uData uniformSource) i j k = Some s ∧
                    getAt (uData d2) i j k = Some v ∧
                    v == s ∧ v == 1) ∧
     (∀ i j k, inBounds (vSize uniformSource) i j k = true →
        if isInsideSdf (rightSolid (vPosition uniformSource i j k))
        then getAt (vData d2) i j k = getAt (vData oneCellDest) i j k
        else ∃ s v, getAt (vData uniformSource) i j k = Some s ∧
                    getAt (vData d2) i j k = Some v ∧
                    v == s ∧ v == 1)).
Proof.
  split.
  - apply (proj1 constant_field_unchanged
             (twoGrids (scalarGrid (constantData (mkVector3UZ 2 1 1) 7))
                       (scalarGrid (constantData (mkVector3UZ 2 1 1) 0)))
             0%nat 1%nat
             (scalarGrid (constantData (mkVector3UZ 2 1 1) 7))
             (scalarGrid (constantData (mkVector3UZ 2 1 1) 0))
             (1 # 4) 1 (constantField 1) leftHalfFluid 7).
    + reflexivity.
    + reflexivity.
    + lia.
    + reflexivity.
    + unfold fitsIn. simpl. lia.
    + intros i j k _. reflexivity.
  - apply (proj2 (proj2 constant_field_unchanged) uniformState 0%nat 1%nat
             uniformSource oneCellDest (1 # 4) 1 rightSolid leftHalfFluid 1 1).
    + reflexivity.
    + reflexivity.
    + lia.
    + unfold fitsIn. simpl. lia.
    + unfold fitsIn. simpl. lia.
    + intros i j k _. reflexivity.
    + intros i j k _. reflexivity.
Defined.

(** C8 as stated fails in the face-centered overload: with every sample
    inside the boundary SDF the call returns without writing, so a
    destination of zeros stays zero although the source is the constant
    field 1. *)
Lemma solve_face_constant_not_copied :
  ∃ st' d',
    solve_face 0%nat (1 # 4) 1 1%nat (constantField (-1)) (constantField (-1))
      uniformState = Some st' ∧
    grids st' !! 1%nat = Some d' ∧
    getAt (uData uniformSource) 0 0 0 = Some 1 ∧
    getAt (uData d') 0 0 0 = Some 0 ∧
    ¬ 0 == 1.
Proof.
  eexists _, _.
  split; [vm_compute; reflexivity|].
  split; [vm_compute; reflexivity|].
  split; [vm_compute; reflexivity|].
  split; [vm_compute; reflexivity|].
  intros Heq. vm_compute in Heq. discriminate Heq.
Qed.

(** ** Configuration values are not checked *)

(** Whatever the coefficient and the time step, and whenever the
    destination is at least as large as the source, [solve] returns and
    has written every sample in the range of the source. *)
Lemma solve_writes_every_sample {T} `{Quantity T} (st : State (Grid T))
  source dest (g d : Grid T) c dt boundarySdf fluidSdf :
  grids st !! source = Some g →
  grids st !! dest = Some d →
  source ≠ dest →
  collocated g →
  fitsIn (dataSize g) (dataSize d) →
  ∃ st' d',
    solve source c dt dest boundarySdf fluidSdf st = Some st' ∧
    grids st' !! dest = Some d' ∧
    ∀ i j k,
      inBounds (dataSize g) i j k = true →
      ∃ m s v,
        getAt (_markers st') i j k = Some m ∧
        getAt (data g) i j k = Some s ∧
        getAt (data d') i j k = Some v ∧
        if (m =? kFluid)%Z
        then ∃ l, laplacian (data g) (_markers st') (gridSpacing g) i j k
                  = Some l ∧
                  v = qadd s (qscale (c * dt) l)
        else v = s.
Proof.
  intros Hsrc Hdst Hne Hcol Hfit.
  destruct (solve_separate st source dest g d c dt boundarySdf fluidSdf
              Hsrc Hdst Hne Hcol Hfit)
    as (M & a' & Hrun & HszM & HM & Hsz & Hin & Hout).
  eexists _, (withData d a'). split; [exact Hrun|].
  split; [simpl; apply lookup_insert_eq|].
  intros i j k Hb. simpl.
  exists (cells M i j k), (cells (data g) i j k), (cells a' i j k).
  split; [apply getAt_Some; now rewrite HszM, <- Hcol|].
  split; [now apply getAt_Some|]. split.
  { apply getAt_Some. rewrite Hsz.
    apply inBounds_spec in Hb. apply inBounds_spec.
    unfold fitsIn, dataSize in *. lia. }
  rewrite (Hin i j k Hb). unfold updatedValue.
  destruct (cells M i j k =? kFluid)%Z; [|reflexivity].
  exists (laplacianAt (data g) M (gridSpacing g) i j k).
  split; [|reflexivity].
  apply laplacian_inside; [exact Hb|]. now rewrite HszM, <- Hcol.
Qed.

(** C5, as amended.  [solve] checks nothing about its configuration: for
    every diffusionCoefficient and every dt, negative and zero included,
    and every destination at least as large as the source, of the same
    resolution or not, the scalar and the collocated vector overload
    return normally and have written every sample in the range of the
    source, by the update rule for Fluid samples and with the source
    value elsewhere. *)
Theorem solve_does_not_validate :
  (∀ (st : State ScalarGrid3) source dest (g d : ScalarGrid3)
     (diffusionCoefficient dt : Q) boundarySdf fluidSdf,
     grids st !! source = Some g →
     grids st !! dest = Some d →
     source ≠ dest →
     collocated g →
     fitsIn (dataSize g) (dataSize d) →
     ∃ st' d',
       solve_scalar source diffusionCoefficient dt dest boundarySdf fluidSdf st
         = Some st' ∧
       grids st' !! dest = Some d' ∧
       ∀ i j k,
         inBounds (dataSize g) i j k = true →
         ∃ m s v,
           getAt (_markers st') i j k = Some m ∧
           getAt (data g) i j k = Some s ∧
           getAt (data d') i j k = Some v ∧
           if (m =? kFluid)%Z
           then ∃ l, laplacian (data g) (_markers st') (gridSpacing g) i j k
                     = Some l ∧
                     v = s + diffusionCoefficient * dt * l
           else v = s) ∧
  (∀ (st : State CollocatedVectorGrid3) source dest
     (g d : CollocatedVectorGrid3)
     (diffusionCoefficient dt : Q) boundarySdf fluidSdf,
     grids st !! source = Some g →
     grids st !! dest = Some d →
     source ≠ dest →
     collocated g →
     fitsIn (dataSize g) (dataSize d) →
     ∃ st' d',
       solve_collocated source diffusionCoefficient dt dest boundarySdf
         fluidSdf st = Some st' ∧
       grids st' !! dest = Some d' ∧
       ∀ i j k,
         inBounds (dataSize g) i j k = true →
         ∃ m s v,
           getAt (_markers st') i j k = Some m ∧
           getAt (data g) i j k = Some s ∧
           getAt (data d') i j k = Some v ∧
           if (m =? kFluid)%Z
           then ∃ l, laplacian (data g) (_markers st') (gridSpacing g) i j k
                     = Some l ∧
                     v = vadd s (vscale (diffusionCoefficient * dt) l)
           else v = s).
Proof.
  split.
  - intros st source dest g d c dt boundarySdf fluidSdf.
    exact (@solve_writes_every_sample Q Quantity_double
             st source dest g d c dt boundarySdf fluidSdf).
  - intros st source dest g d c dt boundarySdf fluidSdf.
    exact (@solve_writes_every_sample Vector3D Quantity_Vector3D
             st source dest g d c dt boundarySdf fluidSdf).
Qed.

Lemma solve_does_not_validate_witness :
  ∃ st' d',
    solve_scalar 0%nat (-1) 0 1%nat (constantField 1) (constantField (-1))
      (twoGrids (scalarGrid (rampData (mkVector3UZ 2 1 1)))
                (scalarGrid (constantData (mkVector3UZ 3 1 1) 0)))
      = Some st' ∧
    grids st' !! 1%nat = Some d' ∧
    ∀ i j k,
      inBounds (mkVector3UZ 2 1 1) i j k = true →
      ∃ m s v,
        getAt (_markers st') i j k = Some m ∧
        getAt (rampData (mkVector3UZ 2 1 1)) i j k = Some s ∧
        getAt (data d') i j k = Some v ∧
        if (m =? kFluid)%Z
        then ∃ l, laplacian (rampData (mkVector3UZ 2 1 1)) (_markers st')
                    unitSpacing i j k = Some l ∧
                  v = s + -1 * 0 * l
        else v = s.
Proof.
  apply (proj1 solve_does_not_validate
           (twoGrids (scalarGrid (rampData (mkVector3UZ 2 1 1)))
                     (scalarGrid (constantData (mkVector3UZ 3 1 1) 0)))
           0%nat 1%nat
           (scalarGrid (rampData (mkVector3UZ 2 1 1)))
           (scalarGrid (constantData (mkVector3UZ 3 1 1) 0))
           (-1) 0 (constantField 1) (constantField (-1))).
  - reflexivity.
  - reflexivity.
  - lia.
  - reflexivity.
  - unfold fitsIn. simpl. lia.
Defined.

(** C5 as stated fails: no configuration is rejected.  On the ramp
    0, 1 with every sample Fluid and a destination of zeros, a negative
    coefficient, a negative time step, and a destination of another
    resolution each let the call return with the first destination
    sample overwritten. *)
Lemma solve_accepts_bad_configuration :
  (∃ st' d' v,
     solve_scalar 0%nat (-1) 1 1%nat (constantField 1) (constantField (-1))
       rampState = Some st' ∧
     grids st' !! 1%nat = Some d' ∧
     getAt (data d') 0 0 0 = Some v ∧ v == -1) ∧
  (∃ st' d' v,
     solve_scalar 0%nat 1 (-1) 1%nat (constantField 1) (constantField (-1))
       rampState = Some st' ∧
     grids st' !! 1%nat = Some d' ∧
     getAt (data d') 0 0 0 = Some v ∧ v == -1) ∧
  (∃ st' d' v,
     solve_scalar 0%nat (1 # 4) 1 1%nat (constantField 1) (constantField (-1))
       (twoGrids (scalarGrid (rampData (mkVector3UZ 2 1 1)))
                 (scalarGrid (constantData (mkVector3UZ 3 1 1) 0)))
       = Some st' ∧
     grids st' !! 1%nat = Some d' ∧
     getAt (data d') 0 0 0 = Some v ∧ v == 1 # 4).
Proof.
  split; [|split]; eexists _, _, _;
    (split; [vm_compute; reflexivity|]);
    (split; [vm_compute; reflexivity|]);
    (split; [vm_compute; reflexivity|]);
    vm_compute; reflexivity.
Qed.

(** ** What a call leaves alone *)

Lemma forEach_preserves {S} (R : S → Prop)
  (f : nat → nat → nat → S → option S) (l : list Index3) :
  (∀ i j k st st', f i j k st = Some st' → R st → R st') →
  ∀ st st', forEach l f st = Some st' → R st → R st'.
Proof.
  intros Hstep. induction l as [|[[i j] k] l IH]; intros st st' Hrun HR.
  - now injection Hrun as <-.
  - simpl in Hrun. destruct (f i j k st) as [st1|] eqn:Hf; [|discriminate].
    simpl in Hrun. apply (IH st1 st' Hrun). exact (Hstep i j k st st1 Hf HR).
Qed.

Lemma writeView_frame {G T} (view : View G T) dest i j k x (st st' : State G) :
  writeView view dest i j k x st = Some st' →
  ∀ l, l ≠ dest → grids st' !! l = grids st !! l.
Proof.
  unfold writeView. intros Hw l Hl.
  destruct (grids st !! dest) as [g|]; [|discriminate]. simpl in Hw.
  destruct (setAt (viewOf view g) i j k x) as [a|]; [|discriminate].
  injection Hw as <-. simpl. now apply lookup_insert_ne.
Qed.

Lemma rebuildMarkers_grids {G} size pos boundarySdf fluidSdf (st st' : State G) :
  rebuildMarkers size pos boundarySdf fluidSdf st = Some st' →
  grids st' = grids st.
Proof.
  unfold rebuildMarkers. intros Hr.
  destruct (buildMarkers size pos boundarySdf fluidSdf (_markers st));
    [|discriminate].
  now injection Hr as <-.
Qed.

(** Scalar and collocated vector overloads: a returning call leaves
    every object but the destination as it was. *)
Lemma solve_frame {T} `{Quantity T} (st st' : State (Grid T)) source dest
  c dt boundarySdf fluidSdf :
  solve source c dt dest boundarySdf fluidSdf st = Some st' →
  ∀ l, l ≠ dest → grids st' !! l = grids st !! l.
Proof.
  unfold solve. intros Hrun l Hl.
  destruct (grids st !! source) as [g|]; [|discriminate]. simpl in Hrun.
  destruct (rebuildMarkers (resolution g) (dataPosition g) boundarySdf
              fluidSdf st) as [st0|] eqn:Hm; [|discriminate].
  simpl in Hrun. apply rebuildMarkers_grids in Hm. rewrite <- Hm.
  unfold forEachIndex in Hrun.
  refine (forEach_preserves (λ s, grids s !! l = grids st0 !! l)
            _ _ _ st0 st' Hrun eq_refl).
  intros i j k s s' Hstep HR. rewrite <- HR.
  unfold solveSample in Hstep.
  destruct (grids s !! source) as [g'|]; [|discriminate]. simpl in Hstep.
  destruct (getAt (_markers s) i j k) as [m|]; [|discriminate].
  simpl in Hstep.
  destruct (m =? kFluid)%Z.
  - destruct (getAt (data g') i j k) as [x|]; [|discriminate].
    simpl in Hstep.
    destruct (laplacian (data g') (_markers s) (gridSpacing g) i j k);
      [|discriminate].
    simpl in Hstep. now apply (writeView_frame _ _ _ _ _ _ _ _ Hstep).
  - destruct (getAt (data g') i j k) as [x|]; [|discriminate].
    simpl in Hstep. now apply (writeView_frame _ _ _ _ _ _ _ _ Hstep).
Qed.

Lemma facePass_frame view s pos source c dt dest boundarySdf h
  (st st' : State FaceCenteredGrid3) :
  forEachIndex s (solveFaceSample view pos source c dt dest boundarySdf h) st
    = Some st' →
  ∀ l, l ≠ dest → grids st' !! l = grids st !! l.
Proof.
  unfold forEachIndex. intros Hrun l Hl.
  refine (forEach_preserves (λ s, grids s !! l = grids st !! l)
            _ _ _ st st' Hrun eq_refl).
  intros i j k s0 s' Hstep HR. rewrite <- HR.
  unfold solveFaceSample in Hstep.
  destruct (negb (isInsideSdf (boundarySdf (pos i j k)))).
  - destruct (grids s0 !! source) as [g|]; [|discriminate]. simpl in Hstep.
    destruct (getAt (viewOf view g) i j k) as [x|]; [|discriminate].
    simpl in Hstep.
    destruct (laplacian3 (viewOf view g) h i j k); [|discriminate].
    simpl in Hstep. now apply (writeView_frame _ _ _ _ _ _ _ _ Hstep).
  - now injection Hstep as <-.
Qed.

Lemma solveU_frame source c dt dest boundarySdf fluidSdf
  (st st' : State FaceCenteredGrid3) :
  solveU source c dt dest boundarySdf fluidSdf st = Some st' →
  ∀ l, l ≠ dest → grids st' !! l = grids st !! l.
Proof.
  unfold solveU. intros Hrun l Hl.
  destruct (grids st !! source) as [g|]; [|discriminate]. simpl in Hrun.
  destruct (rebuildMarkers (uSize g) (uPosition g) boundarySdf fluidSdf st)
    as [st0|] eqn:Hm; [|discriminate].
  simpl in Hrun. apply rebuildMarkers_grids in Hm. rewrite <- Hm.
  now apply (facePass_frame _ _ _ _ _ _ _ _ _ _ _ Hrun).
Qed.

Lemma solveV_frame source c dt dest boundarySdf fluidSdf
  (st st' : State FaceCenteredGrid3) :
  solveV source c dt dest boundarySdf fluidSdf st = Some st' →
  ∀ l, l ≠ dest → grids st' !! l = grids st !! l.
Proof.
  unfold solveV. intros Hrun l Hl.
  destruct (grids st !! source) as [g|]; [|discriminate]. simpl in Hrun.
  destruct (rebuildMarkers (vSize g) (vPosition g) boundarySdf fluidSdf st)
    as [st0|] eqn:Hm; [|discriminate].
  simpl in Hrun. apply rebuildMarkers_grids in Hm. rewrite <- Hm.
  now apply (facePass_frame _ _ _ _ _ _ _ _ _ _ _ Hrun).
Qed.

Lemma solveW_frame source c dt dest boundarySdf fluidSdf
  (st st' : State FaceCenteredGrid3) :
  solveW source c dt dest boundarySdf fluidSdf st = Some st' →
  ∀ l, l ≠ dest → grids st' !! l = grids st !! l.
Proof.
  unfold solveW. intros Hrun l Hl.
  destruct (grids st !! source) as [g|]; [|discriminate]. simpl in Hrun.
  destruct (rebuildMarkers (wSize g) (wPosition g) boundarySdf fluidSdf st)
    as [st0|] eqn:Hm; [|discriminate].
  simpl in Hrun. apply rebuildMarkers_grids in Hm. rewrite <- Hm.
  now apply (facePass_frame _ _ _ _ _ _ _ _ _ _ _ Hrun).
Qed.

Lemma solve_face_frame source c dt dest boundarySdf fluidSdf
  (st st' : State FaceCenteredGrid3) :
  solve_face source c dt dest boundarySdf fluidSdf st = Some st' →
  ∀ l, l ≠ dest → grids st' !! l = grids st !! l.
Proof.
  unfold solve_face. intros Hrun l Hl.
  destruct (solveU source c dt dest boundarySdf fluidSdf st)
    as [st1|] eqn:HU; [|discriminate].
  simpl in Hrun.
  destruct (solveV source c dt dest boundarySdf fluidSdf st1)
    as [st2|] eqn:HV; [|discriminate].
  simpl in Hrun.
  rewrite (solveW_frame _ _ _ _ _ _ _ _ Hrun l Hl).
  rewrite (solveV_frame _ _ _ _ _ _ _ _ HV l Hl).
  exact (solveU_frame _ _ _ _ _ _ _ _ HU l Hl).
Qed.

(** C9, as amended.  A call of any overload that returns leaves every
    grid other than the destination as it was; so when the destination
    is not the source object itself, the source grid holds after the
    call what it held before, and only the destination grid and the
    marker buffer of the solver are written.  (The SDFs are only
    sampled.)  The scalar and the collocated vector overload do return
    on a collocated source and a destination at least as large. *)
Theorem solve_leaves_source_unchanged :
  (∀ (st st' : State ScalarGrid3) source dest c dt boundarySdf fluidSdf,
     source ≠ dest →
     solve_scalar source c dt dest boundarySdf fluidSdf st = Some st' →
     grids st' !! source = grids st !! source ∧
     ∀ l, l ≠ dest → grids st' !! l = grids st !! l) ∧
  (∀ (st st' : State CollocatedVectorGrid3) source dest c dt
     boundarySdf fluidSdf,
     source ≠ dest →
     solve_collocated source c dt dest boundarySdf fluidSdf st = Some st' →
     grids st' !! source = grids st !! source ∧
     ∀ l, l ≠ dest → grids st' !! l = grids st !! l) ∧
  (∀ (st st' : State FaceCenteredGrid3) source dest c dt
     boundarySdf fluidSdf,
     source ≠ dest →
     solve_face source c dt dest boundarySdf fluidSdf st = Some st' →
     grids st' !! source = grids st !! source ∧
     ∀ l, l ≠ dest → grids st' !! l = grids st !! l) ∧
  (∀ (st : State ScalarGrid3) source dest (g d : ScalarGrid3) c dt
     boundarySdf fluidSdf,
     grids st !! source = Some g →
     grids st !! dest = Some d →
     source ≠ dest →
     collocated g →
     fitsIn (dataSize g) (dataSize d) →
     ∃ st', solve_scalar source c dt dest boundarySdf fluidSdf st = Some st' ∧
            grids st' !! source = Some g) ∧
  (∀ (st : State CollocatedVectorGrid3) source dest
     (g d : CollocatedVectorGrid3) c dt boundarySdf fluidSdf,
     grids st !! source = Some g →
     grids st !! dest = Some d →
     source ≠ dest →
     collocated g →
     fitsIn (dataSize g) (dataSize d) →
     ∃ st', solve_collocated source c dt dest boundarySdf fluidSdf st
            = Some st' ∧
            grids st' !! source = Some g).
Proof.
  split; [|split; [|split; [|split]]].
  - intros st st' source dest c dt boundarySdf fluidSdf Hne Hrun.
    pose proof (solve_frame (T := Q) _ _ _ _ _ _ _ _ Hrun) as Hfr.
    split; [now apply Hfr|exact Hfr].
  - intros st st' source dest c dt boundarySdf fluidSdf Hne Hrun.
    pose proof (solve_frame (T := Vector3D) _ _ _ _ _ _ _ _ Hrun) as Hfr.
    split; [now apply Hfr|exact Hfr].
  - intros st st' source dest c dt boundarySdf fluidSdf Hne Hrun.
    pose proof (solve_face_frame _ _ _ _ _ _ _ _ Hrun) as Hfr.
    split; [now apply Hfr|exact Hfr].
  - intros st source dest g d c dt boundarySdf fluidSdf
      Hsrc Hdst Hne Hcol Hfit.
    destruct (solve_separate (T := Q) st source dest g d c dt boundarySdf
                fluidSdf Hsrc Hdst Hne Hcol Hfit) as (M & a' & Hrun & _).
    eexists. split; [exact Hrun|]. simpl. now rewrite lookup_insert_ne.
  - intros st source dest g d c dt boundarySdf fluidSdf
      Hsrc Hdst Hne Hcol Hfit.
    destruct (solve_separate (T := Vector3D) st source dest g d c dt
                boundarySdf fluidSdf Hsrc Hdst Hne Hcol Hfit)
      as (M & a' & Hrun & _).
    eexists. split; [exact Hrun|]. simpl. now rewrite lookup_insert_ne.
Qed.

Lemma solve_leaves_source_unchanged_witness :
  ∃ st',
    solve_face 0%nat (1 # 4) 1 1%nat rightSolid (constantField (-1))
      oneCellState = Some st' ∧
    grids st' !! 0%nat = grids oneCellState !! 0%nat ∧
    ∀ l, l ≠ 1%nat → grids st' !! l = grids oneCellState !! l.
Proof.
  eexists. split.
  - vm_compute. reflexivity.
  - apply (proj1 (proj2 (proj2 solve_leaves_source_unchanged))
             oneCellState _ 0%nat 1%nat (1 # 4) 1 rightSolid
             (constantField (-1))).
    + lia.
    + vm_compute. reflexivity.
Defined.

(** C9 as stated fails when the caller passes the source itself as the
    destination: the call on the ramp 0, 1 with every sample Fluid
    returns, and the first sample of the source grid has become 1/4. *)
Lemma solve_in_place_overwrites_source :
  ∃ st' g' v,
    solve_scalar 0%nat (1 # 4) 1 0%nat (constantField 1) (constantField (-1))
      rampState = Some st' ∧
    (∃ g, grids rampState !! 0%nat = Some g ∧ getAt (data g) 0 0 0 = Some 0) ∧
    grids st' !! 0%nat = Some g' ∧
    getAt (data g') 0 0 0 = Some v ∧
    v == 1 # 4 ∧ ¬ v == 0.
Proof.
  eexists _, _, _.
  split; [vm_compute; reflexivity|].
  split; [eexists; split; vm_compute; reflexivity|].
  split; [vm_compute; reflexivity|].
  split; [vm_compute; reflexivity|].
  split; [vm_compute; reflexivity|].
  intros Heq. vm_compute in Heq. discriminate Heq.
Qed.

(** ** The index set of the third pass *)

Lemma forEach_fails {S} (P : S → Prop) (f : nat → nat → nat → S → option S)
  (l : list Index3) (i j k : nat) :
  (i, j, k) ∈ l →
  (∀ st, P st → f i j k st = None) →
  (∀ i' j' k' st st', P st → f i' j' k' st = Some st' → P st') →
  ∀ st, P st → forEach l f st = None.
Proof.
  intros Hin Hfail Hkeep.
  induction l as [|[[i' j'] k'] l IH]; intros st HP; [inversion Hin|].
  simpl. destruct (f i' j' k' st) as [st1|] eqn:Hf; [|reflexivity].
  simpl. apply elem_of_cons in Hin as [[= -> -> ->]|Hin].
  - rewrite (Hfail st HP) in Hf. discriminate.
  - apply (IH Hin). exact (Hkeep i' j' k' st st1 HP Hf).
Qed.

(** The third loop ranges over the u indices but accesses the w views:
    on a staggered grid with cells along y and z, the index
    (rx, 0, 0) is a u index and no w index, and unless that sample is
    skipped as inside the boundary, the pass reads out of bounds. *)
Lemma solveW_out_of_bounds (st : State FaceCenteredGrid3) source dest
  (g : FaceCenteredGrid3) c dt boundarySdf fluidSdf :
  grids st !! source = Some g →
  staggered g →
  (0 < sy (faceResolution g))%nat →
  (0 < sz (faceResolution g))%nat →
  isInsideSdf (boundarySdf (wPosition g (sx (faceResolution g)) 0 0)) = false →
  solveW source c dt dest boundarySdf fluidSdf st = None.
Proof.
  intros Hsrc (Hu & _ & Hw) Hy Hz Hout.
  unfold solveW, rebuildMarkers. rewrite Hsrc. simpl.
  destruct (buildMarkers_spec (wSize g) (wPosition g) boundarySdf fluidSdf
              (_markers st)) as (M & HbM & _).
  rewrite HbM. simpl. unfold forEachIndex.
  apply (forEach_fails
           (λ s, ∃ g', grids s !! source = Some g' ∧
                       size3 (wData g') = wSize g)
           _ _ (sx (faceResolution g)) 0 0).
  - apply elem_of_indices, inBounds_spec. rewrite Hu. simpl. lia.
  - intros s (g' & Hg' & Hsz). unfold solveFaceSample.
    rewrite Hout. simpl. rewrite Hg'. simpl.
    rewrite getAt_None; [reflexivity|]. simpl. rewrite Hsz, Hw.
    unfold inBounds. simpl. now rewrite Nat.ltb_irrefl.
  - intros i j k s s' (g' & Hg' & Hsz) Hstep.
    unfold solveFaceSample in Hstep.
    destruct (negb (isInsideSdf (boundarySdf (wPosition g i j k))));
      [|injection Hstep as <-; eauto].
    rewrite Hg' in Hstep. simpl in Hstep.
    destruct (getAt (wData g') i j k) as [x|]; [|discriminate].
    simpl in Hstep.
    destruct (laplacian3 (wData g') (faceGridSpacing g) i j k) as [lp|];
      [|discriminate].
    simpl in Hstep. unfold writeView in Hstep.
    destruct (grids s !! dest) as [gd|] eqn:Hgd; [|discriminate].
    simpl in Hstep. unfold setAt in Hstep.
    destruct (inBounds (size3 (wData gd)) i j k); [|discriminate].
    injection Hstep as <-. simpl.
    destruct (decide (source = dest)) as [->|Hne].
    + rewrite lookup_insert_eq. eexists. split; [reflexivity|]. simpl.
      rewrite Hg' in Hgd. injection Hgd as <-. exact Hsz.
    + rewrite lookup_insert_ne by congruence. eauto.
  - exists g. split; [exact Hsrc|reflexivity].
Qed.

Lemma solve_face_out_of_bounds (st : State FaceCenteredGrid3) source dest
  (g : FaceCenteredGrid3) c dt boundarySdf fluidSdf :
  grids st !! source = Some g →
  source ≠ dest →
  staggered g →
  (0 < sy (faceResolution g))%nat →
  (0 < sz (faceResolution g))%nat →
  isInsideSdf (boundarySdf (wPosition g (sx (faceResolution g)) 0 0)) = false →
  solve_face source c dt dest boundarySdf fluidSdf st = None.
Proof.
  intros Hsrc Hne Hst Hy Hz Hout. unfold solve_face.
  destruct (solveU source c dt dest boundarySdf fluidSdf st)
    as [st1|] eqn:HU; [simpl|reflexivity].
  destruct (solveV source c dt dest boundarySdf fluidSdf st1)
    as [st2|] eqn:HV; [simpl|reflexivity].
  apply (solveW_out_of_bounds st2 source dest g); try assumption.
  rewrite (solveV_frame _ _ _ _ _ _ _ _ HV source Hne).
  rewrite (solveU_frame _ _ _ _ _ _ _ _ HU source Hne).
  exact Hsrc.
Qed.

(** C10 fails on the code.  On a staggered grid of one cell with no
    boundary, the u and the v pass return, and the third pass, which
    ranges over the u indices, reaches (1, 0, 0): a u index that is out
    of bounds for the w views.  The checked access fails and with it the
    call. *)
Theorem solve_face_one_cell_out_of_bounds :
  staggered oneCellSource ∧
  inBounds (uSize oneCellSource) 1 0 0 = true ∧
  inBounds (wSize oneCellSource) 1 0 0 = false ∧
  getAt (wData oneCellSource) 1 0 0 = None ∧
  (∃ st1 st2,
     solveU 0%nat (1 # 4) 1 1%nat (constantField 1) (constantField (-1))
       oneCellState = Some st1 ∧
     solveV 0%nat (1 # 4) 1 1%nat (constantField 1) (constantField (-1))
       st1 = Some st2 ∧
     solveW 0%nat (1 # 4) 1 1%nat (constantField 1) (constantField (-1))
       st2 = None) ∧
  solve_face 0%nat (1 # 4) 1 1%nat (constantField 1) (constantField (-1))
    oneCellState = None.
Proof.
  split; [repeat split|].
  split; [reflexivity|]. split; [reflexivity|]. split; [reflexivity|].
  split.
  - eexists _, _.
    split; [vm_compute; reflexivity|].
    split; [vm_compute; reflexivity|].
    vm_compute. reflexivity.
  - vm_compute. reflexivity.
Qed.

(** ** Sums *)

Lemma sumOver_ext {A} (l : list A) (f g : A → Q) :
  (∀ x, x ∈ l → f x == g x) → sumOver l f == sumOver l g.
Proof.
  induction l as [|x l IH]; intros Hfg; simpl; [reflexivity|].
  rewrite (Hfg x) by now left.
  rewrite IH; [reflexivity|]. intros y Hy. apply Hfg. now right.
Qed.

Lemma sumOver_plus {A} (l : list A) (f g : A → Q) :
  sumOver l (λ x, f x + g x) == sumOver l f + sumOver l g.
Proof.
  induction l as [|x l IH]; simpl; [reflexivity|]. rewrite IH. ring.
Qed.

Lemma sumOver_scale {A} (l : list A) (c : Q) (f : A → Q) :
  sumOver l (λ x, c * f x) == c * sumOver l f.
Proof.
  induction l as [|x l IH]; simpl; [ring|]. rewrite IH. ring.
Qed.

Lemma sumOver_div {A} (l : list A) (h : Q) (f : A → Q) :
  sumOver l (λ x, f x / h) == sumOver l f / h.
Proof.
  induction l as [|x l IH]; simpl; [unfold Qdiv; ring|].
  rewrite IH. unfold Qdiv. ring.
Qed.

Lemma sumOver_zero {A} (l : list A) (f : A → Q) :
  (∀ x, x ∈ l → f x == 0) → sumOver l f == 0.
Proof.
  induction l as [|x l IH]; intros Hf; simpl; [reflexivity|].
  rewrite (Hf x) by now left.
  rewrite IH; [ring|]. intros y Hy. apply Hf. now right.
Qed.

Lemma sumOver_app {A} (l1 l2 : list A) (f : A → Q) :
  sumOver (l1 ++ l2) f == sumOver l1 f + sumOver l2 f.
Proof.
  induction l1 as [|x l1 IH]; simpl; [ring|]. rewrite IH. ring.
Qed.

Lemma sumOver_singleton {A} (x : A) (f : A → Q) : sumOver [x] f == f x.
Proof. simpl. ring. Qed.

Lemma sumOver_swap {A B} (l1 : list A) (l2 : list B) (f : A → B → Q) :
  sumOver l1 (λ x, sumOver l2 (λ y, f x y))
  == sumOver l2 (λ y, sumOver l1 (λ x, f x y)).
Proof.
  induction l1 as [|x l1 IH]; simpl.
  - symmetry. apply sumOver_zero. reflexivity.
  - rewrite IH. now rewrite <- sumOver_plus.
Qed.

Lemma sum3_ext (s : Vector3UZ) (f g : nat → nat → nat → Q) :
  (∀ i j k, inBounds s i j k = true → f i j k == g i j k) →
  sum3 s f == sum3 s g.
Proof.
  intros Hfg. unfold sum3.
  apply sumOver_ext. intros k Hk. apply sumOver_ext. intros j Hj.
  apply sumOver_ext. intros i Hi. apply Hfg, inBounds_spec.
  apply elem_of_seq in Hk, Hj, Hi. lia.
Qed.

Lemma sum3_plus (s : Vector3UZ) (f g : nat → nat → nat → Q) :
  sum3 s (λ i j k, f i j k + g i j k) == sum3 s f + sum3 s g.
Proof.
  unfold sum3. rewrite <- sumOver_plus.
  apply sumOver_ext. intros k _. rewrite <- sumOver_plus.
  apply sumOver_ext. intros j _. apply sumOver_plus.
Qed.

Lemma sum3_scale (s : Vector3UZ) (c : Q) (f : nat → nat → nat → Q) :
  sum3 s (λ i j k, c * f i j k) == c * sum3 s f.
Proof.
  unfold sum3. rewrite <- sumOver_scale.
  apply sumOver_ext. intros k _. rewrite <- sumOver_scale.
  apply sumOver_ext. intros j _. apply sumOver_scale.
Qed.

Lemma sum3_div (s : Vector3UZ) (h : Q) (f : nat → nat → nat → Q) :
  sum3 s (λ i j k, f i j k / h) == sum3 s f / h.
Proof.
  unfold sum3. rewrite <- sumOver_div.
  apply sumOver_ext. intros k _. rewrite <- sumOver_div.
  apply sumOver_ext. intros j _. apply sumOver_div.
Qed.

(** The one-sided differences along a line of [n] samples cancel in the
    sum: what a sample gains from its right neighbor, the neighbor
    loses to its left. *)
Lemma sum_left_differences (v : nat → Q) (m : nat) :
  sumOver (seq 0 m)
    (λ i, if (0 <? i)%nat then v i - v (i - 1)%nat else 0)
  == v (m - 1)%nat - v 0%nat.
Proof.
  induction m as [|m IH].
  - simpl. ring.
  - rewrite seq_S, sumOver_app, IH, sumOver_singleton.
    change (0 + m)%nat with m.
    destruct m as [|m]; simpl; [ring|]. rewrite Nat.sub_0_r. ring.
Qed.

Lemma sum_right_differences (v : nat → Q) (n m : nat) :
  (m ≤ n)%nat →
  sumOver (seq 0 m)
    (λ i, if (i + 1 <? n)%nat then v (i + 1)%nat - v i else 0)
  == v (Nat.min m (n - 1)) - v 0%nat.
Proof.
  induction m as [|m IH]; intros Hm.
  - simpl. ring.
  - rewrite seq_S, sumOver_app, IH, sumOver_singleton by lia.
    change (0 + m)%nat with m.
    destruct (Nat.ltb_spec (m + 1) n) as [Hlt|Hge].
    + rewrite (Nat.min_l m) by lia. rewrite Nat.min_l by lia.
      replace (m + 1)%nat with (S m) by lia. ring.
    + rewrite (Nat.min_l m) by lia. rewrite Nat.min_r by lia.
      replace (n - 1)%nat with m by lia. ring.
Qed.

Lemma sum_differences_cancel (v : nat → Q) (n : nat) :
  sumOver (seq 0 n)
    (λ i, (if (i + 1 <? n)%nat then v (i + 1)%nat - v i else 0)
          - (if (0 <? i)%nat then v i - v (i - 1)%nat else 0))
  == 0.
Proof.
  assert (E : ∀ l (f g : nat → Q),
            sumOver l (λ i, f i - g i) == sumOver l f - sumOver l g).
  { intros l f g. induction l as [|x l IH]; simpl; [ring|].
    rewrite IH. ring. }
  rewrite E, sum_left_differences, sum_right_differences by lia.
  rewrite Nat.min_r by lia. ring.
Qed.

(** ** Conservation on a grid of Fluid samples *)

(** With every sample marked Fluid the marker-aware Laplacian is the
    plain one. *)
Lemma laplacianAt_all_fluid (data : Array3 Q) (M : Array3 Z) (h : Vector3D)
  (i j k : nat) :
  inBounds (size3 data) i j k = true →
  (∀ i j k, inBounds (size3 data) i j k = true → cells M i j k = kFluid) →
  laplacianAt data M h i j k = laplacian3At data h i j k.
Proof.
  intros Hb HM. apply inBounds_spec in Hb as (Hi & Hj & Hk).
  assert (E : ∀ (b : bool) i' j' k' (x : Q),
            (b = true → (i' < sx (size3 data) ∧ j' < sy (size3 data)
                         ∧ k' < sz (size3 data))%nat) →
            fluidDiffAt M b i' j' k' x = if b then x else 0).
  { intros [|] i' j' k' x Hin; [|reflexivity]. unfold fluidDiffAt.
    rewrite HM by (apply inBounds_spec; now apply Hin). reflexivity. }
  unfold laplacianAt, laplacian3At. cbv zeta.
  rewrite !E; [reflexivity|..]; intros Hbt; apply Nat.ltb_lt in Hbt; lia.
Qed.

(** The plain Laplacian sums to zero over the grid. *)
Lemma laplacian3At_sums_to_zero (data : Array3 Q) (h : Vector3D) :
  sum3 (size3 data) (laplacian3At data h) == 0.
Proof.
  set (s := size3 data).
  set (X := λ i j k : nat,
         (if (i + 1 <? sx s)%nat
          then cells data (i + 1) j k - cells data i j k else 0)
         - (if (0 <? i)%nat
            then cells data i j k - cells data (i - 1) j k else 0)).
  set (Y := λ i j k : nat,
         (if (j + 1 <? sy s)%nat
          then cells data i (j + 1) k - cells data i j k else 0)
         - (if (0 <? j)%nat
            then cells data i j k - cells data i (j - 1) k else 0)).
  set (Z := λ i j k : nat,
         (if (k + 1 <? sz s)%nat
          then cells data i j (k + 1) - cells data i j k else 0)
         - (if (0 <? k)%nat
            then cells data i j k - cells data i j (k - 1) else 0)).
  change (sum3 s (λ i j k, X i j k / square (vx h) + Y i j k / square (vy h)
                           + Z i j k / square (vz h)) == 0).
  rewrite (sum3_plus s
             (λ i j k, X i j k / square (vx h) + Y i j k / square (vy h))
             (λ i j k, Z i j k / square (vz h))).
  rewrite (sum3_plus s (λ i j k, X i j k / square (vx h))
             (λ i j k, Y i j k / square (vy h))).
  rewrite !sum3_div.
  assert (HX : sum3 s X == 0).
  { unfold sum3. apply sumOver_zero. intros k _.
    apply sumOver_zero. intros j _.
    apply (sum_differences_cancel (λ i, cells data i j k)). }
  assert (HY : sum3 s Y == 0).
  { unfold sum3. apply sumOver_zero. intros k _.
    rewrite sumOver_swap. apply sumOver_zero. intros i _.
    apply (sum_differences_cancel (λ j, cells data i j k)). }
  assert (HZ : sum3 s Z == 0).
  { unfold sum3. rewrite sumOver_swap. apply sumOver_zero. intros j _.
    rewrite sumOver_swap. apply sumOver_zero. intros i _.
    apply (sum_differences_cancel (λ k, cells data i j k)). }
  rewrite HX, HY, HZ. unfold Qdiv. ring.
Qed.

(** C6.  One step of the scalar overload on a grid whose samples are all
    marked Fluid conserves the sum of all samples, for any
    diffusionCoefficient and dt, in exact arithmetic. *)
Theorem diffusion_conserves_total (st : State ScalarGrid3) source dest
  (g d : ScalarGrid3) diffusionCoefficient dt boundarySdf fluidSdf :
  grids st !! source = Some g →
  grids st !! dest = Some d →
  source ≠ dest →
  collocated g →
  dataSize d = dataSize g →
  (∀ i j k, inBounds (dataSize g) i j k = true →
     markerAt boundarySdf fluidSdf (dataPosition g i j k) = kFluid) →
  ∃ st' d',
    solve_scalar source diffusionCoefficient dt dest boundarySdf fluidSdf st
      = Some st' ∧
    grids st' !! dest = Some d' ∧
    (∀ i j k, inBounds (dataSize g) i j k = true →
       getAt (_markers st') i j k = Some kFluid) ∧
    dataSize d' = dataSize g ∧
    total (data d') == total (data g).
Proof.
  intros Hsrc Hdst Hne Hcol Hsize Hfluid.
  assert (Hfit : fitsIn (dataSize g) (dataSize d))
    by (rewrite Hsize; unfold fitsIn; lia).
  destruct (solve_separate st source dest g d diffusionCoefficient dt
              boundarySdf fluidSdf Hsrc Hdst Hne Hcol Hfit)
    as (M & a' & Hrun & HszM & HM & Hsz & Hin & Hout).
  assert (HMf : ∀ i j k, inBounds (dataSize g) i j k = true →
            cells M i j k = kFluid).
  { intros i j k Hb. rewrite HM by now rewrite <- Hcol. now apply Hfluid. }
  eexists _, (withData d a'). split; [exact Hrun|].
  split; [simpl; apply lookup_insert_eq|]. simpl.
  split; [|split].
  - intros i j k Hb. rewrite getAt_Some by now rewrite HszM, <- Hcol.
    f_equal. now apply HMf.
  - unfold dataSize. simpl. now rewrite Hsz.
  - unfold total. rewrite Hsz, Hsize. unfold dataSize.
    rewrite (sum3_ext (size3 (data g)) (cells a')
               (λ i j k, cells (data g) i j k
                         + diffusionCoefficient * dt
                           * laplacian3At (data g) (gridSpacing g) i j k)).
    + rewrite (sum3_plus (size3 (data g)) (cells (data g))
                 (λ i j k, diffusionCoefficient * dt
                           * laplacian3At (data g) (gridSpacing g) i j k)).
      rewrite (sum3_scale (size3 (data g)) (diffusionCoefficient * dt)
                 (laplacian3At (data g) (gridSpacing g))).
      rewrite laplacian3At_sums_to_zero. ring.
    + intros i j k Hb. rewrite (Hin i j k Hb). unfold updatedValue.
      rewrite (HMf i j k Hb). simpl (kFluid =? kFluid)%Z. cbv iota.
      rewrite laplacianAt_all_fluid by assumption. reflexivity.
Qed.

Lemma diffusion_conserves_total_witness :
  ∃ st' d',
    solve_scalar 0%nat (1 # 10) (49 # 10) 1%nat
      (constantField 1) (constantField (-1))
      (twoGrids (scalarGrid (rampData (mkVector3UZ 2 2 2)))
                (scalarGrid (constantData (mkVector3UZ 2 2 2) 0)))
      = Some st' ∧
    grids st' !! 1%nat = Some d' ∧
    (∀ i j k, inBounds (mkVector3UZ 2 2 2) i j k = true →
       getAt (_markers st') i j k = Some kFluid) ∧
    dataSize d' = mkVector3UZ 2 2 2 ∧
    total (data d') == total (rampData (mkVector3UZ 2 2 2)).
Proof.
  apply (diffusion_conserves_total
           (twoGrids (scalarGrid (rampData (mkVector3UZ 2 2 2)))
                     (scalarGrid (constantData (mkVector3UZ 2 2 2) 0)))
           0%nat 1%nat
           (scalarGrid (rampData (mkVector3UZ 2 2 2)))
           (scalarGrid (constantData (mkVector3UZ 2 2 2) 0))
           (1 # 10) (49 # 10) (constantField 1) (constantField (-1))).
  - reflexivity.
  - reflexivity.
  - lia.
  - reflexivity.
  - reflexivity.
  - intros i j k _. reflexivity.
Defined.

(** ** The stability scenario on a line *)

Lemma minimum_le (l : list Q) (x : Q) : x ∈ l → minimum l <= x.
Proof.
  destruct l as [|y l]; [intros Hin; inversion Hin|]. simpl.
  revert x. induction l as [|z l IH]; intros x Hin.
  - apply list_elem_of_singleton in Hin as ->. simpl. apply Qle_refl.
  - simpl. apply elem_of_cons in Hin as [->|Hin].
    + eapply Qle_trans; [apply Q.le_min_r|]. apply IH. now left.
    + apply elem_of_cons in Hin as [->|Hin].
      * apply Q.le_min_l.
      * eapply Qle_trans; [apply Q.le_min_r|]. apply IH. now right.
Qed.

Lemma le_maximum (l : list Q) (x : Q) : x ∈ l → x <= maximum l.
Proof.
  destruct l as [|y l]; [intros Hin; inversion Hin|]. simpl.
  revert x. induction l as [|z l IH]; intros x Hin.
  - apply list_elem_of_singleton in Hin as ->. simpl. apply Qle_refl.
  - simpl. apply elem_of_cons in Hin as [->|Hin].
    + eapply Qle_trans; [|apply Q.le_max_r]. apply IH. now left.
    + apply elem_of_cons in Hin as [->|Hin].
      * apply Q.le_max_l.
      * eapply Qle_trans; [|apply Q.le_max_r]. apply IH. now right.
Qed.

Lemma sample_in_samples (a : Array3 Q) (i j k : nat) :
  inBounds (size3 a) i j k = true → cells a i j k ∈ samples a.
Proof.
  intros Hb. unfold samples.
  apply (list_elem_of_fmap_2'
           (λ idx : Index3, let '(i, j, k) := idx in cells a i j k)
           _ (i, j, k)); [|reflexivity].
  now apply elem_of_indices.
Qed.

(** One explicit step along a line: each new value is a convex
    combination of a sample and its neighbors as long as the factor lies
    between 0 and 1/2, so it stays between any bounds of the samples. *)
Lemma line_step_bounds (a lo hi : Q) (v : nat → Q) (n i : nat) :
  0 <= a → a <= 1 # 2 →
  (∀ i', (i' < n)%nat → lo <= v i' <= hi) →
  (i < n)%nat →
  lo <= v i + a * ((if (i + 1 <? n)%nat then v (i + 1)%nat - v i else 0)
                   - (if (0 <? i)%nat then v i - v (i - 1)%nat else 0))
     <= hi.
Proof.
  intros Ha0 Ha1 Hv Hi.
  pose proof (Hv i Hi) as Hx.
  destruct (Nat.ltb_spec (i + 1) n) as [Hr|Hr];
    destruct (Nat.ltb_spec 0 i) as [Hl|Hl].
  - pose proof (Hv (i + 1)%nat Hr) as Hxr.
    assert (Hxl : lo <= v (i - 1)%nat <= hi) by (apply Hv; lia).
    split; nra.
  - pose proof (Hv (i + 1)%nat Hr) as Hxr. split; nra.
  - assert (Hxl : lo <= v (i - 1)%nat <= hi) by (apply Hv; lia).
    split; nra.
  - split; nra.
Qed.

Lemma laplacian3At_line (data : Array3 Q) (h : Vector3D) (n i : nat) :
  size3 data = mkVector3UZ n 1 1 →
  vx h == 1 → vy h == 1 → vz h == 1 →
  laplacian3At data h i 0 0
  == (if (i + 1 <? n)%nat then cells data (i + 1) 0 0 - cells data i 0 0
      else 0)
     - (if (0 <? i)%nat then cells data i 0 0 - cells data (i - 1) 0 0
        else 0).
Proof.
  intros Hsz Hx Hy Hz. unfold laplacian3At, square. rewrite Hsz. simpl.
  rewrite Hx, Hy, Hz. unfold Qdiv.
  assert (E : / (1 * 1) == 1) by reflexivity.
  rewrite E. ring.
Qed.

(** The bound of the stability scenario, for any source and destination. *)
Lemma line_step_in_range (st : State ScalarGrid3) source dest
  (g d : ScalarGrid3) diffusionCoefficient dt boundarySdf fluidSdf (n : nat) :
  grids st !! source = Some g →
  grids st !! dest = Some d →
  source ≠ dest →
  collocated g →
  dataSize g = mkVector3UZ n 1 1 →
  fitsIn (dataSize g) (dataSize d) →
  vx (gridSpacing g) == 1 → vy (gridSpacing g) == 1 → vz (gridSpacing g) == 1 →
  (∀ i j k, inBounds (dataSize g) i j k = true →
     markerAt boundarySdf fluidSdf (dataPosition g i j k) = kFluid) →
  0 <= diffusionCoefficient * dt →
  diffusionCoefficient * dt <= 49 # 100 →
  ∃ st' d',
    solve_scalar source diffusionCoefficient dt dest boundarySdf fluidSdf st
      = Some st' ∧
    grids st' !! dest = Some d' ∧
    ∀ i, (i < n)%nat →
      ∃ v, getAt (data d') i 0 0 = Some v ∧
           minimum (samples (data g)) <= v <= maximum (samples (data g)).
Proof.
  intros Hsrc Hdst Hne Hcol Hline Hfit Hx Hy Hz Hfluid Ha0 Ha1.
  destruct (solve_separate st source dest g d diffusionCoefficient dt
              boundarySdf fluidSdf Hsrc Hdst Hne Hcol Hfit)
    as (M & a' & Hrun & HszM & HM & Hsz & Hin & Hout).
  assert (HMf : ∀ i j k, inBounds (dataSize g) i j k = true →
            cells M i j k = kFluid).
  { intros i j k Hb. rewrite HM by now rewrite <- Hcol. now apply Hfluid. }
  eexists _, (withData d a'). split; [exact Hrun|].
  split; [simpl; apply lookup_insert_eq|]. simpl.
  intros i Hi.
  assert (Hb : inBounds (dataSize g) i 0 0 = true).
  { apply inBounds_spec. rewrite Hline. simpl. lia. }
  exists (cells a' i 0 0). split.
  { apply getAt_Some. rewrite Hsz.
    apply inBounds_spec in Hb. apply inBounds_spec.
    unfold fitsIn in Hfit. lia. }
  rewrite (Hin i 0%nat 0%nat Hb). unfold updatedValue.
  rewrite (HMf i 0%nat 0%nat Hb). simpl (kFluid =? kFluid)%Z. cbv iota.
  rewrite laplacianAt_all_fluid by assumption.
  change (minimum (samples (data g))
          <= cells (data g) i 0 0
             + diffusionCoefficient * dt
               * laplacian3At (data g) (gridSpacing g) i 0 0
          <= maximum (samples (data g))).
  rewrite (laplacian3At_line (data g) (gridSpacing g) n i Hline Hx Hy Hz).
  apply (line_step_bounds (diffusionCoefficient * dt) _ _
           (λ i', cells (data g) i' 0 0) n i); try assumption.
  - eapply Qle_trans; [exact Ha1|]. discriminate.
  - intros i' Hi'.
    assert (Hb' : inBounds (size3 (data g)) i' 0 0 = true).
    { apply inBounds_spec. unfold dataSize in Hline. rewrite Hline.
      simpl. lia. }
    split.
    + apply minimum_le. now apply sample_in_samples.
    + apply le_maximum. now apply sample_in_samples.
Qed.

(** C7, as amended.  On a line of N x 1 x 1 samples with unit spacing,
    all marked Fluid, and 0 <= diffusionCoefficient * dt <= 0.49, every
    value the scalar overload writes lies between the minimum and the
    maximum of the source samples.  The call neither enforces nor clamps
    the bound: on the line 0, 1 with diffusionCoefficient * dt = 2 it
    returns with the first output at 2, above the maximum 1 of the
    input. *)
Theorem explicit_step_stays_in_range :
  (∀ (st : State ScalarGrid3) source dest (g d : ScalarGrid3)
     diffusionCoefficient dt boundarySdf fluidSdf (n : nat),
     grids st !! source = Some g →
     grids st !! dest = Some d →
     source ≠ dest →
     collocated g →
     dataSize g = mkVector3UZ n 1 1 →
     fitsIn (dataSize g) (dataSize d) →
     vx (gridSpacing g) == 1 → vy (gridSpacing g) == 1 →
     vz (gridSpacing g) == 1 →
     (∀ i j k, inBounds (dataSize g) i j k = true →
        markerAt boundarySdf fluidSdf (dataPosition g i j k) = kFluid) →
     0 <= diffusionCoefficient * dt →
     diffusionCoefficient * dt <= 49 # 100 →
     ∃ st' d',
       solve_scalar source diffusionCoefficient dt dest boundarySdf fluidSdf st
         = Some st' ∧
       grids st' !! dest = Some d' ∧
       ∀ i, (i < n)%nat →
         ∃ v, getAt (data d') i 0 0 = Some v ∧
              minimum (samples (data g)) <= v <= maximum (samples (data g))) ∧
  (∃ st' d' v,
     solve_scalar 0%nat 2 1 1%nat (constantField 1) (constantField (-1))
       rampState = Some st' ∧
     grids st' !! 1%nat = Some d' ∧
     getAt (data d') 0 0 0 = Some v ∧
     v == 2 ∧
     maximum (samples (rampData (mkVector3UZ 2 1 1))) < v).
Proof.
  split.
  - exact line_step_in_range.
  - eexists _, _, _.
    split; [vm_compute; reflexivity|].
    split; [vm_compute; reflexivity|].
    split; [vm_compute; reflexivity|].
    split; [vm_compute; reflexivity|].
    vm_compute. reflexivity.
Qed.

Lemma explicit_step_stays_in_range_witness :
  ∃ st' d',
    solve_scalar 0%nat (1 # 10) (49 # 10) 1%nat
      (constantField 1) (constantField (-1))
      (twoGrids (scalarGrid (rampData (mkVector3UZ 3 1 1)))
                (scalarGrid (constantData (mkVector3UZ 3 1 1) 0)))
      = Some st' ∧
    grids st' !! 1%nat = Some d' ∧
    ∀ i, (i < 3)%nat →
      ∃ v, getAt (data d') i 0 0 = Some v ∧
           minimum (samples (rampData (mkVector3UZ 3 1 1))) <= v
           <= maximum (samples (rampData (mkVector3UZ 3 1 1))).
Proof.
  apply (proj1 explicit_step_stays_in_range
           (twoGrids (scalarGrid (rampData (mkVector3UZ 3 1 1)))
                     (scalarGrid (constantData (mkVector3UZ 3 1 1) 0)))
           0%nat 1%nat
           (scalarGrid (rampData (mkVector3UZ 3 1 1)))
           (scalarGrid (constantData (mkVector3UZ 3 1 1) 0))
           (1 # 10) (49 # 10) (constantField 1) (constantField (-1)) 3%nat).
  - reflexivity.
  - reflexivity.
  - lia.
  - reflexivity.
  - reflexivity.
  - unfold fitsIn. simpl. lia.
  - reflexivity.
  - reflexivity.
  - reflexivity.
  - intros i j k _. reflexivity.
  - vm_compute. discriminate.
  - vm_compute. discriminate.
Defined.

(** C7 as stated fails: its only condition on the factor is the upper
    bound, and nothing rejects a negative one.  On the line 0, 1 with
    unit spacing and both samples Fluid, diffusionCoefficient = -1 and
    dt = 1 satisfy diffusionCoefficient * dt <= 0.49, and the first
    output is -1, below the minimum 0 of the input. *)
Lemma negative_factor_leaves_range :
  ∃ st' d' v,
    solve_scalar 0%nat (-1) 1 1%nat (constantField 1) (constantField (-1))
      rampState = Some st' ∧
    grids st' !! 1%nat = Some d' ∧
    -1 * 1 <= 49 # 100 ∧
    getAt (_markers st') 0 0 0 = Some kFluid ∧
    getAt (_markers st') 1 0 0 = Some kFluid ∧
    minimum (samples (rampData (mkVector3UZ 2 1 1))) == 0 ∧
    getAt (data d') 0 0 0 = Some v ∧
    v == -1 ∧
    v < minimum (samples (rampData (mkVector3UZ 2 1 1))).
Proof.
  eexists _, _, _.
  split; [vm_compute; reflexivity|].
  split; [vm_compute; reflexivity|].
  split; [vm_compute; discriminate|].
  split; [vm_compute; reflexivity|].
  split; [vm_compute; reflexivity|].
  split; [vm_compute; reflexivity|].
  split; [vm_compute; reflexivity|].
  split; [vm_compute; reflexivity|].
  vm_compute. reflexivity.
Qed.

(** * Further properties of the code *)

(** ** laplacian: bounds, markers read, linearity *)

Section LaplacianBounds.
Context {T : Type} `{Quantity T}.
Local Open Scope quantity_scope.

Lemma laplacian_inside_fits (data : Array3 T) (marker : Array3 Z)
  (h : Vector3D) (i j k : nat) :
  inBounds (size3 data) i j k = true →
  fitsIn (size3 data) (size3 marker) →
  laplacian data marker h i j k = Some (laplacianAt data marker h i j k).
Proof.
  intros Hb Hfit. unfold laplacian, laplacianAt.
  rewrite (getAt_Some data i j k) by exact Hb. simpl.
  apply inBounds_spec in Hb as (Hi & Hj & Hk). unfold fitsIn in Hfit.
  rewrite (fluidDifference_inside marker data _ (i - 1) j k
             (λ n, cells data i j k ⊖ n)); simpl.
  2:{ rewrite !inBounds_spec, Nat.ltb_lt. lia. }
  rewrite (fluidDifference_inside marker data _ (i + 1) j k
             (λ n, n ⊖ cells data i j k)); simpl.
  2:{ rewrite !inBounds_spec, Nat.ltb_lt. lia. }
  rewrite (fluidDifference_inside marker data _ i (j - 1) k
             (λ n, cells data i j k ⊖ n)); simpl.
  2:{ rewrite !inBounds_spec, Nat.ltb_lt. lia. }
  rewrite (fluidDifference_inside marker data _ i (j + 1) k
             (λ n, n ⊖ cells data i j k)); simpl.
  2:{ rewrite !inBounds_spec, Nat.ltb_lt. lia. }
  rewrite (fluidDifference_inside marker data _ i j (k - 1)
             (λ n, cells data i j k ⊖ n)); simpl.
  2:{ rewrite !inBounds_spec, Nat.ltb_lt. lia. }
  rewrite (fluidDifference_inside marker data _ i j (k + 1)
             (λ n, n ⊖ cells data i j k)); simpl.
  2:{ rewrite !inBounds_spec, Nat.ltb_lt. lia. }
  reflexivity.
Qed.

(** X1.  When the marker array covers the extent of the data,
    [laplacian] returns a value exactly at the indices inside the data:
    inside, every read it makes is in bounds, and outside, the first
    read already fails. *)
Theorem laplacian_defined_iff_inside (data : Array3 T) (marker : Array3 Z)
  (h : Vector3D) (i j k : nat) :
  fitsIn (size3 data) (size3 marker) →
  (is_Some (laplacian data marker h i j k)
   ↔ inBounds (size3 data) i j k = true).
Proof.
  intros Hfit. split.
  - intros [l Hl]. unfold laplacian in Hl.
    destruct (getAt data i j k) as [c|] eqn:Hc; [|discriminate].
    now apply getAt_inv in Hc as [Hb _].
  - intros Hb. rewrite laplacian_inside_fits by assumption. eauto.
Qed.

Lemma fluidDifference_marker_ext (b : bool) (m m' : option Z)
  (diff : option T) :
  (b = true → m = m') →
  fluidDifference b m diff = fluidDifference b m' diff.
Proof. destruct b; [|reflexivity]. intros E. now rewrite E. Qed.

(** X2.  [laplacian] never reads the marker of the sample it is computed
    at: two marker arrays of the same extent that agree at every other
    index give the same result, failures included. *)
Theorem laplacian_ignores_center_marker (data : Array3 T)
  (M M' : Array3 Z) (h : Vector3D) (i j k : nat) :
  size3 M' = size3 M →
  (∀ i' j' k', (i', j', k') ≠ (i, j, k) →
     cells M' i' j' k' = cells M i' j' k') →
  laplacian data M' h i j k = laplacian data M h i j k.
Proof.
  intros Hsz Hother.
  assert (Hget : ∀ b i' j' k',
            (b = true → (i', j', k') ≠ (i, j, k)) →
            b = true → getAt M' i' j' k' = getAt M i' j' k').
  { intros b i' j' k' Hne Hb. apply getAt_ext; [exact Hsz|].
    apply Hother. now apply Hne. }
  unfold laplacian.
  destruct (getAt data i j k) as [center|]; [simpl|reflexivity].
  rewrite (fluidDifference_marker_ext (0 <? i)%nat
             (getAt M' (i - 1) j k) (getAt M (i - 1) j k)).
  2:{ apply Hget. intros Hb [= E]. apply Nat.ltb_lt in Hb. lia. }
  rewrite (fluidDifference_marker_ext (i + 1 <? sx (size3 data))%nat
             (getAt M' (i + 1) j k) (getAt M (i + 1) j k)).
  2:{ apply Hget. intros Hb [= E]. lia. }
  rewrite (fluidDifference_marker_ext (0 <? j)%nat
             (getAt M' i (j - 1) k) (getAt M i (j - 1) k)).
  2:{ apply Hget. intros Hb [= E]. apply Nat.ltb_lt in Hb. lia. }
  rewrite (fluidDifference_marker_ext (j + 1 <? sy (size3 data))%nat
             (getAt M' i (j + 1) k) (getAt M i (j + 1) k)).
  2:{ apply Hget. intros Hb [= E]. lia. }
  rewrite (fluidDifference_marker_ext (0 <? k)%nat
             (getAt M' i j (k - 1)) (getAt M i j (k - 1))).
  2:{ apply Hget. intros Hb [= E]. apply Nat.ltb_lt in Hb. lia. }
  rewrite (fluidDifference_marker_ext (k + 1 <? sz (size3 data))%nat
             (getAt M' i j (k + 1)) (getAt M i j (k + 1))).
  2:{ apply Hget. intros Hb [= E]. lia. }
  reflexivity.
Qed.
End LaplacianBounds.

Lemma fluidDiffAt_linear (M : Array3 Z) (b : bool) (i j k : nat)
  (alpha d1 d2 d3 : Q) :
  d3 == alpha * d1 + d2 →
  fluidDiffAt M b i j k d3
  == alpha * fluidDiffAt M b i j k d1 + fluidDiffAt M b i j k d2.
Proof.
  intros E. unfold fluidDiffAt.
  destruct (b && (cells M i j k =? kFluid)%Z); simpl; [exact E|ring].
Qed.

Lemma laplacianAt_linear (alpha : Q) (x y : Array3 Q) (M : Array3 Z)
  (h : Vector3D) (i j k : nat) :
  size3 y = size3 x →
  laplacianAt (axpy alpha x y) M h i j k
  == alpha * laplacianAt x M h i j k + laplacianAt y M h i j k.
Proof.
  intros Hsz. unfold laplacianAt. rewrite Hsz.
  change (size3 (axpy alpha x y)) with (size3 x).
  change (cells (axpy alpha x y)) with
    (λ i j k, alpha * cells x i j k + cells y i j k).
  cbv beta zeta.
  set (cx := cells x i j k). set (cy := cells y i j k).
  rewrite (fluidDiffAt_linear M _ (i - 1) j k alpha
             (cx - cells x (i - 1) j k) (cy - cells y (i - 1) j k))
    by (simpl; ring).
  rewrite (fluidDiffAt_linear M _ (i + 1) j k alpha
             (cells x (i + 1) j k - cx) (cells y (i + 1) j k - cy))
    by (simpl; ring).
  rewrite (fluidDiffAt_linear M _ i (j - 1) k alpha
             (cx - cells x i (j - 1) k) (cy - cells y i (j - 1) k))
    by (simpl; ring).
  rewrite (fluidDiffAt_linear M _ i (j + 1) k alpha
             (cells x i (j + 1) k - cx) (cells y i (j + 1) k - cy))
    by (simpl; ring).
  rewrite (fluidDiffAt_linear M _ i j (k - 1) alpha
             (cx - cells x i j (k - 1)) (cy - cells y i j (k - 1)))
    by (simpl; ring).
  rewrite (fluidDiffAt_linear M _ i j (k + 1) alpha
             (cells x i j (k + 1) - cx) (cells y i j (k + 1) - cy))
    by (simpl; ring).
  simpl. unfold Qdiv. ring.
Qed.

Lemma laplacian_defined_iff_inside_witness :
  is_Some (laplacian (rampData (mkVector3UZ 2 1 1))
             (fluidMarkers (mkVector3UZ 3 2 1)) unitSpacing 1 0 0)
  ↔ inBounds (mkVector3UZ 2 1 1) 1 0 0 = true.
Proof.
  apply (laplacian_defined_iff_inside (rampData (mkVector3UZ 2 1 1))
           (fluidMarkers (mkVector3UZ 3 2 1)) unitSpacing 1 0 0).
  unfold fitsIn. simpl. lia.
Defined.

Lemma laplacian_ignores_center_marker_witness :
  laplacian (rampData (mkVector3UZ 2 1 1))
    (mkArray3 (mkVector3UZ 2 1 1) (updCells (λ _ _ _, kFluid) 0 0 0 kAir))
    unitSpacing 0 0 0
  = laplacian (rampData (mkVector3UZ 2 1 1))
      (fluidMarkers (mkVector3UZ 2 1 1)) unitSpacing 0 0 0.
Proof.
  apply (laplacian_ignores_center_marker (rampData (mkVector3UZ 2 1 1))
           (fluidMarkers (mkVector3UZ 2 1 1))
           (mkArray3 (mkVector3UZ 2 1 1)
              (updCells (λ _ _ _, kFluid) 0 0 0 kAir))
           unitSpacing 0 0 0).
  - reflexivity.
  - intros i' j' k' Hne. simpl. now apply updCells_ne.
Defined.

(** X3.  For fixed markers [laplacian] is linear in the data: on the
    field alpha x + y it returns alpha times its value on x plus its
    value on y. *)
Theorem laplacian_linear (alpha : Q) (x y : Array3 Q) (M : Array3 Z)
  (h : Vector3D) (i j k : nat) :
  size3 y = size3 x →
  inBounds (size3 x) i j k = true →
  fitsIn (size3 x) (size3 M) →
  ∃ lx ly l,
    laplacian x M h i j k = Some lx ∧
    laplacian y M h i j k = Some ly ∧
    laplacian (axpy alpha x y) M h i j k = Some l ∧
    l == alpha * lx + ly.
Proof.
  intros Hsz Hb Hfit.
  exists (laplacianAt x M h i j k), (laplacianAt y M h i j k),
    (laplacianAt (axpy alpha x y) M h i j k).
  split; [now apply laplacian_inside_fits|].
  split; [apply laplacian_inside_fits; now rewrite Hsz|].
  split; [now apply laplacian_inside_fits|].
  now apply laplacianAt_linear.
Qed.

Lemma laplacian_linear_witness :
  ∃ lx ly l,
    laplacian (rampData (mkVector3UZ 2 2 2))
      (fluidMarkers (mkVector3UZ 2 2 2)) unitSpacing 0 1 1 = Some lx ∧
    laplacian (constantData (mkVector3UZ 2 2 2) 5)
      (fluidMarkers (mkVector3UZ 2 2 2)) unitSpacing 0 1 1 = Some ly ∧
    laplacian (axpy (3 # 2) (rampData (mkVector3UZ 2 2 2))
                 (constantData (mkVector3UZ 2 2 2) 5))
      (fluidMarkers (mkVector3UZ 2 2 2)) unitSpacing 0 1 1 = Some l ∧
    l == (3 # 2) * lx + ly.
Proof.
  apply (laplacian_linear (3 # 2) (rampData (mkVector3UZ 2 2 2))
           (constantData (mkVector3UZ 2 2 2) 5)
           (fluidMarkers (mkVector3UZ 2 2 2)) unitSpacing 0 1 1).
  - reflexivity.
  - reflexivity.
  - unfold fitsIn. simpl. lia.
Defined.

(** ** Conservation for any markers *)

Lemma sum_shift_up (w : nat → Q) (n m : nat) :
  (m ≤ n)%nat →
  sumOver (seq 0 m) (λ i, if (i + 1 <? n)%nat then w i else 0)
  == sumOver (seq 0 (Nat.min m (n - 1))) w.
Proof.
  induction m as [|m IH]; intros Hm.
  - simpl. reflexivity.
  - rewrite seq_S, sumOver_app, IH, sumOver_singleton by lia.
    change (0 + m)%nat with m.
    destruct (Nat.ltb_spec (m + 1) n) as [Hlt|Hge].
    + rewrite (Nat.min_l m), (Nat.min_l (S m)) by lia.
      rewrite seq_S, sumOver_app, sumOver_singleton. reflexivity.
    + rewrite (Nat.min_l m), (Nat.min_r (S m)) by lia.
      replace (n - 1)%nat with m by lia. ring.
Qed.

Lemma sum_shift_down (w : nat → Q) (m : nat) :
  sumOver (seq 0 m) (λ i, if (0 <? i)%nat then w (i - 1)%nat else 0)
  == sumOver (seq 0 (m - 1)) w.
Proof.
  induction m as [|m IH].
  - simpl. reflexivity.
  - rewrite seq_S, sumOver_app, IH, sumOver_singleton.
    change (0 + m)%nat with m.
    destruct m as [|m]; simpl (0 <? _)%nat; cbv iota.
    + simpl. ring.
    + replace (S m - 1)%nat with m by lia.
      replace (S (S m) - 1)%nat with (S m) by lia.
      rewrite (seq_S m 0), sumOver_app, sumOver_singleton. reflexivity.
Qed.

Lemma sumOver_minus {A} (l : list A) (f g : A → Q) :
  sumOver l (λ x, f x - g x) == sumOver l f - sumOver l g.
Proof.
  induction l as [|x l IH]; simpl; [ring|]. rewrite IH. ring.
Qed.

(** Along a line, the differences between neighboring Fluid samples
    cancel in the sum over the Fluid samples, whatever the markers. *)
Lemma masked_differences_cancel (m : nat → bool) (v : nat → Q) (n : nat) :
  sumOver (seq 0 n)
    (λ i, if m i
          then (if (i + 1 <? n)%nat && m (i + 1)%nat
                then v (i + 1)%nat - v i else 0)
               - (if (0 <? i)%nat && m (i - 1)%nat
                  then v i - v (i - 1)%nat else 0)
          else 0)
  == 0.
Proof.
  set (w := λ i : nat, if m i && m (i + 1)%nat
                       then v (i + 1)%nat - v i else 0).
  rewrite (sumOver_ext _ _
             (λ i, (if (i + 1 <? n)%nat then w i else 0)
                   - (if (0 <? i)%nat then w (i - 1)%nat else 0))).
  - rewrite sumOver_minus, sum_shift_up, sum_shift_down by lia.
    rewrite Nat.min_r by lia. ring.
  - intros i _. unfold w.
    destruct i as [|i].
    + simpl.
      destruct (m 0%nat), (1 <? n)%nat, (m 1%nat); simpl; ring.
    + replace (S i - 1)%nat with i by lia.
      replace (i + 1)%nat with (S i) by lia.
      change (0 <? S i)%nat with true. cbv iota.
      destruct (m (S i)), (S i + 1 <? n)%nat, (m (S i + 1)%nat), (m i);
        simpl; ring.
Qed.

(** The marker-aware Laplacian sums to zero over the Fluid samples. *)
Lemma masked_laplacian_sums_to_zero (data : Array3 Q) (M : Array3 Z)
  (h : Vector3D) :
  sum3 (size3 data)
    (λ i j k, if (cells M i j k =? kFluid)%Z
              then laplacianAt data M h i j k else 0)
  == 0.
Proof.
  set (s := size3 data).
  set (fl := λ i j k : nat, (cells M i j k =? kFluid)%Z).
  set (X := λ i j k : nat,
         if fl i j k
         then (if (i + 1 <? sx s)%nat && fl (i + 1)%nat j k
               then cells data (i + 1) j k - cells data i j k else 0)
              - (if (0 <? i)%nat && fl (i - 1)%nat j k
                 then cells data i j k - cells data (i - 1) j k else 0)
         else 0).
  set (Y := λ i j k : nat,
         if fl i j k
         then (if (j + 1 <? sy s)%nat && fl i (j + 1)%nat k
               then cells data i (j + 1) k - cells data i j k else 0)
              - (if (0 <? j)%nat && fl i (j - 1)%nat k
                 then cells data i j k - cells data i (j - 1) k else 0)
         else 0).
  set (Z := λ i j k : nat,
         if fl i j k
         then (if (k + 1 <? sz s)%nat && fl i j (k + 1)%nat
               then cells data i j (k + 1) - cells data i j k else 0)
              - (if (0 <? k)%nat && fl i j (k - 1)%nat
                 then cells data i j k - cells data i j (k - 1) else 0)
         else 0).
  rewrite (sum3_ext s _
             (λ i j k, X i j k / square (vx h) + Y i j k / square (vy h)
                       + Z i j k / square (vz h))).
  2:{ intros i j k _. unfold X, Y, Z, laplacianAt, fluidDiffAt.
      fold s. unfold fl. destruct (cells M i j k =? kFluid)%Z.
      - reflexivity.
      - unfold Qdiv. ring. }
  rewrite (sum3_plus s
             (λ i j k, X i j k / square (vx h) + Y i j k / square (vy h))
             (λ i j k, Z i j k / square (vz h))).
  rewrite (sum3_plus s (λ i j k, X i j k / square (vx h))
             (λ i j k, Y i j k / square (vy h))).
  rewrite !sum3_div.
  assert (HX : sum3 s X == 0).
  { unfold sum3. apply sumOver_zero. intros k _.
    apply sumOver_zero. intros j _.
    apply (masked_differences_cancel (λ i, fl i j k)
             (λ i, cells data i j k)). }
  assert (HY : sum3 s Y == 0).
  { unfold sum3. apply sumOver_zero. intros k _.
    rewrite sumOver_swap. apply sumOver_zero. intros i _.
    apply (masked_differences_cancel (λ j, fl i j k)
             (λ j, cells data i j k)). }
  assert (HZ : sum3 s Z == 0).
  { unfold sum3. rewrite sumOver_swap. apply sumOver_zero. intros j _.
    rewrite sumOver_swap. apply sumOver_zero. intros i _.
    apply (masked_differences_cancel (λ k, fl i j k)
             (λ k, cells data i j k)). }
  rewrite HX, HY, HZ. unfold Qdiv. ring.
Qed.

(** X4.  Whatever the markers, one step of the scalar overload conserves
    the sum of all samples, and also the sum of the samples marked
    Fluid: differences are exchanged between Fluid neighbors only, and
    the other samples are copied. *)
Theorem diffusion_conserves_total_any_markers (st : State ScalarGrid3)
  source dest (g d : ScalarGrid3) diffusionCoefficient dt
  boundarySdf fluidSdf :
  grids st !! source = Some g →
  grids st !! dest = Some d →
  source ≠ dest →
  collocated g →
  dataSize d = dataSize g →
  ∃ st' d',
    solve_scalar source diffusionCoefficient dt dest boundarySdf fluidSdf st
      = Some st' ∧
    grids st' !! dest = Some d' ∧
    total (data d') == total (data g) ∧
    fluidTotal (_markers st') (data d') == fluidTotal (_markers st') (data g).
Proof.
  intros Hsrc Hdst Hne Hcol Hsize.
  assert (Hfit : fitsIn (dataSize g) (dataSize d))
    by (rewrite Hsize; unfold fitsIn; lia).
  destruct (solve_separate st source dest g d diffusionCoefficient dt
              boundarySdf fluidSdf Hsrc Hdst Hne Hcol Hfit)
    as (M & a' & Hrun & HszM & HM & Hsz & Hin & Hout).
  pose proof (masked_laplacian_sums_to_zero (data g) M (gridSpacing g))
    as Hzero.
  eexists _, (withData d a'). split; [exact Hrun|].
  split; [simpl; apply lookup_insert_eq|]. simpl. split.
  - unfold total. rewrite Hsz, Hsize. unfold dataSize.
    rewrite (sum3_ext (size3 (data g)) (cells a')
               (λ i j k, cells (data g) i j k
                         + diffusionCoefficient * dt
                           * (if (cells M i j k =? kFluid)%Z
                              then laplacianAt (data g) M (gridSpacing g) i j k
                              else 0))).
    + rewrite (sum3_plus (size3 (data g)) (cells (data g))
                 (λ i j k, diffusionCoefficient * dt
                           * (if (cells M i j k =? kFluid)%Z
                              then laplacianAt (data g) M (gridSpacing g) i j k
                              else 0))).
      rewrite (sum3_scale (size3 (data g)) (diffusionCoefficient * dt)
                 (λ i j k, if (cells M i j k =? kFluid)%Z
                           then laplacianAt (data g) M (gridSpacing g) i j k
                           else 0)).
      rewrite Hzero. ring.
    + intros i j k Hb. rewrite (Hin i j k Hb). unfold updatedValue.
      destruct (cells M i j k =? kFluid)%Z; simpl; [reflexivity|ring].
  - unfold fluidTotal. rewrite Hsz, Hsize. unfold dataSize.
    rewrite (sum3_ext (size3 (data g))
               (λ i j k, if (cells M i j k =? kFluid)%Z
                         then cells a' i j k else 0)
               (λ i j k, (if (cells M i j k =? kFluid)%Z
                          then cells (data g) i j k else 0)
                         + diffusionCoefficient * dt
                           * (if (cells M i j k =? kFluid)%Z
                              then laplacianAt (data g) M (gridSpacing g) i j k
                              else 0))).
    + rewrite (sum3_plus (size3 (data g))
                 (λ i j k, if (cells M i j k =? kFluid)%Z
                           then cells (data g) i j k else 0)
                 (λ i j k, diffusionCoefficient * dt
                           * (if (cells M i j k =? kFluid)%Z
                              then laplacianAt (data g) M (gridSpacing g) i j k
                              else 0))).
      rewrite (sum3_scale (size3 (data g)) (diffusionCoefficient * dt)
                 (λ i j k, if (cells M i j k =? kFluid)%Z
                           then laplacianAt (data g) M (gridSpacing g) i j k
                           else 0)).
      rewrite Hzero. ring.
    + intros i j k Hb. rewrite (Hin i j k Hb). unfold updatedValue.
      destruct (cells M i j k =? kFluid)%Z; simpl; [reflexivity|ring].
Qed.

Lemma diffusion_conserves_total_any_markers_witness :
  ∃ st' d',
    solve_scalar 0%nat (1 # 3) 2 1%nat rightSolid leftHalfFluid
      (twoGrids (scalarGrid (rampData (mkVector3UZ 3 2 2)))
                (scalarGrid (constantData (mkVector3UZ 3 2 2) 0)))
      = Some st' ∧
    grids st' !! 1%nat = Some d' ∧
    total (data d') == total (rampData (mkVector3UZ 3 2 2)) ∧
    fluidTotal (_markers st') (data d')
    == fluidTotal (_markers st') (rampData (mkVector3UZ 3 2 2)).
Proof.
  apply (diffusion_conserves_total_any_markers
           (twoGrids (scalarGrid (rampData (mkVector3UZ 3 2 2)))
                     (scalarGrid (constantData (mkVector3UZ 3 2 2) 0)))
           0%nat 1%nat
           (scalarGrid (rampData (mkVector3UZ 3 2 2)))
           (scalarGrid (constantData (mkVector3UZ 3 2 2) 0))
           (1 # 3) 2 rightSolid leftHalfFluid).
  - reflexivity.
  - reflexivity.
  - lia.
  - reflexivity.
  - reflexivity.
Defined.

(** ** The maximum principle in three dimensions *)

Lemma fluidDiffAt_up_bounds (M : Array3 Z) (b : bool) (i j k : nat)
  (s n lo hi : Q) :
  lo <= s <= hi → (b = true → lo <= n <= hi) →
  lo - s <= fluidDiffAt M b i j k (n - s) <= hi - s.
Proof.
  intros Hs Hn. unfold fluidDiffAt.
  destruct b; simpl; [|split; lra].
  destruct (cells M i j k =? kFluid)%Z; [|split; lra].
  destruct (Hn eq_refl). split; lra.
Qed.

Lemma fluidDiffAt_down_bounds (M : Array3 Z) (b : bool) (i j k : nat)
  (s n lo hi : Q) :
  lo <= s <= hi → (b = true → lo <= n <= hi) →
  s - hi <= fluidDiffAt M b i j k (s - n) <= s - lo.
Proof.
  intros Hs Hn. unfold fluidDiffAt.
  destruct b; simpl; [|split; lra].
  destruct (cells M i j k =? kFluid)%Z; [|split; lra].
  destruct (Hn eq_refl). split; lra.
Qed.

Lemma convex_update (lo hi s a kx ky kz px py pz : Q) :
  lo <= s <= hi → 0 <= a → 0 <= kx → 0 <= ky → 0 <= kz →
  2 * a * (kx + ky + kz) <= 1 →
  2 * (lo - s) <= px <= 2 * (hi - s) →
  2 * (lo - s) <= py <= 2 * (hi - s) →
  2 * (lo - s) <= pz <= 2 * (hi - s) →
  lo <= s + a * (px * kx + py * ky + pz * kz) <= hi.
Proof.
  intros Hs Ha Hkx Hky Hkz Hstab Hpx Hpy Hpz.
  assert (HA : 0 <= a * kx) by nra.
  assert (HB : 0 <= a * ky) by nra.
  assert (HC : 0 <= a * kz) by nra.
  assert (E : a * (px * kx + py * ky + pz * kz)
              == px * (a * kx) + py * (a * ky) + pz * (a * kz)) by ring.
  rewrite E.
  assert (S1 : 2 * a * (kx + ky + kz) == 2 * (a * kx + a * ky + a * kz))
    by ring.
  rewrite S1 in Hstab.
  set (A := a * kx) in *. set (B := a * ky) in *. set (C := a * kz) in *.
  split; nra.
Qed.

Lemma inverse_square_nonneg (h : Q) : 0 <= / square h.
Proof. apply Qinv_le_0_compat. unfold square. nra. Qed.

(** Under the stability bound the value [solve] leaves at a sample is a
    convex combination of the sample and its neighbors. *)
Lemma updatedValue_in_range (g : ScalarGrid3) (M : Array3 Z) (c dt lo hi : Q)
  (i j k : nat) :
  inBounds (dataSize g) i j k = true →
  (∀ i j k, inBounds (dataSize g) i j k = true →
     lo <= cells (data g) i j k <= hi) →
  0 <= c * dt →
  2 * (c * dt) * (/ square (vx (gridSpacing g)) + / square (vy (gridSpacing g))
                  + / square (vz (gridSpacing g))) <= 1 →
  lo <= updatedValue g M c dt i j k <= hi.
Proof.
  intros Hb Hrange Ha Hstab. pose proof (Hrange i j k Hb) as Hs.
  unfold updatedValue.
  destruct (cells M i j k =? kFluid)%Z; [|exact Hs].
  apply inBounds_spec in Hb as (Hi & Hj & Hk). unfold dataSize in *.
  assert (Hn : ∀ (b : bool) i' j' k',
            (b = true → (i' < sx (size3 (data g)) ∧ j' < sy (size3 (data g))
                         ∧ k' < sz (size3 (data g)))%nat) →
            b = true → lo <= cells (data g) i' j' k' <= hi).
  { intros b i' j' k' Hin Hbt. apply Hrange, inBounds_spec. now apply Hin. }
  unfold laplacianAt. cbv zeta.
  set (s := cells (data g) i j k) in *.
  set (dl := fluidDiffAt M (0 <? i)%nat (i - 1) j k
               (qsub s (cells (data g) (i - 1) j k))).
  set (dr := fluidDiffAt M (i + 1 <? sx (size3 (data g)))%nat (i + 1) j k
               (qsub (cells (data g) (i + 1) j k) s)).
  set (dd := fluidDiffAt M (0 <? j)%nat i (j - 1) k
               (qsub s (cells (data g) i (j - 1) k))).
  set (du := fluidDiffAt M (j + 1 <? sy (size3 (data g)))%nat i (j + 1) k
               (qsub (cells (data g) i (j + 1) k) s)).
  set (db := fluidDiffAt M (0 <? k)%nat i j (k - 1)
               (qsub s (cells (data g) i j (k - 1)))).
  set (df := fluidDiffAt M (k + 1 <? sz (size3 (data g)))%nat i j (k + 1)
               (qsub (cells (data g) i j (k + 1)) s)).
  assert (Hdl : s - hi <= dl <= s - lo).
  { apply fluidDiffAt_down_bounds; [exact Hs|]. apply Hn.
    intros Hbt. apply Nat.ltb_lt in Hbt. lia. }
  assert (Hdr : lo - s <= dr <= hi - s).
  { apply fluidDiffAt_up_bounds; [exact Hs|]. apply Hn.
    intros Hbt. apply Nat.ltb_lt in Hbt. lia. }
  assert (Hdd : s - hi <= dd <= s - lo).
  { apply fluidDiffAt_down_bounds; [exact Hs|]. apply Hn.
    intros Hbt. apply Nat.ltb_lt in Hbt. lia. }
  assert (Hdu : lo - s <= du <= hi - s).
  { apply fluidDiffAt_up_bounds; [exact Hs|]. apply Hn.
    intros Hbt. apply Nat.ltb_lt in Hbt. lia. }
  assert (Hdb : s - hi <= db <= s - lo).
  { apply fluidDiffAt_down_bounds; [exact Hs|]. apply Hn.
    intros Hbt. apply Nat.ltb_lt in Hbt. lia. }
  assert (Hdf : lo - s <= df <= hi - s).
  { apply fluidDiffAt_up_bounds; [exact Hs|]. apply Hn.
    intros Hbt. apply Nat.ltb_lt in Hbt. lia. }
  apply (convex_update lo hi s (c * dt)
           (/ square (vx (gridSpacing g))) (/ square (vy (gridSpacing g)))
           (/ square (vz (gridSpacing g)))
           (dr - dl) (du - dd) (df - db)); try assumption;
    try apply inverse_square_nonneg; split; lra.
Qed.

(** X5.  The maximum principle of the scalar overload, in three
    dimensions and for any markers: when diffusionCoefficient * dt is
    not negative and 2 * diffusionCoefficient * dt *
    (1/hx^2 + 1/hy^2 + 1/hz^2) <= 1, every value written lies between
    the minimum and the maximum of the source samples. *)
Theorem solve_scalar_maximum_principle (st : State ScalarGrid3) source dest
  (g d : ScalarGrid3) diffusionCoefficient dt boundarySdf fluidSdf :
  grids st !! source = Some g →
  grids st !! dest = Some d →
  source ≠ dest →
  collocated g →
  fitsIn (dataSize g) (dataSize d) →
  0 <= diffusionCoefficient * dt →
  2 * (diffusionCoefficient * dt)
  * (/ square (vx (gridSpacing g)) + / square (vy (gridSpacing g))
     + / square (vz (gridSpacing g))) <= 1 →
  ∃ st' d',
    solve_scalar source diffusionCoefficient dt dest boundarySdf fluidSdf st
      = Some st' ∧
    grids st' !! dest = Some d' ∧
    ∀ i j k, inBounds (dataSize g) i j k = true →
      ∃ v, getAt (data d') i j k = Some v ∧
           minimum (samples (data g)) <= v <= maximum (samples (data g)).
Proof.
  intros Hsrc Hdst Hne Hcol Hfit Ha Hstab.
  destruct (solve_separate st source dest g d diffusionCoefficient dt
              boundarySdf fluidSdf Hsrc Hdst Hne Hcol Hfit)
    as (M & a' & Hrun & HszM & HM & Hsz & Hin & Hout).
  eexists _, (withData d a'). split; [exact Hrun|].
  split; [simpl; apply lookup_insert_eq|]. simpl.
  intros i j k Hb. exists (cells a' i j k). split.
  { apply getAt_Some. rewrite Hsz.
    apply inBounds_spec in Hb. apply inBounds_spec.
    unfold fitsIn in Hfit. lia. }
  rewrite (Hin i j k Hb).
  apply updatedValue_in_range; try assumption.
  intros i' j' k' Hb'. split.
  - apply minimum_le. now apply sample_in_samples.
  - apply le_maximum. now apply sample_in_samples.
Qed.

Lemma solve_scalar_maximum_principle_witness :
  ∃ st' d',
    solve_scalar 0%nat (1 # 10) 1 1%nat rightSolid leftHalfFluid
      (twoGrids (scalarGrid (rampData (mkVector3UZ 3 2 2)))
                (scalarGrid (constantData (mkVector3UZ 3 2 2) 0)))
      = Some st' ∧
    grids st' !! 1%nat = Some d' ∧
    ∀ i j k, inBounds (mkVector3UZ 3 2 2) i j k = true →
      ∃ v, getAt (data d') i j k = Some v ∧
           minimum (samples (rampData (mkVector3UZ 3 2 2))) <= v
           <= maximum (samples (rampData (mkVector3UZ 3 2 2))).
Proof.
  apply (solve_scalar_maximum_principle
           (twoGrids (scalarGrid (rampData (mkVector3UZ 3 2 2)))
                     (scalarGrid (constantData (mkVector3UZ 3 2 2) 0)))
           0%nat 1%nat
           (scalarGrid (rampData (mkVector3UZ 3 2 2)))
           (scalarGrid (constantData (mkVector3UZ 3 2 2) 0))
           (1 # 10) 1 rightSolid leftHalfFluid).
  - reflexivity.
  - reflexivity.
  - lia.
  - reflexivity.
  - unfold fitsIn. simpl. lia.
  - vm_compute. discriminate.
  - vm_compute. discriminate.
Defined.

(** ** The marker buffer carries nothing from one call to the next *)

(** X6.  [buildMarkers] leaves no trace of what the buffer held before:
    from any two buffers, of any extents, it returns arrays of the
    requested extent that agree at every access. *)
Theorem buildMarkers_forgets_previous size pos
  (boundarySdf fluidSdf : ScalarField3) (m0 m1 : Array3 Z) :
  ∃ r0 r1,
    buildMarkers size pos boundarySdf fluidSdf m0 = Some r0 ∧
    buildMarkers size pos boundarySdf fluidSdf m1 = Some r1 ∧
    size3 r0 = size ∧ size3 r1 = size ∧
    ∀ i j k, getAt r0 i j k = getAt r1 i j k.
Proof.
  destruct (buildMarkers_spec size pos boundarySdf fluidSdf m0)
    as (r0 & H0 & Hs0 & Hc0).
  destruct (buildMarkers_spec size pos boundarySdf fluidSdf m1)
    as (r1 & H1 & Hs1 & Hc1).
  exists r0, r1. repeat (split; [assumption|]).
  intros i j k. unfold getAt. rewrite Hs0, Hs1.
  destruct (inBounds size i j k) eqn:Hb; [|reflexivity].
  now rewrite Hc0, Hc1.
Qed.

Lemma buildMarkers_sameReads size pos (boundarySdf fluidSdf : ScalarField3)
  (m0 m1 r0 r1 : Array3 Z) :
  buildMarkers size pos boundarySdf fluidSdf m0 = Some r0 →
  buildMarkers size pos boundarySdf fluidSdf m1 = Some r1 →
  sameReads r0 r1.
Proof.
  intros H0 H1.
  destruct (buildMarkers_spec size pos boundarySdf fluidSdf m0)
    as (r0' & H0' & Hs0 & Hc0).
  destruct (buildMarkers_spec size pos boundarySdf fluidSdf m1)
    as (r1' & H1' & Hs1 & Hc1).
  rewrite H0 in H0'. rewrite H1 in H1'.
  injection H0' as <-. injection H1' as <-.
  intros i j k. unfold getAt. rewrite Hs0, Hs1.
  destruct (inBounds size i j k) eqn:Hb; [|reflexivity].
  now rewrite Hc0, Hc1.
Qed.

Lemma buildMarkers_forgets_previous_aux size pos
  (boundarySdf fluidSdf : ScalarField3) (m0 m1 : Array3 Z) :
  ∃ r0 r1,
    buildMarkers size pos boundarySdf fluidSdf m0 = Some r0 ∧
    buildMarkers size pos boundarySdf fluidSdf m1 = Some r1 ∧
    sameReads r0 r1.
Proof.
  destruct (buildMarkers_spec size pos boundarySdf fluidSdf m0)
    as (r0 & H0 & _).
  destruct (buildMarkers_spec size pos boundarySdf fluidSdf m1)
    as (r1 & H1 & _).
  exists r0, r1. split; [exact H0|]. split; [exact H1|].
  exact (buildMarkers_sameReads _ _ _ _ _ _ _ _ H0 H1).
Qed.

Lemma writeView_markers {G T} (view : View G T) dest i j k x (st st' : State G) :
  writeView view dest i j k x st = Some st' → _markers st' = _markers st.
Proof.
  unfold writeView. intros Hw.
  destruct (grids st !! dest) as [g|]; [|discriminate]. simpl in Hw.
  destruct (setAt (viewOf view g) i j k x) as [a|]; [|discriminate].
  now injection Hw as <-.
Qed.

Lemma writeView_withMarkers {G T} (view : View G T) dest i j k x
  (G0 : gmap loc G) (M M' : Array3 Z) :
  writeView view dest i j k x (mkState G0 M')
  = withMarkers M' <$> writeView view dest i j k x (mkState G0 M).
Proof.
  unfold writeView. simpl.
  destruct (G0 !! dest) as [g|]; [simpl|reflexivity].
  now destruct (setAt (viewOf view g) i j k x).
Qed.

Lemma forEach_withMarkers {G} (f : nat → nat → nat → State G → option (State G))
  (M M' : Array3 Z) :
  (∀ i j k G0, f i j k (mkState G0 M')
               = withMarkers M' <$> f i j k (mkState G0 M)) →
  (∀ i j k st st', f i j k st = Some st' → _markers st' = _markers st) →
  ∀ l G0, forEach l f (mkState G0 M')
          = withMarkers M' <$> forEach l f (mkState G0 M).
Proof.
  intros Hstep Hkeep l.
  induction l as [|[[i j] k] l IH]; intros G0; [reflexivity|].
  simpl. rewrite Hstep.
  destruct (f i j k (mkState G0 M)) as [st1|] eqn:Hf; [simpl|reflexivity].
  pose proof (Hkeep _ _ _ _ _ Hf) as HM. destruct st1 as [G1 M1].
  simpl in HM. subst M1. apply IH.
Qed.

Section MarkersOfSolve.
Context {T : Type} `{Quantity T}.

Lemma laplacian_sameReads (data : Array3 T) (M M' : Array3 Z) h i j k :
  sameReads M M' → laplacian data M h i j k = laplacian data M' h i j k.
Proof. intros E. unfold laplacian. now rewrite !E. Qed.

Lemma solveSample_markers source c dt dest h i j k (st st' : State (Grid T)) :
  solveSample source c dt dest h i j k st = Some st' →
  _markers st' = _markers st.
Proof.
  unfold solveSample. intros Hs.
  destruct (grids st !! source) as [g|]; [|discriminate]. simpl in Hs.
  destruct (getAt (_markers st) i j k) as [m|]; [|discriminate].
  simpl in Hs. destruct (m =? kFluid)%Z.
  - destruct (getAt (data g) i j k) as [x|]; [|discriminate]. simpl in Hs.
    destruct (laplacian (data g) (_markers st) h i j k); [|discriminate].
    simpl in Hs. exact (writeView_markers _ _ _ _ _ _ _ _ Hs).
  - destruct (getAt (data g) i j k) as [x|]; [|discriminate]. simpl in Hs.
    exact (writeView_markers _ _ _ _ _ _ _ _ Hs).
Qed.

Lemma solveSample_sameReads source c dt dest h i j k
  (G0 : gmap loc (Grid T)) (M M' : Array3 Z) :
  sameReads M M' →
  solveSample source c dt dest h i j k (mkState G0 M')
  = withMarkers M' <$> solveSample source c dt dest h i j k (mkState G0 M).
Proof.
  intros E. unfold solveSample. simpl.
  destruct (G0 !! source) as [g|]; [simpl|reflexivity].
  rewrite <- (E i j k).
  destruct (getAt M i j k) as [m|]; [simpl|reflexivity].
  rewrite <- (laplacian_sameReads (data g) M M' h i j k E).
  destruct (m =? kFluid)%Z.
  - destruct (getAt (data g) i j k) as [x|]; [simpl|reflexivity].
    destruct (laplacian (data g) M h i j k); [simpl|reflexivity].
    apply writeView_withMarkers.
  - destruct (getAt (data g) i j k) as [x|]; [simpl|reflexivity].
    apply writeView_withMarkers.
Qed.

(** X7.  What the scalar and the collocated vector overload do to the
    grids does not depend on what the marker buffer of the solver held
    before the call: from two states with the same grids the calls fail
    together or return the same grids. *)
Theorem solve_ignores_previous_markers source c dt dest
  (boundarySdf fluidSdf : ScalarField3) (G0 : gmap loc (Grid T))
  (M0 M1 : Array3 Z) :
  grids <$> solve source c dt dest boundarySdf fluidSdf (mkState G0 M0)
  = grids <$> solve source c dt dest boundarySdf fluidSdf (mkState G0 M1).
Proof.
  unfold solve, rebuildMarkers. simpl.
  destruct (G0 !! source) as [g|]; [simpl|reflexivity].
  destruct (buildMarkers_forgets_previous_aux (resolution g) (dataPosition g)
              boundarySdf fluidSdf M0 M1) as (r0 & r1 & H0 & H1 & E).
  rewrite H0, H1. simpl. unfold forEachIndex.
  rewrite (forEach_withMarkers _ r0 r1
             (λ i j k G1, solveSample_sameReads source c dt dest
                            (gridSpacing g) i j k G1 r0 r1 E)
             (solveSample_markers source c dt dest (gridSpacing g))).
  now destruct (forEach (indices (dataSize g))
                  (solveSample source c dt dest (gridSpacing g))
                  (mkState G0 r0)).
Qed.
End MarkersOfSolve.

(** ** The face-centered overload never consults the markers *)

Lemma solveFaceSample_markers view pos source c dt dest boundarySdf h i j k
  (st st' : State FaceCenteredGrid3) :
  solveFaceSample view pos source c dt dest boundarySdf h i j k st = Some st' →
  _markers st' = _markers st.
Proof.
  unfold solveFaceSample. intros Hs.
  destruct (negb (isInsideSdf (boundarySdf (pos i j k))));
    [|now injection Hs as <-].
  destruct (grids st !! source) as [g|]; [|discriminate]. simpl in Hs.
  destruct (getAt (viewOf view g) i j k) as [x|]; [|discriminate].
  simpl in Hs.
  destruct (laplacian3 (viewOf view g) h i j k); [|discriminate].
  simpl in Hs. exact (writeView_markers _ _ _ _ _ _ _ _ Hs).
Qed.

Lemma solveFaceSample_withMarkers view pos source c dt dest boundarySdf h
  i j k (G0 : gmap loc FaceCenteredGrid3) (M M' : Array3 Z) :
  solveFaceSample view pos source c dt dest boundarySdf h i j k
    (mkState G0 M')
  = withMarkers M'
      <$> solveFaceSample view pos source c dt dest boundarySdf h i j k
            (mkState G0 M).
Proof.
  unfold solveFaceSample. simpl.
  destruct (negb (isInsideSdf (boundarySdf (pos i j k)))); [|reflexivity].
  destruct (G0 !! source) as [g|]; [simpl|reflexivity].
  destruct (getAt (viewOf view g) i j k) as [x|]; [simpl|reflexivity].
  destruct (laplacian3 (viewOf view g) h i j k); [simpl|reflexivity].
  apply writeView_withMarkers.
Qed.

(** One loop of the face-centered overload, from the same grids and any
    two marker buffers: the same grids come out, or both runs fail. *)
Lemma facePass_any_markers view s pos source c dt dest boundarySdf h
  (G0 : gmap loc FaceCenteredGrid3) (M M' : Array3 Z) :
  grids <$> forEachIndex s
              (solveFaceSample view pos source c dt dest boundarySdf h)
              (mkState G0 M')
  = grids <$> forEachIndex s
                (solveFaceSample view pos source c dt dest boundarySdf h)
                (mkState G0 M).
Proof.
  unfold forEachIndex.
  rewrite (forEach_withMarkers _ M M'
             (λ i j k G1, solveFaceSample_withMarkers view pos source c dt
                            dest boundarySdf h i j k G1 M M')
             (solveFaceSample_markers view pos source c dt dest boundarySdf h)).
  now destruct (forEach (indices s)
                  (solveFaceSample view pos source c dt dest boundarySdf h)
                  (mkState G0 M)).
Qed.

Lemma rebuildMarkers_returns {G} size pos (boundarySdf fluidSdf : ScalarField3)
  (st : State G) :
  ∃ M, rebuildMarkers size pos boundarySdf fluidSdf st
       = Some (mkState (grids st) M).
Proof.
  unfold rebuildMarkers.
  destruct (buildMarkers_spec size pos boundarySdf fluidSdf (_markers st))
    as (M & HM & _).
  exists M. now rewrite HM.
Qed.

Lemma solveU_any_fluidSdf source c dt dest boundarySdf
  (f1 f2 : ScalarField3) (st1 st2 : State FaceCenteredGrid3) :
  grids st1 = grids st2 →
  grids <$> solveU source c dt dest boundarySdf f1 st1
  = grids <$> solveU source c dt dest boundarySdf f2 st2.
Proof.
  intros E. unfold solveU. rewrite E.
  destruct (grids st2 !! source) as [g|]; [simpl|reflexivity].
  destruct (rebuildMarkers_returns (uSize g) (uPosition g) boundarySdf f1 st1)
    as (M1 & ->).
  destruct (rebuildMarkers_returns (uSize g) (uPosition g) boundarySdf f2 st2)
    as (M2 & ->).
  simpl. rewrite E. apply facePass_any_markers.
Qed.

Lemma solveV_any_fluidSdf source c dt dest boundarySdf
  (f1 f2 : ScalarField3) (st1 st2 : State FaceCenteredGrid3) :
  grids st1 = grids st2 →
  grids <$> solveV source c dt dest boundarySdf f1 st1
  = grids <$> solveV source c dt dest boundarySdf f2 st2.
Proof.
  intros E. unfold solveV. rewrite E.
  destruct (grids st2 !! source) as [g|]; [simpl|reflexivity].
  destruct (rebuildMarkers_returns (vSize g) (vPosition g) boundarySdf f1 st1)
    as (M1 & ->).
  destruct (rebuildMarkers_returns (vSize g) (vPosition g) boundarySdf f2 st2)
    as (M2 & ->).
  simpl. rewrite E. apply facePass_any_markers.
Qed.

Lemma solveW_any_fluidSdf source c dt dest boundarySdf
  (f1 f2 : ScalarField3) (st1 st2 : State FaceCenteredGrid3) :
  grids st1 = grids st2 →
  grids <$> solveW source c dt dest boundarySdf f1 st1
  = grids <$> solveW source c dt dest boundarySdf f2 st2.
Proof.
  intros E. unfold solveW. rewrite E.
  destruct (grids st2 !! source) as [g|]; [simpl|reflexivity].
  destruct (rebuildMarkers_returns (wSize g) (wPosition g) boundarySdf f1 st1)
    as (M1 & ->).
  destruct (rebuildMarkers_returns (wSize g) (wPosition g) boundarySdf f2 st2)
    as (M2 & ->).
  simpl. rewrite E. apply facePass_any_markers.
Qed.

(** X8.  The face-centered overload builds markers three times and
    never reads them: from the same grids, with any two fluid SDFs and
    any two previous marker buffers, the calls fail together or return
    the same grids.  The fluid SDF has no influence on the velocity
    written. *)
Theorem solve_face_ignores_fluidSdf source c dt dest
  (boundarySdf f1 f2 : ScalarField3) (G0 : gmap loc FaceCenteredGrid3)
  (M1 M2 : Array3 Z) :
  grids <$> solve_face source c dt dest boundarySdf f1 (mkState G0 M1)
  = grids <$> solve_face source c dt dest boundarySdf f2 (mkState G0 M2).
Proof.
  unfold solve_face.
  pose proof (solveU_any_fluidSdf source c dt dest boundarySdf f1 f2
                (mkState G0 M1) (mkState G0 M2) eq_refl) as HU.
  destruct (solveU source c dt dest boundarySdf f1 (mkState G0 M1))
    as [u1|];
    destruct (solveU source c dt dest boundarySdf f2 (mkState G0 M2))
      as [u2|]; try discriminate; [simpl|reflexivity].
  injection HU as HU.
  pose proof (solveV_any_fluidSdf source c dt dest boundarySdf f1 f2
                u1 u2 HU) as HV.
  destruct (solveV source c dt dest boundarySdf f1 u1) as [v1|];
    destruct (solveV source c dt dest boundarySdf f2 u2) as [v2|];
    try discriminate; [simpl|reflexivity].
  injection HV as HV.
  exact (solveW_any_fluidSdf source c dt dest boundarySdf f1 f2 v1 v2 HV).
Qed.

(** ** Extents that do not match, and empty extents *)

Section SolveBounds.
Context {T : Type} `{Quantity T}.

Lemma solveSample_is_write source c dt dest h i j k (st st' : State (Grid T)) :
  solveSample source c dt dest h i j k st = Some st' →
  ∃ x, writeView dataView dest i j k x st = Some st'.
Proof.
  unfold solveSample. intros Hs.
  destruct (grids st !! source) as [g|]; [|discriminate]. simpl in Hs.
  destruct (getAt (_markers st) i j k) as [m|]; [|discriminate].
  simpl in Hs. destruct (m =? kFluid)%Z.
  - destruct (getAt (data g) i j k) as [x|]; [|discriminate]. simpl in Hs.
    destruct (laplacian (data g) (_markers st) h i j k); [|discriminate].
    simpl in Hs. eauto.
  - destruct (getAt (data g) i j k) as [x|]; [|discriminate]. simpl in Hs.
    eauto.
Qed.

Lemma writeView_data_extent dest i j k (x : T) (st st' : State (Grid T))
  (s : Vector3UZ) :
  writeView dataView dest i j k x st = Some st' →
  (∀ gd, grids st !! dest = Some gd → dataSize gd = s) →
  ∀ gd, grids st' !! dest = Some gd → dataSize gd = s.
Proof.
  unfold writeView. intros Hw Hs gd' Hgd'.
  destruct (grids st !! dest) as [gd|] eqn:Hgd; [|discriminate].
  simpl in Hw. unfold setAt in Hw. simpl in Hw.
  destruct (inBounds (size3 (data gd)) i j k); [|discriminate].
  injection Hw as <-. simpl in Hgd'. rewrite lookup_insert_eq in Hgd'.
  injection Hgd' as <-. unfold dataSize. simpl. now apply Hs.
Qed.

(** X9.  Scalar and collocated vector overload: when some data point of
    the source lies outside the extent of the destination, the call
    does not return; the write at that index is out of bounds. *)
Theorem solve_destination_too_small (st : State (Grid T)) source dest
  (g d : Grid T) c dt boundarySdf fluidSdf (i j k : nat) :
  grids st !! source = Some g →
  grids st !! dest = Some d →
  inBounds (dataSize g) i j k = true →
  inBounds (dataSize d) i j k = false →
  solve source c dt dest boundarySdf fluidSdf st = None.
Proof.
  intros Hsrc Hdst Hin Hout. unfold solve. rewrite Hsrc. simpl.
  destruct (rebuildMarkers_returns (resolution g) (dataPosition g)
              boundarySdf fluidSdf st) as (M & ->).
  simpl. unfold forEachIndex.
  apply (forEach_fails
           (λ s, ∀ gd, grids s !! dest = Some gd → dataSize gd = dataSize d)
           _ _ i j k).
  - now apply elem_of_indices.
  - intros s Hs.
    destruct (solveSample source c dt dest (gridSpacing g) i j k s)
      as [s'|] eqn:Hstep; [|reflexivity].
    apply solveSample_is_write in Hstep as (x & Hw).
    unfold writeView in Hw.
    destruct (grids s !! dest) as [gd|] eqn:Hgd; [|discriminate].
    simpl in Hw. unfold setAt in Hw. simpl in Hw.
    pose proof (Hs gd eq_refl) as Hsz. unfold dataSize in Hsz.
    rewrite Hsz in Hw. unfold dataSize in Hout. rewrite Hout in Hw.
    discriminate.
  - intros i' j' k' s s' Hs Hstep.
    apply solveSample_is_write in Hstep as (x & Hw).
    exact (writeView_data_extent _ _ _ _ _ _ _ _ Hw Hs).
  - simpl. intros gd Hgd. rewrite Hdst in Hgd. now injection Hgd as <-.
Qed.

(** X10.  The marker buffer is built for the resolution of the source,
    and the loop ranges over its data points: when the source has a
    data point outside its resolution, the call does not return; the
    marker read at that index is out of bounds. *)
Theorem solve_data_point_without_marker (st : State (Grid T)) source dest
  (g : Grid T) c dt boundarySdf fluidSdf (i j k : nat) :
  grids st !! source = Some g →
  inBounds (dataSize g) i j k = true →
  inBounds (resolution g) i j k = false →
  solve source c dt dest boundarySdf fluidSdf st = None.
Proof.
  intros Hsrc Hin Hout. unfold solve, rebuildMarkers. rewrite Hsrc. simpl.
  destruct (buildMarkers_spec (resolution g) (dataPosition g)
              boundarySdf fluidSdf (_markers st)) as (M & -> & HszM & _).
  simpl. unfold forEachIndex.
  apply (forEach_fails (λ s, _markers s = M) _ _ i j k).
  - now apply elem_of_indices.
  - intros s Hs. unfold solveSample.
    destruct (grids s !! source) as [g'|]; [simpl|reflexivity].
    rewrite Hs, (getAt_None M i j k); [reflexivity|]. now rewrite HszM.
  - intros i' j' k' s s' Hs Hstep.
    now rewrite (solveSample_markers _ _ _ _ _ _ _ _ _ _ Hstep).
  - reflexivity.
Qed.

Lemma indices_empty (s : Vector3UZ) :
  (sx s = 0 ∨ sy s = 0 ∨ sz s = 0)%nat → indices s = [].
Proof.
  intros Hz. apply elem_of_nil_inv. intros [[i j] k] Hin.
  apply elem_of_indices, inBounds_spec in Hin. lia.
Qed.

(** X11.  On a source without data points (an extent of zero along some
    axis) the scalar and the collocated vector overload return without
    touching any grid; the destination is not even looked at. *)
Theorem solve_empty_source (st : State (Grid T)) source dest (g : Grid T)
  c dt boundarySdf fluidSdf :
  grids st !! source = Some g →
  (sx (dataSize g) = 0 ∨ sy (dataSize g) = 0 ∨ sz (dataSize g) = 0)%nat →
  ∃ M, solve source c dt dest boundarySdf fluidSdf st
       = Some (mkState (grids st) M) ∧
       size3 M = resolution g.
Proof.
  intros Hsrc Hz. unfold solve, rebuildMarkers. rewrite Hsrc. simpl.
  destruct (buildMarkers_spec (resolution g) (dataPosition g)
              boundarySdf fluidSdf (_markers st)) as (M & -> & HszM & _).
  simpl. unfold forEachIndex. rewrite indices_empty by exact Hz.
  exists M. split; [reflexivity|exact HszM].
Qed.
End SolveBounds.

Lemma solve_destination_too_small_witness :
  solve_scalar 0%nat (1 # 4) 1 1%nat (constantField 1) (constantField (-1))
    (twoGrids (scalarGrid (rampData (mkVector3UZ 3 1 1)))
              (scalarGrid (constantData (mkVector3UZ 2 1 1) 0)))
  = None.
Proof.
  apply (solve_destination_too_small (T := Q)
           (twoGrids (scalarGrid (rampData (mkVector3UZ 3 1 1)))
                     (scalarGrid (constantData (mkVector3UZ 2 1 1) 0)))
           0%nat 1%nat
           (scalarGrid (rampData (mkVector3UZ 3 1 1)))
           (scalarGrid (constantData (mkVector3UZ 2 1 1) 0))
           (1 # 4) 1 (constantField 1) (constantField (-1)) 2 0 0).
  - reflexivity.
  - reflexivity.
  - reflexivity.
  - reflexivity.
Defined.

Lemma solve_data_point_without_marker_witness :
  solve_scalar 0%nat (1 # 4) 1 1%nat (constantField 1) (constantField (-1))
    (twoGrids (mkGrid (mkVector3UZ 1 1 1) unitSpacing unitPosition
                 (rampData (mkVector3UZ 2 2 2)))
              (scalarGrid (constantData (mkVector3UZ 2 2 2) 0)))
  = None.
Proof.
  apply (solve_data_point_without_marker (T := Q)
           (twoGrids (mkGrid (mkVector3UZ 1 1 1) unitSpacing unitPosition
                        (rampData (mkVector3UZ 2 2 2)))
                     (scalarGrid (constantData (mkVector3UZ 2 2 2) 0)))
           0%nat 1%nat
           (mkGrid (mkVector3UZ 1 1 1) unitSpacing unitPosition
              (rampData (mkVector3UZ 2 2 2)))
           (1 # 4) 1 (constantField 1) (constantField (-1)) 1 0 0).
  - reflexivity.
  - reflexivity.
  - reflexivity.
Defined.

Lemma solve_empty_source_witness :
  ∃ M, solve_scalar 0%nat (1 # 4) 1 7%nat (constantField 1)
         (constantField (-1))
         (twoGrids (scalarGrid (rampData (mkVector3UZ 3 0 2)))
                   (scalarGrid (constantData (mkVector3UZ 2 1 1) 0)))
       = Some (mkState
                 (grids (twoGrids (scalarGrid (rampData (mkVector3UZ 3 0 2)))
                           (scalarGrid (constantData (mkVector3UZ 2 1 1) 0))))
                 M) ∧
       size3 M = mkVector3UZ 3 0 2.
Proof.
  apply (solve_empty_source (T := Q)
           (twoGrids (scalarGrid (rampData (mkVector3UZ 3 0 2)))
                     (scalarGrid (constantData (mkVector3UZ 2 1 1) 0)))
           0%nat 7%nat (scalarGrid (rampData (mkVector3UZ 3 0 2)))
           (1 # 4) 1 (constantField 1) (constantField (-1))).
  - reflexivity.
  - right. left. reflexivity.
Defined.

(** ** What the destination samples depend on *)

Section DestinationSamples.
Context {T : Type} `{Quantity T}.

Lemma fluidDiffAt_markers_ext (M M' : Array3 Z) (b : bool) (i j k : nat)
  (d : T) :
  (b = true → cells M i j k = cells M' i j k) →
  fluidDiffAt M b i j k d = fluidDiffAt M' b i j k d.
Proof.
  unfold fluidDiffAt. destruct b; [|reflexivity]. intros E.
  now rewrite E.
Qed.

Lemma updatedValue_markers_ext (g : Grid T) (M M' : Array3 Z) c dt i j k :
  inBounds (dataSize g) i j k = true →
  (∀ i j k, inBounds (dataSize g) i j k = true →
     cells M i j k = cells M' i j k) →
  updatedValue g M c dt i j k = updatedValue g M' c dt i j k.
Proof.
  intros Hb HM. unfold updatedValue. rewrite (HM i j k Hb).
  destruct (cells M' i j k =? kFluid)%Z; [|reflexivity].
  apply inBounds_spec in Hb as (Hi & Hj & Hk). unfold dataSize in *.
  assert (E : ∀ (b : bool) i' j' k' (d : T),
            (b = true → (i' < sx (size3 (data g)) ∧ j' < sy (size3 (data g))
                         ∧ k' < sz (size3 (data g)))%nat) →
            fluidDiffAt M b i' j' k' d = fluidDiffAt M' b i' j' k' d).
  { intros b i' j' k' d Hin. apply fluidDiffAt_markers_ext.
    intros Hbt. apply HM, inBounds_spec. now apply Hin. }
  unfold laplacianAt. cbv zeta.
  rewrite !(E _ _ _ _ _); [reflexivity|..];
    intros Hbt; apply Nat.ltb_lt in Hbt; lia.
Qed.

(** X13.  Scalar and collocated vector overload: the samples written
    depend on the source, the coefficient, the time step and the SDFs
    only.  Two calls on the same source with destinations of any
    previous contents and solvers of any previous markers leave the same
    value at every data point of the source; a sample of a larger
    destination outside the extent of the source is left as it was. *)
Theorem solve_overwrites_destination (st1 st2 : State (Grid T))
  source1 dest1 source2 dest2 (g d1 d2 : Grid T) c dt boundarySdf fluidSdf :
  grids st1 !! source1 = Some g → grids st1 !! dest1 = Some d1 →
  source1 ≠ dest1 →
  grids st2 !! source2 = Some g → grids st2 !! dest2 = Some d2 →
  source2 ≠ dest2 →
  collocated g →
  fitsIn (dataSize g) (dataSize d1) →
  fitsIn (dataSize g) (dataSize d2) →
  ∃ st1' d1' st2' d2',
    solve source1 c dt dest1 boundarySdf fluidSdf st1 = Some st1' ∧
    grids st1' !! dest1 = Some d1' ∧
    solve source2 c dt dest2 boundarySdf fluidSdf st2 = Some st2' ∧
    grids st2' !! dest2 = Some d2' ∧
    (∀ i j k, inBounds (dataSize g) i j k = true →
       ∃ v, getAt (data d1') i j k = Some v ∧
            getAt (data d2') i j k = Some v) ∧
    (∀ i j k, inBounds (dataSize g) i j k = false →
       getAt (data d1') i j k = getAt (data d1) i j k).
Proof.
  intros Hs1 Hd1 Hn1 Hs2 Hd2 Hn2 Hcol Hf1 Hf2.
  destruct (solve_separate st1 source1 dest1 g d1 c dt boundarySdf fluidSdf
              Hs1 Hd1 Hn1 Hcol Hf1)
    as (M1 & a1 & Hrun1 & HszM1 & HM1 & Hsz1 & Hin1 & Hout1).
  destruct (solve_separate st2 source2 dest2 g d2 c dt boundarySdf fluidSdf
              Hs2 Hd2 Hn2 Hcol Hf2)
    as (M2 & a2 & Hrun2 & HszM2 & HM2 & Hsz2 & Hin2 & Hout2).
  eexists _, (withData d1 a1), _, (withData d2 a2).
  split; [exact Hrun1|]. split; [simpl; apply lookup_insert_eq|].
  split; [exact Hrun2|]. split; [simpl; apply lookup_insert_eq|].
  simpl. split.
  - intros i j k Hb. exists (cells a1 i j k). split.
    + apply getAt_Some. rewrite Hsz1.
      apply inBounds_spec in Hb. apply inBounds_spec.
      unfold fitsIn in Hf1. lia.
    + rewrite getAt_Some.
      * f_equal. rewrite (Hin1 i j k Hb), (Hin2 i j k Hb).
        symmetry. apply updatedValue_markers_ext; [exact Hb|].
        intros i' j' k' Hb'. rewrite Hcol in Hb'.
        now rewrite HM1, HM2.
      * rewrite Hsz2. apply inBounds_spec in Hb. apply inBounds_spec.
        unfold fitsIn in Hf2. lia.
  - intros i j k Hb. apply getAt_ext; [exact Hsz1|]. now apply Hout1.
Qed.
End DestinationSamples.

Lemma solve_overwrites_destination_witness :
  ∃ st1' d1' st2' d2',
    solve_scalar 0%nat (1 # 4) 1 1%nat rightSolid leftHalfFluid
      (twoGrids (scalarGrid (rampData (mkVector3UZ 3 1 1)))
                (scalarGrid (constantData (mkVector3UZ 4 1 1) 9)))
      = Some st1' ∧
    grids st1' !! 1%nat = Some d1' ∧
    solve_scalar 0%nat (1 # 4) 1 1%nat rightSolid leftHalfFluid
      (mkState (grids (twoGrids (scalarGrid (rampData (mkVector3UZ 3 1 1)))
                         (scalarGrid (rampData (mkVector3UZ 3 2 1)))))
               (fluidMarkers (mkVector3UZ 5 5 5)))
      = Some st2' ∧
    grids st2' !! 1%nat = Some d2' ∧
    (∀ i j k, inBounds (mkVector3UZ 3 1 1) i j k = true →
       ∃ v, getAt (data d1') i j k = Some v ∧
            getAt (data d2') i j k = Some v) ∧
    (∀ i j k, inBounds (mkVector3UZ 3 1 1) i j k = false →
       getAt (data d1') i j k
       = getAt (constantData (mkVector3UZ 4 1 1) 9) i j k).
Proof.
  apply (solve_overwrites_destination (T := Q)
           (twoGrids (scalarGrid (rampData (mkVector3UZ 3 1 1)))
                     (scalarGrid (constantData (mkVector3UZ 4 1 1) 9)))
           (mkState (grids (twoGrids (scalarGrid (rampData (mkVector3UZ 3 1 1)))
                              (scalarGrid (rampData (mkVector3UZ 3 2 1)))))
                    (fluidMarkers (mkVector3UZ 5 5 5)))
           0%nat 1%nat 0%nat 1%nat
           (scalarGrid (rampData (mkVector3UZ 3 1 1)))
           (scalarGrid (constantData (mkVector3UZ 4 1 1) 9))
           (scalarGrid (rampData (mkVector3UZ 3 2 1)))
           (1 # 4) 1 rightSolid leftHalfFluid).
  - reflexivity.
  - reflexivity.
  - lia.
  - reflexivity.
  - reflexivity.
  - lia.
  - reflexivity.
  - unfold fitsIn. simpl. lia.
  - unfold fitsIn. simpl. lia.
Defined.

(** ** A time step or a coefficient of zero *)

Lemma solve_zero_factor_scalar (st : State ScalarGrid3) source dest
  (g d : ScalarGrid3) c dt boundarySdf fluidSdf :
  grids st !! source = Some g →
  grids st !! dest = Some d →
  source ≠ dest →
  collocated g →
  fitsIn (dataSize g) (dataSize d) →
  c * dt == 0 →
  ∃ st' d',
    solve_scalar source c dt dest boundarySdf fluidSdf st = Some st' ∧
    grids st' !! dest = Some d' ∧
    ∀ i j k, inBounds (dataSize g) i j k = true →
      ∃ s v, getAt (data g) i j k = Some s ∧
             getAt (data d') i j k = Some v ∧ v == s.
Proof.
  intros Hsrc Hdst Hne Hcol Hfit Hz.
  destruct (solve_separate st source dest g d c dt boundarySdf fluidSdf
              Hsrc Hdst Hne Hcol Hfit)
    as (M & a' & Hrun & HszM & HM & Hsz & Hin & Hout).
  eexists _, (withData d a'). split; [exact Hrun|].
  split; [simpl; apply lookup_insert_eq|]. simpl.
  intros i j k Hb. exists (cells (data g) i j k), (cells a' i j k).
  split; [now apply getAt_Some|]. split.
  { apply getAt_Some. rewrite Hsz.
    apply inBounds_spec in Hb. apply inBounds_spec.
    unfold fitsIn in Hfit. lia. }
  rewrite (Hin i j k Hb). unfold updatedValue.
  destruct (cells M i j k =? kFluid)%Z; [|reflexivity].
  simpl. rewrite Hz. ring.
Qed.

Lemma solve_zero_factor_vector (st : State CollocatedVectorGrid3) source dest
  (g d : CollocatedVectorGrid3) c dt boundarySdf fluidSdf :
  grids st !! source = Some g →
  grids st !! dest = Some d →
  source ≠ dest →
  collocated g →
  fitsIn (dataSize g) (dataSize d) →
  c * dt == 0 →
  ∃ st' d',
    solve_collocated source c dt dest boundarySdf fluidSdf st = Some st' ∧
    grids st' !! dest = Some d' ∧
    ∀ i j k, inBounds (dataSize g) i j k = true →
      ∃ s v, getAt (data g) i j k = Some s ∧
             getAt (data d') i j k = Some v ∧ veq v s.
Proof.
  intros Hsrc Hdst Hne Hcol Hfit Hz.
  destruct (solve_separate st source dest g d c dt boundarySdf fluidSdf
              Hsrc Hdst Hne Hcol Hfit)
    as (M & a' & Hrun & HszM & HM & Hsz & Hin & Hout).
  eexists _, (withData d a'). split; [exact Hrun|].
  split; [simpl; apply lookup_insert_eq|]. simpl.
  intros i j k Hb. exists (cells (data g) i j k), (cells a' i j k).
  split; [now apply getAt_Some|]. split.
  { apply getAt_Some. rewrite Hsz.
    apply inBounds_spec in Hb. apply inBounds_spec.
    unfold fitsIn in Hfit. lia. }
  rewrite (Hin i j k Hb). unfold updatedValue.
  destruct (cells M i j k =? kFluid)%Z.
  - unfold veq. simpl. rewrite Hz. repeat split; ring.
  - unfold veq. repeat split; reflexivity.
Qed.

(** X12.  With diffusionCoefficient * dt = 0, a zero time step or a
    zero coefficient, the scalar and the collocated vector overload copy
    the source: every data point of the source has its source value in
    the destination, Fluid or not. *)
Theorem solve_zero_factor_copies :
  (∀ (st : State ScalarGrid3) source dest (g d : ScalarGrid3)
     c dt boundarySdf fluidSdf,
     grids st !! source = Some g →
     grids st !! dest = Some d →
     source ≠ dest →
     collocated g →
     fitsIn (dataSize g) (dataSize d) →
     c * dt == 0 →
     ∃ st' d',
       solve_scalar source c dt dest boundarySdf fluidSdf st = Some st' ∧
       grids st' !! dest = Some d' ∧
       ∀ i j k, inBounds (dataSize g) i j k = true →
         ∃ s v, getAt (data g) i j k = Some s ∧
                getAt (data d') i j k = Some v ∧ v == s) ∧
  (∀ (st : State CollocatedVectorGrid3) source dest
     (g d : CollocatedVectorGrid3) c dt boundarySdf fluidSdf,
     grids st !! source = Some g →
     grids st !! dest = Some d →
     source ≠ dest →
     collocated g →
     fitsIn (dataSize g) (dataSize d) →
     c * dt == 0 →
     ∃ st' d',
       solve_collocated source c dt dest boundarySdf fluidSdf st = Some st' ∧
       grids st' !! dest = Some d' ∧
       ∀ i j k, inBounds (dataSize g) i j k = true →
         ∃ s v, getAt (data g) i j k = Some s ∧
                getAt (data d') i j k = Some v ∧ veq v s).
Proof.
  split.
  - exact solve_zero_factor_scalar.
  - exact solve_zero_factor_vector.
Qed.

Lemma solve_zero_factor_copies_witness :
  (∃ st' d',
     solve_scalar 0%nat 3 0 1%nat (constantField 1) (constantField (-1))
       rampState = Some st' ∧
     grids st' !! 1%nat = Some d' ∧
     ∀ i j k, inBounds (mkVector3UZ 2 1 1) i j k = true →
       ∃ s v, getAt (rampData (mkVector3UZ 2 1 1)) i j k = Some s ∧
              getAt (data d') i j k = Some v ∧ v == s) ∧
  (∃ st' d',
     solve_collocated 0%nat 0 3 1%nat (constantField 1) (constantField (-1))
       (twoGrids (vectorGrid (vectorRamp (mkVector3UZ 2 1 1)))
                 (vectorGrid (vectorRamp (mkVector3UZ 2 1 1))))
       = Some st' ∧
     grids st' !! 1%nat = Some d' ∧
     ∀ i j k, inBounds (mkVector3UZ 2 1 1) i j k = true →
       ∃ s v, getAt (vectorRamp (mkVector3UZ 2 1 1)) i j k = Some s ∧
              getAt (data d') i j k = Some v ∧ veq v s).
Proof.
  split.
  - apply (proj1 solve_zero_factor_copies rampState 0%nat 1%nat
             (scalarGrid (rampData (mkVector3UZ 2 1 1)))
             (scalarGrid (constantData (mkVector3UZ 2 1 1) 0))
             3 0 (constantField 1) (constantField (-1)));
      [reflexivity|reflexivity|lia|reflexivity|
       unfold fitsIn; simpl; lia|reflexivity].
  - apply (proj2 solve_zero_factor_copies
             (twoGrids (vectorGrid (vectorRamp (mkVector3UZ 2 1 1)))
                       (vectorGrid (vectorRamp (mkVector3UZ 2 1 1))))
             0%nat 1%nat
             (vectorGrid (vectorRamp (mkVector3UZ 2 1 1)))
             (vectorGrid (vectorRamp (mkVector3UZ 2 1 1)))
             0 3 (constantField 1) (constantField (-1)));
      [reflexivity|reflexivity|lia|reflexivity|
       unfold fitsIn; simpl; lia|reflexivity].
Defined.

(** ** The vector overload, component by component *)

Lemma component_laplacianAt (a : Axis) (data : Array3 Vector3D)
  (M : Array3 Z) (h : Vector3D) (i j k : nat) :
  component a (laplacianAt data M h i j k)
  = laplacianAt (componentData a data) M h i j k.
Proof.
  unfold laplacianAt, fluidDiffAt, componentData. cbv zeta.
  change (size3 {| size3 := size3 data;
                   cells := λ i j k, component a (cells data i j k) |})
    with (size3 data).
  destruct a;
    repeat match goal with
           | |- context [if ?c then _ else _] => destruct c
           end; reflexivity.
Qed.

Lemma component_updatedValue (a : Axis) (g : CollocatedVectorGrid3)
  (M : Array3 Z) (c dt : Q) (i j k : nat) :
  component a (updatedValue g M c dt i j k)
  = updatedValue (componentGrid a g) M c dt i j k.
Proof.
  unfold updatedValue.
  change (gridSpacing (componentGrid a g)) with (gridSpacing g).
  change (data (componentGrid a g)) with (componentData a (data g)).
  rewrite <- component_laplacianAt.
  destruct (cells M i j k =? kFluid)%Z; destruct a; reflexivity.
Qed.

(** X14.  The collocated vector overload diffuses each component on its
    own: a component of every value it writes is the value the scalar
    overload writes for the scalar grid that holds this component of the
    source, with the same spacing, positions and SDFs. *)
Theorem solve_collocated_componentwise (a : Axis)
  (stV : State CollocatedVectorGrid3) (stS : State ScalarGrid3)
  sourceV destV sourceS destS (g dV : CollocatedVectorGrid3)
  (dS : ScalarGrid3) c dt boundarySdf fluidSdf :
  grids stV !! sourceV = Some g → grids stV !! destV = Some dV →
  sourceV ≠ destV →
  grids stS !! sourceS = Some (componentGrid a g) →
  grids stS !! destS = Some dS →
  sourceS ≠ destS →
  collocated g →
  fitsIn (dataSize g) (dataSize dV) →
  fitsIn (dataSize g) (dataSize dS) →
  ∃ stV' dV' stS' dS',
    solve_collocated sourceV c dt destV boundarySdf fluidSdf stV = Some stV' ∧
    grids stV' !! destV = Some dV' ∧
    solve_scalar sourceS c dt destS boundarySdf fluidSdf stS = Some stS' ∧
    grids stS' !! destS = Some dS' ∧
    ∀ i j k, inBounds (dataSize g) i j k = true →
      ∃ v, getAt (data dV') i j k = Some v ∧
           getAt (data dS') i j k = Some (component a v).
Proof.
  intros HsV HdV HnV HsS HdS HnS Hcol HfV HfS.
  destruct (solve_separate stV sourceV destV g dV c dt boundarySdf fluidSdf
              HsV HdV HnV Hcol HfV)
    as (MV & aV & HrunV & HszMV & HMV & HszV & HinV & _).
  assert (HcolS : collocated (componentGrid a g)) by exact Hcol.
  destruct (solve_separate stS sourceS destS (componentGrid a g) dS c dt
              boundarySdf fluidSdf HsS HdS HnS HcolS HfS)
    as (MS & aS & HrunS & HszMS & HMS & HszS & HinS & _).
  eexists _, (withData dV aV), _, (withData dS aS).
  split; [exact HrunV|]. split; [simpl; apply lookup_insert_eq|].
  split; [exact HrunS|]. split; [simpl; apply lookup_insert_eq|].
  simpl. intros i j k Hb. exists (cells aV i j k). split.
  - apply getAt_Some. rewrite HszV.
    apply inBounds_spec in Hb. apply inBounds_spec.
    unfold fitsIn in HfV. lia.
  - rewrite getAt_Some.
    + f_equal. rewrite (HinS i j k Hb), (HinV i j k Hb).
      rewrite component_updatedValue.
      apply updatedValue_markers_ext; [exact Hb|].
      intros i' j' k' Hb'.
      change (dataSize (componentGrid a g)) with (dataSize g) in Hb'.
      rewrite Hcol in Hb'.
      rewrite (HMS i' j' k' Hb'), (HMV i' j' k' Hb'). reflexivity.
    + rewrite HszS. apply inBounds_spec in Hb. apply inBounds_spec.
      unfold fitsIn in HfS.
      change (dataSize (componentGrid a g)) with (dataSize g) in HfS. lia.
Qed.

Lemma solve_collocated_componentwise_witness :
  ∃ stV' dV' stS' dS',
    solve_collocated 0%nat (1 # 4) 1 1%nat rightSolid leftHalfFluid
      (twoGrids (vectorGrid (vectorRamp (mkVector3UZ 3 1 1)))
                (vectorGrid (vectorRamp (mkVector3UZ 3 1 1))))
      = Some stV' ∧
    grids stV' !! 1%nat = Some dV' ∧
    solve_scalar 0%nat (1 # 4) 1 1%nat rightSolid leftHalfFluid
      (twoGrids (componentGrid AxisY
                   (vectorGrid (vectorRamp (mkVector3UZ 3 1 1))))
                (scalarGrid (constantData (mkVector3UZ 3 1 1) 0)))
      = Some stS' ∧
    grids stS' !! 1%nat = Some dS' ∧
    ∀ i j k, inBounds (mkVector3UZ 3 1 1) i j k = true →
      ∃ v, getAt (data dV') i j k = Some v ∧
           getAt (data dS') i j k = Some (component AxisY v).
Proof.
  apply (solve_collocated_componentwise AxisY
           (twoGrids (vectorGrid (vectorRamp (mkVector3UZ 3 1 1)))
                     (vectorGrid (vectorRamp (mkVector3UZ 3 1 1))))
           (twoGrids (componentGrid AxisY
                        (vectorGrid (vectorRamp (mkVector3UZ 3 1 1))))
                     (scalarGrid (constantData (mkVector3UZ 3 1 1) 0)))
           0%nat 1%nat 0%nat 1%nat
           (vectorGrid (vectorRamp (mkVector3UZ 3 1 1)))
           (vectorGrid (vectorRamp (mkVector3UZ 3 1 1)))
           (scalarGrid (constantData (mkVector3UZ 3 1 1) 0))
           (1 # 4) 1 rightSolid leftHalfFluid).
  - reflexivity.
  - reflexivity.
  - lia.
  - reflexivity.
  - reflexivity.
  - lia.
  - reflexivity.
  - unfold fitsIn. simpl. lia.
  - unfold fitsIn. simpl. lia.
Defined.

(** ** When the face-centered overload returns, and what it leaves in w *)

Lemma solveW_fails_at (st : State FaceCenteredGrid3) source dest
  (g : FaceCenteredGrid3) c dt boundarySdf fluidSdf (j k : nat) :
  grids st !! source = Some g →
  staggered g →
  (j < sy (faceResolution g))%nat →
  (k < sz (faceResolution g))%nat →
  isInsideSdf (boundarySdf (wPosition g (sx (faceResolution g)) j k)) = false →
  solveW source c dt dest boundarySdf fluidSdf st = None.
Proof.
  intros Hsrc (Hu & _ & Hw) Hj Hk Hout.
  unfold solveW. rewrite Hsrc. simpl.
  destruct (rebuildMarkers_returns (wSize g) (wPosition g) boundarySdf
              fluidSdf st) as (M & ->).
  simpl. unfold forEachIndex.
  apply (forEach_fails
           (λ s, ∃ g', grids s !! source = Some g' ∧
                       size3 (wData g') = wSize g)
           _ _ (sx (faceResolution g)) j k).
  - apply elem_of_indices, inBounds_spec. rewrite Hu. simpl. lia.
  - intros s (g' & Hg' & Hsz). unfold solveFaceSample.
    rewrite Hout. simpl. rewrite Hg'. simpl.
    rewrite getAt_None; [reflexivity|]. simpl. rewrite Hsz, Hw.
    unfold inBounds. simpl. now rewrite Nat.ltb_irrefl.
  - intros i' j' k' s s' (g' & Hg' & Hsz) Hstep.
    unfold solveFaceSample in Hstep.
    destruct (negb (isInsideSdf (boundarySdf (wPosition g i' j' k'))));
      [|injection Hstep as <-; eauto].
    rewrite Hg' in Hstep. simpl in Hstep.
    destruct (getAt (wData g') i' j' k') as [x|]; [|discriminate].
    simpl in Hstep.
    destruct (laplacian3 (wData g') (faceGridSpacing g) i' j' k') as [lp|];
      [|discriminate].
    simpl in Hstep. unfold writeView in Hstep.
    destruct (grids s !! dest) as [gd|] eqn:Hgd; [|discriminate].
    simpl in Hstep. unfold setAt in Hstep.
    destruct (inBounds (size3 (wData gd)) i' j' k'); [|discriminate].
    injection Hstep as <-. simpl.
    destruct (decide (source = dest)) as [->|Hne].
    + rewrite lookup_insert_eq. eexists. split; [reflexivity|]. simpl.
      rewrite Hg' in Hgd. injection Hgd as <-. exact Hsz.
    + rewrite lookup_insert_ne by congruence. eauto.
  - exists g. split; [exact Hsrc|reflexivity].
Qed.

Lemma solve_face_fails_at (st : State FaceCenteredGrid3) source dest
  (g : FaceCenteredGrid3) c dt boundarySdf fluidSdf (j k : nat) :
  grids st !! source = Some g →
  source ≠ dest →
  staggered g →
  (j < sy (faceResolution g))%nat →
  (k < sz (faceResolution g))%nat →
  isInsideSdf (boundarySdf (wPosition g (sx (faceResolution g)) j k)) = false →
  solve_face source c dt dest boundarySdf fluidSdf st = None.
Proof.
  intros Hsrc Hne Hst Hj Hk Hout. unfold solve_face.
  destruct (solveU source c dt dest boundarySdf fluidSdf st)
    as [st1|] eqn:HU; [simpl|reflexivity].
  destruct (solveV source c dt dest boundarySdf fluidSdf st1)
    as [st2|] eqn:HV; [simpl|reflexivity].
  apply (solveW_fails_at st2 source dest g c dt boundarySdf fluidSdf j k);
    try assumption.
  rewrite (solveV_frame _ _ _ _ _ _ _ _ HV source Hne).
  rewrite (solveU_frame _ _ _ _ _ _ _ _ HU source Hne).
  exact Hsrc.
Qed.

(** The third pass when every u index beyond the w extent is skipped as
    inside the boundary. *)
Lemma solveW_skipping (st : State FaceCenteredGrid3) source dest
  (g d : FaceCenteredGrid3) c dt boundarySdf fluidSdf :
  grids st !! source = Some g →
  grids st !! dest = Some d →
  source ≠ dest →
  staggered g →
  wSize d = wSize g →
  (∀ j k, (j < sy (faceResolution g))%nat → (k < sz (faceResolution g))%nat →
     isInsideSdf (boundarySdf (wPosition g (sx (faceResolution g)) j k))
     = true) →
  ∃ M a',
    solveW source c dt dest boundarySdf fluidSdf st
      = Some (mkState (<[dest := withW d a']> (grids st)) M) ∧
    size3 a' = wSize d ∧
    (∀ i j k, inBounds (uSize g) i j k = true →
       isInsideSdf (boundarySdf (wPosition g i j k)) = false →
       cells a' i j k = cells (wData g) i j k
                        + c * dt * laplacian3At (wData g) (faceGridSpacing g) i j k) ∧
    (∀ i j k, inBounds (uSize g) i j k = true →
       isInsideSdf (boundarySdf (wPosition g i j k)) = true →
       cells a' i j k = cells (wData d) i j k) ∧
    (∀ i j k, inBounds (uSize g) i j k = false →
       cells a' i j k = cells (wData d) i j k).
Proof.
  intros Hsrc Hdst Hne (Hu & _ & Hw) Hwd Hskip.
  unfold solveW. rewrite Hsrc. simpl.
  destruct (rebuildMarkers_returns (wSize g) (wPosition g) boundarySdf
              fluidSdf st) as (M & ->).
  simpl.
  assert (Hin : ∀ i j k, inBounds (uSize g) i j k = true →
            isInsideSdf (boundarySdf (wPosition g i j k)) = false →
            inBounds (wSize g) i j k = true).
  { intros i j k Hb Hout. apply inBounds_spec in Hb. rewrite Hu in Hb.
    simpl in Hb. apply inBounds_spec. rewrite Hw. simpl.
    destruct (decide (i = sx (faceResolution g))) as [->|Hi]; [|lia].
    rewrite Hskip in Hout by lia. discriminate. }
  assert (Hval : ∀ i j k, inBounds (uSize g) i j k = true →
            faceUpdate wView (wPosition g) g c dt boundarySdf
              (faceGridSpacing g) i j k
            = Some (if isInsideSdf (boundarySdf (wPosition g i j k)) then None
                    else Some (cells (wData g) i j k
                               + c * dt * laplacian3At (wData g)
                                            (faceGridSpacing g) i j k))).
  { intros i j k Hb. unfold faceUpdate.
    destruct (isInsideSdf (boundarySdf (wPosition g i j k))) eqn:Hins;
      [reflexivity|]. simpl.
    rewrite getAt_Some by now apply Hin. simpl.
    now rewrite laplacian3_inside by now apply Hin. }
  destruct (viewLoop wView source dest g d M
              (solveFaceSample wView (wPosition g) source c dt dest
                 boundarySdf (faceGridSpacing g))
              (faceUpdate wView (wPosition g) g c dt boundarySdf
                 (faceGridSpacing g))
              (λ i j k st', solveFaceSample_eq wView (wPosition g) source c dt
                              dest boundarySdf (faceGridSpacing g) g M i j k st')
              Hne (uSize g) (mkState (grids st) M) Hsrc Hdst eq_refl)
    as (a' & Hrun & Hsz & Hset & Hkeep & Hout).
  { intros i j k Hb. eexists. split; [now apply Hval|].
    destruct (isInsideSdf (boundarySdf (wPosition g i j k))) eqn:Hins.
    - intros [x Hx]. discriminate.
    - intros _. simpl. change (size3 (wData d)) with (wSize d).
      rewrite Hwd. now apply Hin. }
  exists M, a'. split; [exact Hrun|]. split; [exact Hsz|].
  split; [|split; [|exact Hout]].
  - intros i j k Hb Hins. apply Hset; [exact Hb|].
    rewrite Hval by exact Hb. now rewrite Hins.
  - intros i j k Hb Hins. apply Hkeep; [exact Hb|].
    rewrite Hval by exact Hb. now rewrite Hins.
Qed.

(** The whole call under the same condition. *)
Lemma solve_face_skipping (st : State FaceCenteredGrid3) source dest
  (g d : FaceCenteredGrid3) c dt boundarySdf fluidSdf :
  grids st !! source = Some g →
  grids st !! dest = Some d →
  source ≠ dest →
  staggered g →
  uSize d = uSize g → vSize d = vSize g → wSize d = wSize g →
  (∀ j k, (j < sy (faceResolution g))%nat → (k < sz (faceResolution g))%nat →
     isInsideSdf (boundarySdf (wPosition g (sx (faceResolution g)) j k))
     = true) →
  ∃ st' d' a',
    solve_face source c dt dest boundarySdf fluidSdf st = Some st' ∧
    grids st' !! dest = Some d' ∧
    wData d' = a' ∧
    size3 a' = wSize d ∧
    (∀ i j k, inBounds (uSize g) i j k = true →
       isInsideSdf (boundarySdf (wPosition g i j k)) = false →
       cells a' i j k = cells (wData g) i j k
                        + c * dt * laplacian3At (wData g) (faceGridSpacing g) i j k) ∧
    (∀ i j k, inBounds (uSize g) i j k = true →
       isInsideSdf (boundarySdf (wPosition g i j k)) = true →
       cells a' i j k = cells (wData d) i j k) ∧
    (∀ i j k, inBounds (uSize g) i j k = false →
       cells a' i j k = cells (wData d) i j k).
Proof.
  intros Hsrc Hdst Hne Hst Hud Hvd Hwd Hskip.
  assert (Hfu : fitsIn (uSize g) (uSize d))
    by (rewrite Hud; unfold fitsIn; lia).
  assert (Hfv : fitsIn (vSize g) (vSize d))
    by (rewrite Hvd; unfold fitsIn; lia).
  destruct (solveU_separate st source dest g d c dt boundarySdf fluidSdf
              Hsrc Hdst Hne Hfu) as (M1 & a1 & Hrun1 & _).
  set (st1 := mkState (<[dest := withU d a1]> (grids st)) M1) in *.
  assert (Hsrc1 : grids st1 !! source = Some g)
    by (simpl; now rewrite lookup_insert_ne).
  assert (Hdst1 : grids st1 !! dest = Some (withU d a1))
    by (simpl; apply lookup_insert_eq).
  destruct (solveV_separate st1 source dest g (withU d a1) c dt
              boundarySdf fluidSdf Hsrc1 Hdst1 Hne Hfv)
    as (M2 & a2 & Hrun2 & _).
  set (st2 := mkState (<[dest := withV (withU d a1) a2]> (grids st1)) M2)
    in *.
  assert (Hsrc2 : grids st2 !! source = Some g)
    by (simpl; now rewrite !lookup_insert_ne).
  assert (Hdst2 : grids st2 !! dest = Some (withV (withU d a1) a2))
    by (simpl; apply lookup_insert_eq).
  destruct (solveW_skipping st2 source dest g (withV (withU d a1) a2) c dt
              boundarySdf fluidSdf Hsrc2 Hdst2 Hne Hst Hwd Hskip)
    as (M3 & a3 & Hrun3 & Hsz3 & Hset & Hkeep & Hout).
  eexists _, (withW (withV (withU d a1) a2) a3), a3.
  split.
  { unfold solve_face. rewrite Hrun1. simpl. rewrite Hrun2. simpl.
    exact Hrun3. }
  split; [simpl; apply lookup_insert_eq|].
  split; [reflexivity|]. split; [exact Hsz3|].
  split; [exact Hset|]. split; [exact Hkeep|exact Hout].
Qed.

(** X15.  On staggered source and destination grids of the same extents,
    with a destination that is not the source, the face-centered
    overload returns exactly when every w position at an index
    (rx, j, k), the u indices that are no w indices, is inside the
    boundary SDF, so that the third loop skips them. *)
Theorem solve_face_returns_iff (st : State FaceCenteredGrid3) source dest
  (g d : FaceCenteredGrid3) c dt boundarySdf fluidSdf :
  grids st !! source = Some g →
  grids st !! dest = Some d →
  source ≠ dest →
  staggered g →
  uSize d = uSize g → vSize d = vSize g → wSize d = wSize g →
  (is_Some (solve_face source c dt dest boundarySdf fluidSdf st)
   ↔ ∀ j k, (j < sy (faceResolution g))%nat →
            (k < sz (faceResolution g))%nat →
            isInsideSdf
              (boundarySdf (wPosition g (sx (faceResolution g)) j k))
            = true).
Proof.
  intros Hsrc Hdst Hne Hst Hud Hvd Hwd. split.
  - intros [st' Hrun] j k Hj Hk.
    destruct (isInsideSdf
                (boundarySdf (wPosition g (sx (faceResolution g)) j k)))
      eqn:Hins; [reflexivity|].
    rewrite (solve_face_fails_at st source dest g c dt boundarySdf fluidSdf
               j k Hsrc Hne Hst Hj Hk Hins) in Hrun.
    discriminate.
  - intros Hskip.
    destruct (solve_face_skipping st source dest g d c dt boundarySdf
                fluidSdf Hsrc Hdst Hne Hst Hud Hvd Hwd Hskip)
      as (st' & _ & _ & Hrun & _).
    rewrite Hrun. eauto.
Qed.

Lemma solve_face_returns_iff_witness :
  is_Some (solve_face 0%nat (1 # 4) 1 1%nat rightSolid (constantField (-1))
             oneCellState)
  ↔ ∀ j k, (j < 1)%nat → (k < 1)%nat →
           isInsideSdf (rightSolid (wPosition oneCellSource 1 j k)) = true.
Proof.
  apply (solve_face_returns_iff oneCellState 0%nat 1%nat oneCellSource
           oneCellDest (1 # 4) 1 rightSolid (constantField (-1))).
  - reflexivity.
  - reflexivity.
  - lia.
  - repeat split.
  - reflexivity.
  - reflexivity.
  - reflexivity.
Defined.

(** X16.  Whenever the face-centered overload returns (staggered grids
    of the same extents, destination not the source), the w component
    has been updated over the u index set only: the last plane of w
    samples, k = rz, holds what the destination held before, and a w
    sample below it is diffused with [laplacian3] unless its position
    is inside the boundary SDF. *)
Theorem solve_face_leaves_last_w_plane (st st' : State FaceCenteredGrid3)
  source dest (g d : FaceCenteredGrid3) c dt boundarySdf fluidSdf :
  grids st !! source = Some g →
  grids st !! dest = Some d →
  source ≠ dest →
  staggered g →
  uSize d = uSize g → vSize d = vSize g → wSize d = wSize g →
  solve_face source c dt dest boundarySdf fluidSdf st = Some st' →
  ∃ d',
    grids st' !! dest = Some d' ∧
    (∀ i j, getAt (wData d') i j (sz (faceResolution g))
            = getAt (wData d) i j (sz (faceResolution g))) ∧
    (∀ i j k, inBounds (wSize g) i j k = true →
       (k < sz (faceResolution g))%nat →
       if isInsideSdf (boundarySdf (wPosition g i j k))
       then getAt (wData d') i j k = getAt (wData d) i j k
       else ∃ s l,
              getAt (wData g) i j k = Some s ∧
              laplacian3 (wData g) (faceGridSpacing g) i j k = Some l ∧
              getAt (wData d') i j k = Some (s + c * dt * l)).
Proof.
  intros Hsrc Hdst Hne Hst Hud Hvd Hwd Hrun.
  assert (Hskip : ∀ j k, (j < sy (faceResolution g))%nat →
            (k < sz (faceResolution g))%nat →
            isInsideSdf
              (boundarySdf (wPosition g (sx (faceResolution g)) j k)) = true).
  { intros j k Hj Hk.
    destruct (isInsideSdf
                (boundarySdf (wPosition g (sx (faceResolution g)) j k)))
      eqn:Hins; [reflexivity|].
    rewrite (solve_face_fails_at st source dest g c dt boundarySdf fluidSdf
               j k Hsrc Hne Hst Hj Hk Hins) in Hrun.
    discriminate. }
  destruct (solve_face_skipping st source dest g d c dt boundarySdf
              fluidSdf Hsrc Hdst Hne Hst Hud Hvd Hwd Hskip)
    as (st0 & d' & a' & Hrun' & Hd' & Ha' & Hsz & Hset & Hkeep & Hout).
  rewrite Hrun in Hrun'. injection Hrun' as <-.
  destruct Hst as (Hu & _ & Hw).
  exists d'. split; [exact Hd'|]. rewrite Ha'. split.
  - intros i j. apply getAt_ext; [exact Hsz|]. apply Hout.
    unfold inBounds. rewrite Hu. simpl.
    rewrite Nat.ltb_irrefl. now rewrite !andb_false_r.
  - intros i j k Hb Hk.
    assert (Hbu : inBounds (uSize g) i j k = true).
    { apply inBounds_spec in Hb. rewrite Hw in Hb. simpl in Hb.
      apply inBounds_spec. rewrite Hu. simpl. lia. }
    destruct (isInsideSdf (boundarySdf (wPosition g i j k))) eqn:Hins.
    + apply getAt_ext; [exact Hsz|]. now apply Hkeep.
    + exists (cells (wData g) i j k),
             (laplacian3At (wData g) (faceGridSpacing g) i j k).
      split; [now apply getAt_Some|].
      split; [now apply laplacian3_inside|].
      rewrite <- (Hset i j k Hbu Hins). apply getAt_Some.
      now rewrite Hsz, Hwd.
Qed.

Lemma solve_face_leaves_last_w_plane_witness :
  ∃ st',
    solve_face 0%nat (1 # 4) 1 1%nat rightSolid (constantField (-1))
      oneCellState = Some st' ∧
    ∃ d',
      grids st' !! 1%nat = Some d' ∧
      (∀ i j, getAt (wData d') i j 1 = getAt (wData oneCellDest) i j 1) ∧
      (∀ i j k, inBounds (wSize oneCellSource) i j k = true →
         (k < 1)%nat →
         if isInsideSdf (rightSolid (wPosition oneCellSource i j k))
         then getAt (wData d') i j k = getAt (wData oneCellDest) i j k
         else ∃ s l,
                getAt (wData oneCellSource) i j k = Some s ∧
                laplacian3 (wData oneCellSource)
                  (faceGridSpacing oneCellSource) i j k = Some l ∧
                getAt (wData d') i j k = Some (s + (1 # 4) * 1 * l)).
Proof.
  eexists. split.
  - vm_compute. reflexivity.
  - apply (solve_face_leaves_last_w_plane oneCellState _ 0%nat 1%nat
             oneCellSource oneCellDest (1 # 4) 1 rightSolid
             (constantField (-1))).
    + reflexivity.
    + reflexivity.
    + lia.
    + repeat split.
    + reflexivity.
    + reflexivity.
    + reflexivity.
    + vm_compute. reflexivity.
Defined.

(** ** The parallel loop *)

Section ParallelLoop.
Context {T : Type} `{Quantity T}.

(** X17.  Scalar and collocated vector overload: the loop over the data
    points is a parallel one, and with a destination that is not the
    source its iterations do not depend on each other.  Visiting the
    data points in any two orders, each index at least once, returns,
    and leaves the same value in every sample of the destination. *)
Theorem parallel_loop_order_irrelevant (st : State (Grid T)) source dest
  (g d : Grid T) c dt (l1 l2 : list Index3) :
  (∀ i j k, (i, j, k) ∈ l1 ↔ inBounds (dataSize g) i j k = true) →
  (∀ i j k, (i, j, k) ∈ l2 ↔ inBounds (dataSize g) i j k = true) →
  grids st !! source = Some g →
  grids st !! dest = Some d →
  source ≠ dest →
  size3 (_markers st) = dataSize g →
  fitsIn (dataSize g) (dataSize d) →
  ∃ a1 a2,
    forEach l1 (solveSample source c dt dest (gridSpacing g)) st
      = Some (mkState (<[dest := withData d a1]> (grids st)) (_markers st)) ∧
    forEach l2 (solveSample source c dt dest (gridSpacing g)) st
      = Some (mkState (<[dest := withData d a2]> (grids st)) (_markers st)) ∧
    size3 a1 = size3 a2 ∧
    ∀ i j k, cells a1 i j k = cells a2 i j k.
Proof.
  intros Hl1 Hl2 Hsrc Hdst Hne HszM Hfit.
  destruct (solve_loop_any_order st source dest g d c dt l1
              Hl1 Hsrc Hdst Hne HszM Hfit)
    as (a1 & Hrun1 & Hsz1 & Hin1 & Hout1).
  destruct (solve_loop_any_order st source dest g d c dt l2
              Hl2 Hsrc Hdst Hne HszM Hfit)
    as (a2 & Hrun2 & Hsz2 & Hin2 & Hout2).
  exists a1, a2. split; [exact Hrun1|]. split; [exact Hrun2|].
  split; [congruence|].
  intros i j k. destruct (inBounds (dataSize g) i j k) eqn:Hb.
  - now rewrite Hin1, Hin2.
  - now rewrite Hout1, Hout2.
Qed.
End ParallelLoop.

Lemma parallel_loop_order_irrelevant_witness :
  ∃ a1 a2,
    forEach [(0, 0, 0); (1, 0, 0)]%nat
      (solveSample 0%nat (1 # 4) 1 1%nat unitSpacing)
      (withMarkers (fluidMarkers (mkVector3UZ 2 1 1)) rampState)
    = Some (mkState
              (<[1%nat := withData
                            (scalarGrid (constantData (mkVector3UZ 2 1 1) 0))
                            a1]> (grids rampState))
              (fluidMarkers (mkVector3UZ 2 1 1))) ∧
    forEach [(1, 0, 0); (0, 0, 0); (1, 0, 0)]%nat
      (solveSample 0%nat (1 # 4) 1 1%nat unitSpacing)
      (withMarkers (fluidMarkers (mkVector3UZ 2 1 1)) rampState)
    = Some (mkState
              (<[1%nat := withData
                            (scalarGrid (constantData (mkVector3UZ 2 1 1) 0))
                            a2]> (grids rampState))
              (fluidMarkers (mkVector3UZ 2 1 1))) ∧
    size3 a1 = size3 a2 ∧
    ∀ i j k, cells a1 i j k = cells a2 i j k.
Proof.
  apply (parallel_loop_order_irrelevant (T := Q)
           (withMarkers (fluidMarkers (mkVector3UZ 2 1 1)) rampState)
           0%nat 1%nat
           (scalarGrid (rampData (mkVector3UZ 2 1 1)))
           (scalarGrid (constantData (mkVector3UZ 2 1 1) 0))
           (1 # 4) 1
           [(0, 0, 0); (1, 0, 0)]%nat
           [(1, 0, 0); (0, 0, 0); (1, 0, 0)]%nat).
  - intros i j k. rewrite inBounds_spec. simpl.
    rewrite !elem_of_cons. split.
    + intros [E|[E|E]]; [injection E as -> -> ->; lia
                        |injection E as -> -> ->; lia
                        |now apply elem_of_nil in E].
    + intros (Hi & Hj & Hk).
      assert (j = 0%nat) as -> by lia. assert (k = 0%nat) as -> by lia.
      destruct i as [|[|i]]; [now left|right; now left|lia].
  - intros i j k. rewrite inBounds_spec. simpl.
    rewrite !elem_of_cons. split.
    + intros [E|[E|[E|E]]]; [injection E as -> -> ->; lia
                            |injection E as -> -> ->; lia
                            |injection E as -> -> ->; lia
                            |now apply elem_of_nil in E].
    + intros (Hi & Hj & Hk).
      assert (j = 0%nat) as -> by lia. assert (k = 0%nat) as -> by lia.
      destruct i as [|[|i]]; [right; now left|now left|lia].
  - reflexivity.
  - reflexivity.
  - lia.
  - reflexivity.
  - unfold fitsIn. simpl. lia.
Defined.
